(** * Vectorised gap-tooth time stepper with projective integration

    A shallow embedding of [Bratu/VectorizedGapToothPITimestepper.py]:
    the conversions [toPatch] / [toNumpyArray], the micro stepper
    [euler_step] on top of [rhs_vectorised], the projective cycle
    [projective_microcycle], the slope estimator [spline_slopes], the driver
    [gaptooth_PI_vectorised] and the counted residual map [psiPatch].

    The development has three layers.
    - A value layer: a NumPy array is the list (of lists) of its entries,
      every arithmetic operator is taken from an interface [Float64] so that
      the theorems hold for whatever the float operations compute, and an
      exception of the Python code is the result [None].
    - The IEEE 754 binary64 instance of the interface, built on the
      Standard Library's [SpecFloat], on which closed examples are evaluated.
    - A store layer, in which arrays are objects of a heap, for the
      statements about copies and aliasing. *)

From Stdlib Require Import ZArith Floats.SpecFloat.
From stdpp Require Import base option list.

Open Scope Z_scope.
Open Scope nat_scope.

(** ** Scalars *)

(** The scalar operations the source applies to float64 values.  Nothing is
    assumed about them: a theorem stated over the interface holds for the
    rounding, the infinities and the NaNs of IEEE arithmetic alike. *)
Class Float64 (F : Type) := {
  f_zero : F;                      (* the literal [0.0] *)
  f_two : F;                       (* the literal [2.0] *)
  f_add : F -> F -> F;             (* [+] *)
  f_sub : F -> F -> F;             (* [-] *)
  f_mul : F -> F -> F;             (* [*] *)
  f_div : F -> F -> F;             (* [/] with an array operand: never raises *)
  f_exp : F -> F;                  (* [np.exp], elementwise *)
  f_sqr : F -> option F;           (* [dx**2] on a Python float: OverflowError *)
  f_of_int : Z -> F;               (* the float of the int [K] in [K*dt], see [int_converts] *)
  f_pydiv : F -> F -> option F;    (* [/] on two Python floats: ZeroDivisionError *)
  f_round_int : F -> option Z      (* [int(np.round(x))]: raises on NaN and inf *)
}.

(** The integers that Python converts to a float. In [K*dt] the int [K] is
    converted to the nearest float, and the conversion raises OverflowError
    when this float would be an infinity, that is, for
    [|K| >= 2^1024 - 2^970]. The field [f_of_int] is the conversion on the
    integers that convert; a statement that a call which evaluates [K*dt]
    returns is made for such a [K] only. *)
Definition int_converts (K : Z) : Prop := (Z.abs K < 2 ^ 1024 - 2 ^ 970)%Z.

(** [params]: the dictionary is read at the key ['lambda'] only. *)
Record params (F : Type) := Params { lambda : F }.
Arguments Params {F} _.
Arguments lambda {F} _.

Section Arrays.
Context {A : Type}.

(** Python's index normalisation on an axis of length [n]: [-1] is the last
    position, and an index outside [-n .. n-1] raises IndexError. *)
Definition norm_index (n : nat) (i : Z) : option nat :=
  if decide (0 ≤ i < Z.of_nat n)%Z then Some (Z.to_nat i)
  else if decide (- Z.of_nat n ≤ i < 0)%Z then Some (Z.to_nat (Z.of_nat n + i))
  else None.

(** The second component of [U.shape] for a two-dimensional array. *)
Definition n_micro_of (U : list (list A)) : nat :=
  match U with [] => 0 | r :: _ => length r end.

(** A list of rows is an array of shape [(n, m)]. *)
Definition has_shape (n m : nat) (U : list (list A)) : Prop :=
  length U = n ∧ Forall (λ r, length r = m) U.

Definition has_shapeb (n m : nat) (U : list (list A)) : bool :=
  bool_decide (length U = n) && forallb (λ r, bool_decide (length r = m)) U.

(** [U[k, j]] as a read, both indices already normalised. *)
Definition get (U : list (list A)) (k j : nat) : option A :=
  r ← U !! k; r !! j.

(** [np.roll(row, s)]: entry [j] moves to position [(j + s) mod n]. *)
Definition np_roll (s : Z) (row : list A) : list A :=
  rotate (Z.to_nat ((- s) `mod` Z.of_nat (length row))) row.

(** Elementwise operators on arrays of one shape. *)
Definition mmap (f : A -> A) (U : list (list A)) : list (list A) :=
  (λ r : list A, f <$> r) <$> U.
Definition mzip (f : A -> A -> A) (U V : list (list A)) : list (list A) :=
  zip_with (zip_with f) U V.

(** [U[i, j] = v] with scalar indices. *)
Definition set_item (U : list (list A)) (i j : Z) (v : A) : option (list (list A)) :=
  k ← norm_index (length U) i;
  c ← norm_index (n_micro_of U) j;
  r ← U !! k;
  Some (<[k := <[c := v]> r]> U).

(** [U[lo:hi, j]] as a read: one value per selected row. *)
Definition get_col (U : list (list A)) (lo hi : nat) (j : Z) : option (list A) :=
  c ← norm_index (n_micro_of U) j;
  mapM (λ r : list A, r !! c) (take (hi - lo) (drop lo U)).

(** [U[lo:hi, j] = vals] where [vals] has one value per selected row. *)
Definition set_col (U : list (list A)) (lo hi : nat) (j : Z) (vals : list A)
  : option (list (list A)) :=
  c ← norm_index (n_micro_of U) j;
  Some (imap (λ k r,
          if decide (lo ≤ k < hi) then
            match vals !! (k - lo) with Some v => <[c := v]> r | None => r end
          else r) U).

(** NumPy broadcasting of two one-dimensional operands. *)
Definition broadcast2 (f : A -> A -> A) (a b : list A) : option (list A) :=
  if decide (length a = length b) then Some (zip_with f a b)
  else match a, b with
       | [x], _ => Some (fmap (f x) b)
       | _, [y] => Some (fmap (λ x, f x y) a)
       | _, _ => None
       end.

(** Broadcasting of an assigned value to a target of length [n]. *)
Definition broadcast_to (n : nat) (v : list A) : option (list A) :=
  if decide (length v = n) then Some v
  else match v with [x] => Some (replicate n x) | _ => None end.
End Arrays.

(** ** The micro stepper and the projective cycle *)

Section Stepper.
Context {F : Type} `{Float64 F}.

Abbreviation vec := (list F).
Abbreviation mat := (list (list F)).

(** The stencil value at one cell, from the cell and its two neighbours:
    [(u_next - 2.0*u + u_prev) / dx**2 + lambda * exp(u)]. *)
Definition rhs_cell (dx2 lam u u_next u_prev : F) : F :=
  f_add (f_div (f_add (f_sub u_next (f_mul f_two u)) u_prev) dx2)
        (f_mul lam (f_exp u)).

(** [rhs_vectorised(U, dx, params)]. *)
Definition rhs_vectorised (U : mat) (dx : F) (p : params F) : option mat :=
  let U_left := np_roll (-1) <$> U in
  let U_right := np_roll 1 <$> U in
  dx2 ← f_sqr dx;
  let U_xx := mmap (λ x, f_div x dx2)
                (mzip f_add (mzip f_sub U_left (mmap (f_mul f_two) U)) U_right) in
  Some (mzip f_add U_xx (mmap (f_mul (lambda p)) (mmap f_exp U))).

(** The boundary conditions, the block that closes both [euler_step]
    (lines 50-55) and [projective_microcycle] (lines 77-82). The four
    assignments run in the order of the source, on one array. *)
Definition impose_bcs (U : mat) (dx : F) (left_slope right_slope : vec) : option mat :=
  let n_teeth := length U in
  U ← set_item U 0 0 f_zero;
  U ← set_item U (-1) (-1) f_zero;
  if decide (1 < n_teeth) then
    inner ← get_col U 1 n_teeth 1;
    v ← broadcast2 f_sub inner (fmap (λ s, f_mul s dx) (drop 1 left_slope));
    v ← broadcast_to (n_teeth - 1) v;
    U ← set_col U 1 n_teeth 0 v;
    inner ← get_col U 0 (n_teeth - 1) (-2);
    v ← broadcast2 f_add inner
          (fmap (λ s, f_mul s dx) (take (length right_slope - 1) right_slope));
    v ← broadcast_to (n_teeth - 1) v;
    set_col U 0 (n_teeth - 1) (-1) v
  else Some U.

(** The array [U + dt * rhs_vectorised(U, dx, params)] of line 47. *)
Definition euler_update (U : mat) (dx dt : F) (p : params F) : option mat :=
  r ← rhs_vectorised U dx p;
  Some (mzip f_add U (mmap (f_mul dt) r)).

(** [euler_step(U, dx, dt, left_slope, right_slope, params)]. *)
Definition euler_step (U : mat) (dx dt : F) (left_slope right_slope : vec)
    (p : params F) : option mat :=
  U_new ← euler_update U dx dt p;
  impose_bcs U_new dx left_slope right_slope.

(** The variant that the specification compares [euler_step] with: a
    stencil that does not wrap around. A cell with both neighbours inside
    its patch gets the central difference; a cell that misses a neighbour
    gets [edge row j], whatever one-sided rule that is. This definition
    follows the words of the specification, not the source. *)
Definition rhs_nonperiodic (edge : vec -> nat -> F) (U : mat) (dx : F)
    (p : params F) : option mat :=
  dx2 ← f_sqr dx;
  Some ((λ row : vec,
           imap (λ j u,
             match row !! (j + 1), (if j is O then None else row !! (j - 1)) with
             | Some u_next, Some u_prev => rhs_cell dx2 (lambda p) u u_next u_prev
             | _, _ => edge row j
             end) row) <$> U).

Definition euler_step_nonperiodic (edge : vec -> nat -> F) (U : mat) (dx dt : F)
    (left_slope right_slope : vec) (p : params F) : option mat :=
  r ← rhs_nonperiodic edge U dx p;
  impose_bcs (mzip f_add U (mmap (f_mul dt) r)) dx left_slope right_slope.

(** The one-sided rule that drops the missing neighbour from the stencil,
    that is, reads [0.0] in its place. *)
Definition truncated_edge (dx2 lam : F) (row : vec) (j : nat) : F :=
  rhs_cell dx2 lam (default f_zero (row !! j))
    (default f_zero (row !! (j + 1)))
    (default f_zero (if j is O then None else row !! (j - 1))).

(** [for m in range(n): U = step(U)]. *)
Fixpoint repeat_step (n : nat) (step : mat -> option mat) (U : mat) : option mat :=
  match n with
  | O => Some U
  | S n' => U' ← step U; repeat_step n' step U'
  end.

(** The array [U + (Dt - K*dt) * du_dt] of lines 73-74, from the states
    before and after the last micro step. The product [K*dt] converts
    the int [K]; outside [int_converts] the code raises OverflowError
    there. *)
Definition extrapolate (U_prev U : mat) (dt Dt : F) (K : Z) : mat :=
  let du_dt := mmap (λ x, f_div x dt) (mzip f_sub U U_prev) in
  mzip f_add U (mmap (f_mul (f_sub Dt (f_mul (f_of_int K) dt))) du_dt).

(** [projective_microcycle(U, dx, dt, Dt, K, left_slope, right_slope, params)]. *)
Definition projective_microcycle (U : mat) (dx dt Dt : F) (K : Z)
    (left_slope right_slope : vec) (p : params F) : option mat :=
  U ← repeat_step (Z.to_nat (K - 1))
        (λ U, euler_step U dx dt left_slope right_slope p) U;
  let U_prev := U in
  U ← euler_step U dx dt left_slope right_slope p;
  let U := extrapolate U_prev U dt Dt K in
  impose_bcs U dx left_slope right_slope.
End Stepper.

(** ** Conversions between the flat vector and the list of patches *)

Section Conversions.
Context {F : Type} `{Float64 F}.

Abbreviation vec := (list F).

(** The slice [u[a:b]], clipped to the array as Python does. *)
Definition slice (u : vec) (a b : nat) : vec := take (b - a) (drop a u).

(** [toPatch(x_plot_array, u)]. *)
Definition toPatch (x_plot_array : list vec) (u : vec) : option (list vec) :=
  x0 ← x_plot_array !! 0;
  let length_ := length x0 in
  Some ((λ i, slice u (i * length_) ((i + 1) * length_))
          <$> seq 0 (length x_plot_array)).

(** [u[a:b] = v] on a one-dimensional array, for [a <= b <= len(u)]. *)
Definition assign_slice (u : vec) (a b : nat) (v : vec) : option vec :=
  v ← broadcast_to (b - a) v;
  Some (take a u ++ v ++ drop b u).

(** The loop of [toNumpyArray], from index [i] on. *)
Fixpoint fill_patches (length_ i : nat) (u_patch : list vec) (u : vec) : option vec :=
  match u_patch with
  | [] => Some u
  | p :: rest =>
      u ← assign_slice u (i * length_) ((i + 1) * length_) p;
      fill_patches length_ (S i) rest u
  end.

(** [toNumpyArray(u_patch)]. *)
Definition toNumpyArray (u_patch : list vec) : option vec :=
  p0 ← u_patch !! 0;
  let length_ := length p0 in
  fill_patches length_ 0 u_patch (replicate (length u_patch * length_) f_zero).
End Conversions.

(** ** The slope estimator and the driver *)

(** The interpolation collaborator, module [RBF] of the repository, is not
    part of the sources at hand: [rbf_derivative x_end u_end x] stands for
    [RBF.RBFInterpolator(x_end, u_end, solver=solver).derivative(x)]. *)
Class Interpolant (F : Type) := {
  rbf_derivative : list F -> list F -> F -> F
}.

Section Driver.
Context {F : Type} `{Float64 F} `{Interpolant F}.

Abbreviation vec := (list F).
Abbreviation mat := (list (list F)).

(** The loop of lines 92-94: the end points of patch [k] and the values of
    [U] there. *)
Definition end_points (U : mat) (x_array : list vec) (k : nat)
  : option ((F * F) * (F * F)) :=
  xs ← x_array !! k;
  i0 ← norm_index (length xs) 0;
  i1 ← norm_index (length xs) (-1);
  x0 ← xs !! i0;
  x1 ← xs !! i1;
  kk ← norm_index (length U) (Z.of_nat k);
  j0 ← norm_index (n_micro_of U) 0;
  j1 ← norm_index (n_micro_of U) (-1);
  u0 ← get U kk j0;
  u1 ← get U kk j1;
  Some ((x0, x1), (u0, u1)).

(** [spline_slopes(U, x_array, solver)]. *)
Definition spline_slopes (U : mat) (x_array : list vec) : option (vec * vec) :=
  ends ← mapM (end_points U x_array) (seq 0 (length x_array));
  let x_end := ends ≫= (λ e, [e.1.1; e.1.2]) in
  let u_end := ends ≫= (λ e, [e.2.1; e.2.2]) in
  Some ((λ e, rbf_derivative x_end u_end e.1.1) <$> ends,
        (λ e, rbf_derivative x_end u_end e.1.2) <$> ends).

(** [np.stack(u0_patch, axis=0)]: ValueError on an empty list and on
    arrays of different shapes. *)
Definition np_stack (u0_patch : list vec) : option mat :=
  match u0_patch with
  | [] => None
  | p :: _ =>
      if forallb (λ q, bool_decide (length q = length p)) u0_patch
      then Some u0_patch else None
  end.

(** A call of the driver to one of its two callees, with the arguments
    that change from call to call. *)
Inductive call :=
| CallSlopes (U : mat)
| CallCycle (U : mat) (left_slope right_slope : vec).

Section Loops.
Variables (dx dt Dt : F) (K : Z) (p : params F) (x_array : list vec).

(** The inner loop (lines 138-140), with the log of the calls made. *)
Fixpoint pi_cycles (n : nat) (U : mat) (ls rs : vec) (log : list call)
  : option (mat * list call) :=
  match n with
  | O => Some (U, log)
  | S n' =>
      U' ← projective_microcycle U dx dt Dt K ls rs p;
      pi_cycles n' U' ls rs (log ++ [CallCycle U ls rs])
  end.

(** The outer loop (lines 130-140). *)
Fixpoint patch_steps (n n_PI_steps : nat) (U : mat) (log : list call)
  : option (mat * list call) :=
  match n with
  | O => Some (U, log)
  | S n' =>
      '(ls, rs) ← spline_slopes U x_array;
      '(U', log') ← pi_cycles n_PI_steps U ls rs (log ++ [CallSlopes U]);
      patch_steps n' n_PI_steps U' log'
  end.
End Loops.

(** The body of [gaptooth_PI_vectorised], returning the rows of the final
    state together with the log of the calls. *)
Definition gaptooth_run (u0_patch x_array : list vec) (dx dt Dt : F) (K : Z)
    (T_patch T : F) (p : params F) : option (list vec * list call) :=
  U ← np_stack u0_patch;
  q ← f_pydiv T T_patch;
  n_patch_steps ← f_round_int q;
  q ← f_pydiv T_patch Dt;
  n_PI_steps ← f_round_int q;
  '(U, log) ← patch_steps dx dt Dt K p x_array
                (Z.to_nat n_patch_steps) (Z.to_nat n_PI_steps) U [];
  Some (U, log).

(** [gaptooth_PI_vectorised(u0_patch, x_array, dx, dt, Dt, K, T_patch, T, params)]. *)
Definition gaptooth_PI_vectorised (u0_patch x_array : list vec) (dx dt Dt : F)
    (K : Z) (T_patch T : F) (p : params F) : option (list vec) :=
  fst <$> gaptooth_run u0_patch x_array dx dt Dt K T_patch T p.

(** ** The counted residual map *)

(** The state of the decorator [eval_counter]: the variable [count] of the
    closure and the attribute [wrapper.count]. *)
Record counter := Counter { closure_count : Z; attr_count : Z }.

(** The state after the decoration at line 156. *)
Definition counter_init : counter := Counter 0 0.

(** The body of [psiPatch] (lines 160-163). *)
Definition psiPatch_body (u0_numpy : vec) (x_plot_array : list vec)
    (dx dt Dt : F) (K : Z) (T_patch T_psi : F) (p : params F) : option vec :=
  u0_patch ← toPatch x_plot_array u0_numpy;
  u_new_patch ← gaptooth_PI_vectorised u0_patch x_plot_array dx dt Dt K T_patch T_psi p;
  flat ← toNumpyArray u_new_patch;
  broadcast2 f_sub u0_numpy flat.

(** A call of the decorated [psiPatch]: the wrapper counts, publishes the
    count, then runs the body. *)
Definition psiPatch (c : counter) (u0_numpy : vec) (x_plot_array : list vec)
    (dx dt Dt : F) (K : Z) (T_patch T_psi : F) (p : params F)
  : counter * option vec :=
  let count := (closure_count c + 1)%Z in
  (Counter count count,
   psiPatch_body u0_numpy x_plot_array dx dt Dt K T_patch T_psi p).

(** The decorator [eval_counter(func)] (lines 145-153) on its own: a call
    of the wrapper adds one to the count of the closure, publishes it in
    the attribute [count], and only then calls [func]. *)
Definition eval_counter {A B : Type} (func : A -> B) (c : counter) (args : A)
  : counter * B :=
  let count := (closure_count c + 1)%Z in
  (Counter count count, func args).

(** Consecutive calls of a wrapper, each one on the counter that the call
    before it has left. *)
Fixpoint calls {A B : Type} (wrapper : counter -> A -> counter * B)
    (c : counter) (l : list A) : counter * list B :=
  match l with
  | [] => (c, [])
  | a :: l' =>
      let '(c1, b) := wrapper c a in
      let '(c2, bs) := calls wrapper c1 l' in
      (c2, b :: bs)
  end.
End Driver.

(** ** The domain of the experiments *)

(** The three experiments, [gapToothProjectiveIntegrationEvolution],
    [calculateSteadyState] and [calculateEigenvalues], open with one block
    (lines 169-188, 218-237, 269-285): the numbers of points from three
    domain parameters, and the patches cut out of the arrays on the full
    grid. *)
Section Experiments.
Context {A : Type}.

Record domain := Domain {
  n_teeth : Z;
  gap_over_tooth_size_ratio : Z;
  n_points_per_tooth : Z
}.

Definition n_gaps (d : domain) : Z := n_teeth d - 1.

Definition n_points_per_gap (d : domain) : Z :=
  gap_over_tooth_size_ratio d * (n_points_per_tooth d - 1) - 1.

Definition N (d : domain) : Z :=
  n_teeth d * n_points_per_tooth d + n_gaps d * n_points_per_gap d.

(** [M = n_teeth * n_points_per_tooth] (line 299). *)
Definition M_points (d : domain) : Z := n_teeth d * n_points_per_tooth d.

(** A bound of a Python slice on an axis of length [n]: a negative bound
    counts from the end, and every bound is clipped to the axis. *)
Definition slice_bound (n : nat) (i : Z) : nat :=
  Z.to_nat (if decide (i < 0)%Z then Z.max (i + Z.of_nat n) 0
            else Z.min i (Z.of_nat n)).

(** [u[a:b]] with integer bounds. *)
Definition py_slice (u : list A) (a b : Z) : list A :=
  take (slice_bound (length u) b - slice_bound (length u) a)
       (drop (slice_bound (length u) a) u).

(** The loop of lines 186-188 on one array [u] of the full grid: the list
    of the slices [u[i*(g+t) : i*(g+t) + t]] for [i] in [range(n_teeth)]. *)
Definition cut_patches (d : domain) (u : list A) : list (list A) :=
  (λ i : Z,
     py_slice u (i * (n_points_per_gap d + n_points_per_tooth d))
                (i * (n_points_per_gap d + n_points_per_tooth d)
                 + n_points_per_tooth d))
  <$> seqZ 0 (n_teeth d).

(** The parameters that the three experiments set. *)
Definition experiment_domain : domain := Domain 21 1 15.
End Experiments.

(** ** IEEE 754 binary64 *)

(** The instance of the interface on which closed examples run: the
    operators are those of [SpecFloat] at precision 53 and maximal exponent
    1024, with rounding to nearest, ties to even. The two operations that
    Python delegates to the C library, [np.exp] and [**], are parameters of
    the instance. *)
Module B64.
Definition prec : Z := 53.
Definition emax : Z := 1024.

Abbreviation float := spec_float.

Definition add : float -> float -> float := SFadd prec emax.
Definition sub : float -> float -> float := SFsub prec emax.
Definition mul : float -> float -> float := SFmul prec emax.
Definition div : float -> float -> float := SFdiv prec emax.
(** The float nearest to an integer, ties to even. It is an infinity
    from [2^1024 - 2^970] on in absolute value, where Python's conversion
    raises OverflowError instead: [of_Z] is that conversion on the
    integers of [int_converts]. *)
Definition of_Z (k : Z) : float := binary_normalize prec emax k 0 false.

Definition zero : float := S754_zero false.
Definition one : float := Eval vm_compute in of_Z 1.
Definition two : float := Eval vm_compute in of_Z 2.

Definition is_finite (x : float) : bool :=
  match x with S754_zero _ | S754_finite _ _ _ => true | _ => false end.

Definition is_zero (x : float) : bool :=
  match x with S754_zero _ => true | _ => false end.

(** Python's [a / b] on floats raises ZeroDivisionError on a zero divisor. *)
Definition pydiv (a b : float) : option float :=
  if is_zero b then None else Some (div a b).

(** The integer nearest to [m * 2^e], ties to the even one ([np.round]). *)
Definition round_half_even (m : positive) (e : Z) : Z :=
  match e with
  | Z0 => Z.pos m
  | Z.pos _ => Z.pos m * 2 ^ e
  | Z.neg _ =>
      let d := (2 ^ (- e))%Z in
      let q := (Z.pos m / d)%Z in
      let r := (Z.pos m mod d)%Z in
      if (2 * r <? d)%Z then q
      else if (d <? 2 * r)%Z then (q + 1)%Z
      else if Z.even q then q else (q + 1)%Z
  end.

(** [int(np.round(x))]: ValueError on NaN, OverflowError on an infinity. *)
Definition round_int (x : float) : option Z :=
  match x with
  | S754_zero _ => Some 0%Z
  | S754_finite s m e => Some (cond_Zopp s (round_half_even m e))
  | _ => None
  end.

Definition ops (fexp : float -> float) (fsqr : float -> option float)
  : Float64 float := {|
  f_zero := zero; f_two := two;
  f_add := add; f_sub := sub; f_mul := mul; f_div := div;
  f_exp := fexp; f_sqr := fsqr; f_of_int := of_Z;
  f_pydiv := pydiv; f_round_int := round_int
|}.

(** The floats of the format: a finite one has a canonical mantissa and
    exponent. Every binary64 value is one of them. *)
Definition valid (x : float) : bool := valid_binary prec emax x.

(** [x < y] on floats; false as soon as one of them is a NaN. *)
Definition lt (x y : float) : bool := SFltb x y.

(** A float with the sign [s] that is neither a zero nor a NaN. *)
Definition signed (s : bool) (r : float) : Prop :=
  match r with
  | S754_finite s' _ _ | S754_infinity s' => s' = s
  | _ => False
  end.

(** Two floats are the same value when they are equal, as two NaNs are,
    or when both are a zero, of whatever sign. *)
Definition same_value (x y : float) : Prop :=
  x = y ∨ (is_zero x = true ∧ is_zero y = true).

(** No entry of the array is an infinity or a NaN. *)
Definition all_finite (U : list (list float)) : bool :=
  forallb (forallb is_finite) U.

(** *** Reference operations for closed examples *)

(** [np.exp] on the arguments where IEEE 754 fixes its value exactly, and
    on [1.0], where it is the double nearest to e. The closed examples
    apply [np.exp] to these arguments only, and an argument outside the
    table yields NaN. *)
Definition exp_ref (x : float) : float :=
  match x with
  | S754_zero _ => one
  | S754_infinity false => S754_infinity false
  | S754_infinity true => zero
  | S754_nan => S754_nan
  | S754_finite false 4503599627370496 (-52) =>
      S754_finite false 6121026514868073 (-51)
  | S754_finite _ _ _ => S754_nan
  end.

(** Python's [x**2] on a float: the rounded square, and OverflowError when
    a finite [x] has an infinite one. *)
Definition sqr_ref (x : float) : option float :=
  let y := mul x x in
  if is_finite x && negb (is_finite y) then None else Some y.

Definition ref_ops : Float64 float := ops exp_ref sqr_ref.

(** The closed examples of the driver stay on states whose end-point
    values are all [0.0]; the interpolant through such values is taken to
    be the zero function, with derivative [0.0] everywhere. *)
Definition zero_data : Interpolant float :=
  {| rbf_derivative := λ _ _ _, zero |}.
End B64.

(** ** Arrays as objects of a store *)

(** The value layer identifies an array with its entries. Here an array is
    an object of a store, so that a copy differs from a view and an
    assignment in place from the creation of an array. An object is created
    for [np.stack], for every [.copy()], and for every array that a function
    assigns to in place or returns; an array that stays local to one
    expression is part of the computation of the value. *)
Section Store.
Context {F : Type} `{Float64 F} `{Interpolant F}.

Abbreviation vec := (list F).
Abbreviation mat := (list (list F)).

(** An array object, by its buffer. *)
Inductive ndarray :=
| Vec (v : vec)
| Mat (U : mat).

(** The store: the objects in the order of their creation. A location is
    a position in it, and a new object takes the first free position. *)
Abbreviation store := (list ndarray).
Abbreviation loc := nat.

(** A one-dimensional array value: an object of its own, or the view
    [U[k]] of a row of a two-dimensional object. *)
Inductive aref :=
| Whole (l : loc)
| Row (l : loc) (k : nat).

(** Computations on the store that may raise. *)
Definition M (A : Type) : Type := store → option (A * store).

#[export] Instance M_ret : MRet M := λ A a h, Some (a, h).
#[export] Instance M_bind : MBind M := λ A B f m h,
  match m h with Some (a, h') => f a h' | None => None end.

Definition lift {A} (o : option A) : M A := λ h, a ← o; Some (a, h).

Definition alloc (o : ndarray) : M loc := λ h, Some (length h, h ++ [o]).

Definition load_mat (l : loc) : M mat := λ h,
  match h !! l with Some (Mat U) => Some (U, h) | _ => None end.

Definition load_vec (l : loc) : M vec := λ h,
  match h !! l with Some (Vec v) => Some (v, h) | _ => None end.

(** A block of assignments in place to the object at [l]. *)
Definition update_mat (l : loc) (f : mat → option mat) : M unit := λ h,
  match h !! l with
  | Some (Mat U) => U' ← f U; Some ((), <[l := Mat U']> h)
  | _ => None
  end.

(** The entries of a one-dimensional array value. *)
Definition read (a : aref) : M vec :=
  match a with
  | Whole l => load_vec l
  | Row l k => U ← load_mat l; lift (U !! k)
  end.

(** [a.copy()] on a one-dimensional array value. *)
Definition copy (a : aref) : M aref :=
  v ← read a; l ← alloc (Vec v); mret (Whole l).

(** [U.copy()] on a two-dimensional object. *)
Definition copy_mat (U : loc) : M loc :=
  Uv ← load_mat U; alloc (Mat Uv).

(** Lines 50-55 and 77-82: the four assignments write to the object [U]
    and read the two slope arrays. *)
Definition impose_bcs_st (U : loc) (dx : F) (left_slope right_slope : loc) : M unit :=
  ls ← load_vec left_slope;
  rs ← load_vec right_slope;
  update_mat U (λ V, impose_bcs V dx ls rs).

(** [euler_step]: line 47 creates [U_new], the assignments go to it. *)
Definition euler_step_st (U : loc) (dx dt : F) (left_slope right_slope : loc)
    (p : params F) : M loc :=
  Uv ← load_mat U;
  V ← lift (euler_update Uv dx dt p);
  U_new ← alloc (Mat V);
  _ ← impose_bcs_st U_new dx left_slope right_slope;
  mret U_new.

Fixpoint repeat_step_st (n : nat) (step : loc → M loc) (U : loc) : M loc :=
  match n with
  | O => mret U
  | S n' => U' ← step U; repeat_step_st n' step U'
  end.

(** [projective_microcycle]: the name [U] is bound to a new object by
    every step and by the extrapolation of line 74. *)
Definition projective_microcycle_st (U : loc) (dx dt Dt : F) (K : Z)
    (left_slope right_slope : loc) (p : params F) : M loc :=
  U ← repeat_step_st (Z.to_nat (K - 1))
        (λ U, euler_step_st U dx dt left_slope right_slope p) U;
  U_prev ← copy_mat U;
  U ← euler_step_st U dx dt left_slope right_slope p;
  Uv ← load_mat U;
  Up ← load_mat U_prev;
  U ← alloc (Mat (extrapolate Up Uv dt Dt K));
  _ ← impose_bcs_st U dx left_slope right_slope;
  mret U.

(** [spline_slopes]: [np.fromiter] creates the two arrays returned. *)
Definition spline_slopes_st (U : loc) (x_array : list vec) : M (loc * loc) :=
  Uv ← load_mat U;
  '(l, r) ← lift (spline_slopes Uv x_array);
  left ← alloc (Vec l);
  right ← alloc (Vec r);
  mret (left, right).

Section Loops.
Variables (dx dt Dt : F) (K : Z) (p : params F) (x_array : list vec).

Fixpoint pi_cycles_st (n : nat) (U left_slope right_slope : loc) : M loc :=
  match n with
  | O => mret U
  | S n' =>
      U' ← projective_microcycle_st U dx dt Dt K left_slope right_slope p;
      pi_cycles_st n' U' left_slope right_slope
  end.

Fixpoint patch_steps_st (n n_PI_steps : nat) (U : loc) : M loc :=
  match n with
  | O => mret U
  | S n' =>
      '(left_slope, right_slope) ← spline_slopes_st U x_array;
      U' ← pi_cycles_st n_PI_steps U left_slope right_slope;
      patch_steps_st n' n_PI_steps U'
  end.
End Loops.

(** [gaptooth_PI_vectorised] up to its [return]: the final state and
    [n_teeth]. The arrays of [u0_patch] are read by [np.stack]. *)
Definition gaptooth_body_st (u0_patch : list aref) (x_array : list vec)
    (dx dt Dt : F) (K : Z) (T_patch T : F) (p : params F) : M (loc * nat) :=
  rows ← mapM read u0_patch;
  U0 ← lift (np_stack rows);
  U ← alloc (Mat U0);
  let n_teeth := length U0 in
  q ← lift (f_pydiv T T_patch);
  n_patch_steps ← lift (f_round_int q);
  q ← lift (f_pydiv T_patch Dt);
  n_PI_steps ← lift (f_round_int q);
  U ← patch_steps_st dx dt Dt K p x_array
        (Z.to_nat n_patch_steps) (Z.to_nat n_PI_steps) U;
  mret (U, n_teeth).

(** [gaptooth_PI_vectorised], with
    [return [U[k].copy() for k in range(n_teeth)]]. *)
Definition gaptooth_PI_vectorised_st (u0_patch : list aref) (x_array : list vec)
    (dx dt Dt : F) (K : Z) (T_patch T : F) (p : params F) : M (list aref) :=
  '(U, n_teeth) ← gaptooth_body_st u0_patch x_array dx dt Dt K T_patch T p;
  mapM (λ k, copy (Row U k)) (seq 0 n_teeth).
End Store.

Arguments ndarray F : clear implicits.
Arguments M F A : clear implicits.

Abbreviation store F := (list (ndarray F)).
Abbreviation loc := nat.

(** ** Properties of states and of runs *)

(** The predicates in which the statements about the stepper and the driver
    are written. *)
Section Properties.
Context {F : Type} `{Float64 F} `{Interpolant F}.
Implicit Types (U V R : list (list F)) (ls rs : list F).

(** The shapes on which the boundary conditions can be imposed. *)
Definition steppable (n m : nat) : Prop := 0 < n ∧ 0 < m ∧ (1 < n → 1 < m).

(** The entries after the two corner assignments (lines 51-52). *)
Definition corners U (n m k c : nat) : option F :=
  if decide (k = n - 1 ∧ c = m - 1) then Some f_zero
  else if decide (k = 0 ∧ c = 0) then Some f_zero
  else get U k c.

(** The entries after the assignment to the left edges (line 54). *)
Definition left_edges U (n m : nat) (dx : F) ls (k c : nat) : option F :=
  if decide (1 ≤ k ∧ c = 0) then
    x ← corners U n m k 1; s ← ls !! k; Some (f_sub x (f_mul s dx))
  else corners U n m k c.

(** The entries after the assignment to the right edges (line 55). *)
Definition right_edges U (n m : nat) (dx : F) ls rs (k c : nat) : option F :=
  if decide (k < n - 1 ∧ c = m - 1) then
    x ← left_edges U n m dx ls k (m - 2); s ← rs !! k; Some (f_add x (f_mul s dx))
  else left_edges U n m dx ls k c.

(** Two arrays agree away from the first and the last column. *)
Definition agree_inside (n m : nat) U V : Prop :=
  ∀ k j, k < n → 0 < j < m - 1 → get U k j = get V k j.

(** [n] consecutive micro steps lead from the first array to the second. *)
Inductive micro_steps (dx dt : F) ls rs (p : params F)
  : nat → list (list F) → list (list F) → Prop :=
| micro_steps_O U : micro_steps dx dt ls rs p 0 U U
| micro_steps_S i U U' U'' :
    euler_step U dx dt ls rs p = Some U' →
    micro_steps dx dt ls rs p i U' U'' →
    micro_steps dx dt ls rs p (S i) U U''.

(** The entries of the result at the outer corners. *)
Definition outer_edges_zero (n m : nat) R : Prop :=
  get R 0 0 = Some f_zero ∧ get R (n - 1) (m - 1) = Some f_zero.

(** The Neumann relations at the two edges of patch [k]. *)
Definition inner_edges_tied (m : nat) (dx : F) ls rs (k : nat) R : Prop :=
  ∃ a b sl sr,
    get R k 1 = Some a ∧ get R k (m - 2) = Some b ∧
    ls !! k = Some sl ∧ rs !! k = Some sr ∧
    get R k 0 = Some (f_sub a (f_mul sl dx)) ∧
    get R k (m - 1) = Some (f_add b (f_mul sr dx)).

Section Loops.
Variables (dx dt Dt : F) (K : Z) (p : params F) (x : list (list F)).

(** The calls of one run of the inner loop: each cycle starts from the
    state the previous one returned, with the slopes [ls], [rs]. *)
Inductive cycles_from ls rs : list (list F) → list call → list (list F) → Prop :=
| cycles_nil U : cycles_from ls rs U [] U
| cycles_cons U V cyc U' :
    projective_microcycle U dx dt Dt K ls rs p = Some V →
    cycles_from ls rs V cyc U' →
    cycles_from ls rs U (CallCycle U ls rs :: cyc) U'.

(** The calls of one outer iteration from the state [U]: the slopes of
    [U], then [n_PI] cycles with these slopes. *)
Definition patch_block (n_PI : nat) U (blk : list call) U' : Prop :=
  ∃ ls rs cyc,
    spline_slopes U x = Some (ls, rs) ∧ blk = CallSlopes U :: cyc ∧
    length cyc = n_PI ∧ cycles_from ls rs U cyc U'.

(** The calls of consecutive outer iterations. *)
Inductive blocks_from (n_PI : nat)
  : list (list F) → list (list call) → list (list F) → Prop :=
| blocks_nil U : blocks_from n_PI U [] U
| blocks_cons U blk V blks U' :
    patch_block n_PI U blk V →
    blocks_from n_PI V blks U' →
    blocks_from n_PI U (blk :: blks) U'.

End Loops.
End Properties.

(** ** Inputs of the closed examples *)

Module Inputs.
Import B64.
#[local] Existing Instance ref_ops.
#[local] Existing Instance zero_data.

(** The parameter set with [lambda = 0.0]. *)
Definition lam0 : params float := Params zero.

(** States that are zero everywhere, of several shapes. *)
Definition U13 : list (list float) := [[zero; zero; zero]].
Definition U23 : list (list float) := [[zero; zero; zero]; [zero; zero; zero]].
Definition U33 : list (list float) :=
  [[zero; zero; zero]; [zero; zero; zero]; [zero; zero; zero]].
Definition U32 : list (list float) := [[zero; zero]; [zero; zero]; [zero; zero]].

(** Three patches of two points, the middle one with a left value of 1.0. *)
Definition U32_bump : list (list float) := [[zero; zero]; [one; zero]; [zero; zero]].

Definition slopes2 : list float := [zero; zero].
Definition slopes3 : list float := [zero; zero; zero].
Definition slopes3_mid : list float := [zero; one; zero].

(** The grids of two patches of three points. *)
Definition grid2 : list (list float) :=
  [[zero; one; two]; [of_Z 4; of_Z 5; of_Z 6]].

Definition minus_one : float := Eval vm_compute in of_Z (-1).

(** One micro step from [U32] with slope 1.0 at the left edge of the
    middle patch. *)
Definition R32 : list (list float) :=
  [[zero; zero]; [minus_one; minus_one]; [zero; zero]].

(** The rows and the calls of a run over [T = 4.0] with [T_patch = 2.0]
    and [Dt = 1.0]. *)
Definition log22 : list call :=
  [CallSlopes U23; CallCycle U23 slopes2 slopes2; CallCycle U23 slopes2 slopes2;
   CallSlopes U23; CallCycle U23 slopes2 slopes2; CallCycle U23 slopes2 slopes2].

(** A store with the two arrays of the caller, and the store and the
    result of a run on them over [T = 2.0]. *)
Definition store0 : store float := [Vec [zero; zero; zero]; Vec [zero; zero; zero]].
Definition store1 : store float :=
  store0 ++ [Mat U23; Vec slopes2; Vec slopes2] ++ replicate 8 (Mat U23)
         ++ [Vec [zero; zero; zero]; Vec [zero; zero; zero]].

(** Two patches of three points, the second with a left value of 1.0,
    and one micro step from it with slope 1.0 at its left edge. *)
Definition U23_bump : list (list float) := [[zero; zero; zero]; [one; zero; zero]].
Definition R23_bump : list (list float) := [[zero; zero; zero]; [zero; one; zero]].
Definition slopes2_last : list float := [zero; one].

(** A state with the end-point values of [U23] and other values inside,
    and the end points of [grid2] alone. *)
Definition U23_inside : list (list float) := [[zero; one; zero]; [zero; two; zero]].
Definition grid2_ends : list (list float) := [[zero; two]; [of_Z 4; of_Z 6]].

(** The boundary conditions on [U23_inside], with slope 1.0 at the inner
    edges of the second patch. *)
Definition R23_inside : list (list float) := [[zero; one; one]; [one; two; zero]].

(** A flat vector on two patches of three points. *)
Definition u6 : list float := [zero; one; two; of_Z 3; of_Z 4; of_Z 5].
Definition zeros6 : list float := [zero; zero; zero; zero; zero; zero].

(** A store with a state and two slope arrays. *)
Definition store2 : store float := [Mat U23; Vec slopes2; Vec slopes2].
End Inputs.

(** * Facts about arrays *)

Section ArrayFacts.
Context {A : Type}.
Implicit Types (U V : list (list A)) (r : list A).

Lemma norm_index_Some n i c : norm_index n i = Some c → c < n.
Proof. unfold norm_index. repeat case_decide; intros; simplify_eq; lia. Qed.

Lemma norm_index_nat n (i : nat) : i < n → norm_index n (Z.of_nat i) = Some i.
Proof.
  intros. unfold norm_index. rewrite decide_True by lia. by rewrite Nat2Z.id.
Qed.

Lemma norm_index_back n (i : nat) :
  0 < i ≤ n → norm_index n (- Z.of_nat i) = Some (n - i).
Proof.
  intros. unfold norm_index. rewrite decide_False by lia.
  rewrite decide_True by lia. f_equal. lia.
Qed.

Lemma norm_index_0 n : 0 < n → norm_index n 0 = Some 0.
Proof. intros. by apply (norm_index_nat n 0). Qed.

Lemma norm_index_1 n : 1 < n → norm_index n 1 = Some 1.
Proof. intros. by apply (norm_index_nat n 1). Qed.

Lemma norm_index_last n : 0 < n → norm_index n (-1) = Some (n - 1).
Proof. intros. apply (norm_index_back n 1). lia. Qed.

Lemma norm_index_before_last n : 1 < n → norm_index n (-2) = Some (n - 2).
Proof. intros. apply (norm_index_back n 2). lia. Qed.

Lemma norm_index_0_inv n c : norm_index n 0 = Some c → c = 0 ∧ 0 < n.
Proof. unfold norm_index. repeat case_decide; intros; simplify_eq; lia. Qed.

Lemma norm_index_1_inv n c : norm_index n 1 = Some c → c = 1 ∧ 1 < n.
Proof. unfold norm_index. repeat case_decide; intros; simplify_eq; lia. Qed.

Lemma norm_index_last_inv n c : norm_index n (-1) = Some c → c = n - 1 ∧ 0 < n.
Proof. unfold norm_index. repeat case_decide; intros; simplify_eq; lia. Qed.

Lemma norm_index_before_last_inv n c :
  norm_index n (-2) = Some c → c = n - 2 ∧ 1 < n.
Proof. unfold norm_index. repeat case_decide; intros; simplify_eq; lia. Qed.

Lemma has_shape_length n m U : has_shape n m U → length U = n.
Proof. by intros [? _]. Qed.

Lemma has_shape_row n m U k r : has_shape n m U → U !! k = Some r → length r = m.
Proof. intros [_ Hall] Hk. by apply (Forall_lookup_1 _ _ _ _ Hall Hk). Qed.

Lemma has_shape_n_micro n m U : has_shape n m U → 0 < n → n_micro_of U = m.
Proof.
  intros HU Hn. destruct U as [|r U']; [destruct HU; simpl in *; lia|].
  simpl. by apply (has_shape_row n m (r :: U') 0 r).
Qed.

Lemma has_shapeb_true n m U : has_shapeb n m U = true → has_shape n m U.
Proof.
  unfold has_shapeb, has_shape. rewrite andb_true_iff, bool_decide_eq_true.
  intros [-> Hall]. split; [done|]. apply Forall_forall. intros r Hr.
  rewrite forallb_forall in Hall. apply list_elem_of_In in Hr.
  specialize (Hall r Hr). by apply bool_decide_eq_true in Hall.
Qed.

Lemma get_Some n m U k j x : has_shape n m U → get U k j = Some x → k < n ∧ j < m.
Proof.
  intros HU. unfold get. destruct (U !! k) as [r|] eqn:Hk; simpl; [|done].
  intros Hj. split.
  - rewrite <- (has_shape_length _ _ _ HU). by eapply lookup_lt_Some.
  - rewrite <- (has_shape_row _ _ _ _ _ HU Hk). by eapply lookup_lt_Some.
Qed.

Lemma get_is_Some n m U k j : has_shape n m U → k < n → j < m → is_Some (get U k j).
Proof.
  intros HU Hk Hj. unfold get.
  destruct (lookup_lt_is_Some_2 U k) as [r Hr]; [by rewrite (has_shape_length _ _ _ HU)|].
  rewrite Hr. simpl. apply lookup_lt_is_Some_2.
  by rewrite (has_shape_row _ _ _ _ _ HU Hr).
Qed.

(** Two arrays of one shape with the same entries are equal. *)
Lemma mat_ext n m U V :
  has_shape n m U → has_shape n m V →
  (∀ k j, k < n → j < m → get U k j = get V k j) → U = V.
Proof.
  intros HU HV Hget. apply list_eq. intros k.
  destruct (decide (k < n)) as [Hk|Hk].
  - destruct (lookup_lt_is_Some_2 U k) as [r Hr]; [by rewrite (has_shape_length _ _ _ HU)|].
    destruct (lookup_lt_is_Some_2 V k) as [r' Hr']; [by rewrite (has_shape_length _ _ _ HV)|].
    rewrite Hr, Hr'. f_equal. apply list_eq. intros j.
    destruct (decide (j < m)) as [Hj|Hj].
    + specialize (Hget k j Hk Hj). unfold get in Hget. by rewrite Hr, Hr' in Hget.
    + rewrite !lookup_ge_None_2; [done| |].
      * rewrite (has_shape_row _ _ _ _ _ HV Hr'). lia.
      * rewrite (has_shape_row _ _ _ _ _ HU Hr). lia.
  - rewrite !lookup_ge_None_2; [done| |].
    + rewrite (has_shape_length _ _ _ HV). lia.
    + rewrite (has_shape_length _ _ _ HU). lia.
Qed.

Lemma has_shape_mmap n m (f : A → A) U : has_shape n m U → has_shape n m (mmap f U).
Proof.
  intros [Hn Hall]. split; unfold mmap; [by rewrite length_fmap|].
  apply Forall_fmap. eapply Forall_impl; [done|]. simpl. intros r Hr.
  by rewrite length_fmap.
Qed.

Lemma get_mmap (f : A → A) U k j : get (mmap f U) k j = f <$> get U k j.
Proof.
  unfold get, mmap. rewrite list_lookup_fmap.
  destruct (U !! k) as [r|]; simpl; [|done]. by rewrite list_lookup_fmap.
Qed.

Lemma has_shape_mzip n m (f : A → A → A) U V :
  has_shape n m U → has_shape n m V → has_shape n m (mzip f U V).
Proof.
  intros HU HV. split; unfold mzip.
  - rewrite length_zip_with. destruct HU, HV. lia.
  - apply Forall_lookup. intros k r. rewrite lookup_zip_with.
    destruct (U !! k) as [a|] eqn:Ha; simpl; [|done].
    destruct (V !! k) as [b|] eqn:Hb; simpl; [|done].
    intros [= <-]. rewrite length_zip_with.
    rewrite (has_shape_row _ _ _ _ _ HU Ha), (has_shape_row _ _ _ _ _ HV Hb). lia.
Qed.

Lemma get_mzip (f : A → A → A) U V k j :
  get (mzip f U V) k j = x ← get U k j; y ← get V k j; Some (f x y).
Proof.
  unfold get, mzip. rewrite lookup_zip_with.
  destruct (U !! k) as [a|]; simpl; [|done].
  destruct (V !! k) as [b|]; simpl.
  - by rewrite lookup_zip_with.
  - by destruct (a !! j).
Qed.

Lemma has_shape_roll n m s U : has_shape n m U → has_shape n m (np_roll s <$> U).
Proof.
  intros [Hn Hall]. split; [by rewrite length_fmap|].
  apply Forall_fmap. eapply Forall_impl; [done|]. simpl. intros r Hr.
  unfold np_roll. by rewrite length_rotate.
Qed.

(** Entry [j] of [np.roll(row, s)] is entry [(j - s) mod m] of [row]. *)
Lemma get_roll n m s U k j :
  has_shape n m U → j < m →
  get (np_roll s <$> U) k j = get U k (Z.to_nat ((Z.of_nat j - s) `mod` Z.of_nat m)).
Proof.
  intros HU Hj. unfold get. rewrite list_lookup_fmap.
  destruct (U !! k) as [r|] eqn:Hr; simpl; [|done].
  pose proof (has_shape_row _ _ _ _ _ HU Hr) as Hlen.
  unfold np_roll. rewrite lookup_rotate_r by lia. f_equal.
  unfold rotate_nat_add. rewrite Hlen. f_equal.
  rewrite Z2Nat.id by (apply Z.mod_pos_bound; lia).
  rewrite Zplus_mod_idemp_l. f_equal. lia.
Qed.
End ArrayFacts.

Section ArrayFacts2.
Context {A : Type}.
Implicit Types (U V : list (list A)) (r : list A).

Lemma has_shape_insert n m U k r :
  has_shape n m U → length r = m → has_shape n m (<[k:=r]> U).
Proof.
  intros [Hn Hall] Hr. split; [by rewrite length_insert|].
  by apply Forall_insert.
Qed.

Lemma get_insert_row n m U k0 c0 r v k c :
  has_shape n m U → U !! k0 = Some r → c0 < m →
  get (<[k0 := <[c0 := v]> r]> U) k c =
    if decide (k = k0 ∧ c = c0) then Some v else get U k c.
Proof.
  intros HU Hr Hc. unfold get.
  pose proof (lookup_lt_Some _ _ _ Hr) as Hk0.
  pose proof (has_shape_row _ _ _ _ _ HU Hr) as Hlen.
  destruct (decide (k = k0)) as [->|Hne].
  - rewrite list_lookup_insert_eq by done. simpl. rewrite Hr. simpl.
    destruct (decide (c = c0)) as [->|Hc'].
    + rewrite decide_True by done. apply list_lookup_insert_eq. lia.
    + rewrite decide_False by tauto. by apply list_lookup_insert_ne.
  - rewrite list_lookup_insert_ne by done. by rewrite decide_False by tauto.
Qed.

Lemma set_item_spec n m U i j v U' :
  has_shape n m U → set_item U i j v = Some U' →
  ∃ k0 c0, norm_index n i = Some k0 ∧ norm_index m j = Some c0 ∧
    has_shape n m U' ∧
    ∀ k c, get U' k c = if decide (k = k0 ∧ c = c0) then Some v else get U k c.
Proof.
  intros HU. unfold set_item. rewrite (has_shape_length _ _ _ HU).
  intros Hs. apply bind_Some in Hs as (k0 & Hk0 & Hs).
  apply bind_Some in Hs as (c0 & Hc0 & Hs).
  apply bind_Some in Hs as (r & Hr & Hs). simplify_eq.
  pose proof (norm_index_Some _ _ _ Hk0) as Hlt.
  rewrite (has_shape_n_micro n m U HU) in Hc0 by lia.
  pose proof (norm_index_Some _ _ _ Hc0) as Hltc.
  exists k0, c0. split_and!; [done|done| |].
  - apply has_shape_insert; [done|]. rewrite length_insert.
    by eapply has_shape_row.
  - intros k c. by eapply get_insert_row.
Qed.

Lemma set_item_is_Some n m U i j v :
  has_shape n m U → is_Some (norm_index n i) → is_Some (norm_index m j) →
  is_Some (set_item U i j v).
Proof.
  intros HU [k0 Hk0] [c0 Hc0]. unfold set_item.
  rewrite (has_shape_length _ _ _ HU), Hk0. simpl.
  pose proof (norm_index_Some _ _ _ Hk0) as Hlt.
  rewrite (has_shape_n_micro n m U HU) by lia. rewrite Hc0. simpl.
  destruct (lookup_lt_is_Some_2 U k0) as [r Hr];
    [by rewrite (has_shape_length _ _ _ HU)|].
  rewrite Hr. simpl. done.
Qed.

Lemma get_col_spec n m U lo hi j vals :
  has_shape n m U → get_col U lo hi j = Some vals →
  ∃ c, norm_index m j = Some c ∧ 0 < n ∧
    length vals = (hi - lo) `min` (n - lo) ∧
    ∀ i, i < length vals → vals !! i = get U (lo + i) c.
Proof.
  intros HU. unfold get_col. intros Hg.
  apply bind_Some in Hg as (c & Hc & Hg).
  assert (0 < n) as Hn.
  { destruct U; [pose proof (norm_index_Some _ _ _ Hc); simpl in *; lia|].
    destruct HU as [<- _]. simpl. lia. }
  rewrite (has_shape_n_micro n m U HU) in Hc by lia.
  apply mapM_Some in Hg. exists c. split_and!; [done|done| |].
  - rewrite <- (Forall2_length _ _ _ Hg), length_take, length_drop.
    by rewrite (has_shape_length _ _ _ HU).
  - intros i Hi.
    destruct (lookup_lt_is_Some_2 vals i Hi) as [x Hx].
    destruct (Forall2_lookup_r _ _ _ _ _ Hg Hx) as (r & Hr & Hrx).
    rewrite Hx. rewrite lookup_take in Hr. case_decide; [|done].
    rewrite lookup_drop in Hr. unfold get. by rewrite Hr.
Qed.

Lemma get_col_is_Some n m U lo hi j :
  has_shape n m U → 0 < n → is_Some (norm_index m j) → is_Some (get_col U lo hi j).
Proof.
  intros HU Hn [c Hc]. unfold get_col.
  rewrite (has_shape_n_micro n m U HU) by lia. rewrite Hc. simpl.
  apply mapM_is_Some. apply Forall_forall. intros r Hr.
  apply lookup_lt_is_Some_2.
  apply list_elem_of_lookup in Hr as [i Hi].
  rewrite lookup_take in Hi. case_decide; [|done]. rewrite lookup_drop in Hi.
  rewrite (has_shape_row _ _ _ _ _ HU Hi). by eapply norm_index_Some.
Qed.

Lemma set_col_spec n m U lo hi j vals U' :
  has_shape n m U → 0 < n → set_col U lo hi j vals = Some U' →
  ∃ c, norm_index m j = Some c ∧ has_shape n m U' ∧
    ∀ k c', k < n → get U' k c' =
      if decide (lo ≤ k < hi ∧ c' = c) then
        match vals !! (k - lo) with Some v => Some v | None => get U k c' end
      else get U k c'.
Proof.
  intros HU Hn. unfold set_col. intros Hs.
  apply bind_Some in Hs as (c & Hc & Hs). simplify_eq.
  rewrite (has_shape_n_micro n m U HU) in Hc by lia.
  pose proof (norm_index_Some _ _ _ Hc) as Hltc.
  exists c. split_and!; [done| |].
  - split; [rewrite length_imap; by destruct HU|].
    apply Forall_lookup. intros k r. rewrite list_lookup_imap.
    destruct (U !! k) as [r0|] eqn:Hr0; simpl; [|done]. intros [= <-].
    pose proof (has_shape_row _ _ _ _ _ HU Hr0).
    case_decide; [|done]. destruct (vals !! (k - lo)); [|done].
    by rewrite length_insert.
  - intros k c' Hk. unfold get at 1. rewrite list_lookup_imap.
    destruct (lookup_lt_is_Some_2 U k) as [r Hr];
      [by rewrite (has_shape_length _ _ _ HU)|].
    pose proof (has_shape_row _ _ _ _ _ HU Hr) as Hlen.
    rewrite Hr. simpl. unfold get. rewrite Hr. simpl.
    destruct (decide (lo ≤ k < hi)) as [Hin|Hout].
    + destruct (vals !! (k - lo)) as [v|].
      * destruct (decide (c' = c)) as [->|Hne].
        -- rewrite decide_True by done. apply list_lookup_insert_eq. lia.
        -- rewrite decide_False by tauto. by apply list_lookup_insert_ne.
      * by case_decide.
    + by rewrite decide_False by tauto.
Qed.

Lemma set_col_is_Some n m U lo hi j vals :
  has_shape n m U → 0 < n → is_Some (norm_index m j) →
  is_Some (set_col U lo hi j vals).
Proof.
  intros HU Hn [c Hc]. unfold set_col.
  rewrite (has_shape_n_micro n m U HU) by lia. rewrite Hc. simpl. done.
Qed.

Lemma broadcast2_same (f : A → A → A) a b :
  length a = length b → broadcast2 f a b = Some (zip_with f a b).
Proof. intros. unfold broadcast2. by rewrite decide_True. Qed.

Lemma broadcast_to_same n (v : list A) : length v = n → broadcast_to n v = Some v.
Proof. intros. unfold broadcast_to. by rewrite decide_True. Qed.

Lemma broadcast_to_length n (v v' : list A) :
  broadcast_to n v = Some v' → length v' = n.
Proof.
  unfold broadcast_to. case_decide; [by intros [= <-]|].
  destruct v as [|x [|]]; intros; simplify_eq. by rewrite length_replicate.
Qed.
End ArrayFacts2.

(** * The boundary conditions *)

Section BoundaryFacts.
Context {F : Type} `{Float64 F}.
Implicit Types (U V R : list (list F)) (ls rs : list F).

Lemma corners_spec n m U U1 U2 :
  has_shape n m U →
  set_item U 0 0 f_zero = Some U1 → set_item U1 (-1) (-1) f_zero = Some U2 →
  has_shape n m U2 ∧ 0 < n ∧ 0 < m ∧ ∀ k c, get U2 k c = corners U n m k c.
Proof.
  intros HU H1 H2.
  destruct (set_item_spec _ _ _ _ _ _ _ HU H1) as (k1 & c1 & Hk1 & Hc1 & HU1 & Hg1).
  destruct (set_item_spec _ _ _ _ _ _ _ HU1 H2) as (k2 & c2 & Hk2 & Hc2 & HU2 & Hg2).
  apply norm_index_0_inv in Hk1 as [-> ?], Hc1 as [-> ?].
  apply norm_index_last_inv in Hk2 as [-> ?], Hc2 as [-> ?].
  split_and!; [done..|]. intros k c. rewrite Hg2, Hg1. done.
Qed.

(** The result of [impose_bcs] has the shape of its argument and zero
    outer corners, whatever the slope arrays are. *)
Lemma impose_bcs_corners n m U dx ls rs R :
  has_shape n m U → impose_bcs U dx ls rs = Some R →
  has_shape n m R ∧ 0 < n ∧ 0 < m ∧ (1 < n → 1 < m) ∧
  get R 0 0 = Some f_zero ∧ get R (n - 1) (m - 1) = Some f_zero.
Proof.
  intros HU. unfold impose_bcs. rewrite (has_shape_length _ _ _ HU). intros Hb.
  apply bind_Some in Hb as (U1 & H1 & Hb).
  apply bind_Some in Hb as (U2 & H2 & Hb).
  destruct (corners_spec _ _ _ _ _ HU H1 H2) as (HU2 & Hn & Hm & Hg2).
  case_decide as Hn1.
  - apply bind_Some in Hb as (in1 & Hin1 & Hb).
    apply bind_Some in Hb as (v1 & Hv1 & Hb).
    apply bind_Some in Hb as (v1' & Hv1' & Hb).
    apply bind_Some in Hb as (U3 & H3 & Hb).
    apply bind_Some in Hb as (in2 & Hin2 & Hb).
    apply bind_Some in Hb as (v2 & Hv2 & Hb).
    apply bind_Some in Hb as (v2' & Hv2' & Hb).
    destruct (get_col_spec _ _ _ _ _ _ _ HU2 Hin1) as (c & Hc & _).
    apply norm_index_1_inv in Hc as [-> Hm1].
    destruct (set_col_spec _ _ _ _ _ _ _ _ HU2 Hn H3) as (c3 & Hc3 & HU3 & Hg3).
    apply norm_index_0_inv in Hc3 as [-> _].
    destruct (set_col_spec _ _ _ _ _ _ _ _ HU3 Hn Hb) as (c4 & Hc4 & HR & Hg4).
    apply norm_index_last_inv in Hc4 as [-> _].
    split_and!; [done..| |].
    + rewrite Hg4, Hg3, Hg2 by lia. rewrite !decide_False by lia.
      unfold corners. rewrite decide_False by lia. by rewrite decide_True.
    + rewrite Hg4, Hg3, Hg2 by lia. rewrite !decide_False by lia.
      unfold corners. by rewrite decide_True.
  - simplify_eq. split_and!; [done..|lia| |].
    + rewrite Hg2. unfold corners. case_decide; [done|]. by rewrite decide_True.
    + rewrite Hg2. unfold corners. by rewrite decide_True.
Qed.

(** With one slope per patch, the entries of the result in closed form. *)
Lemma impose_bcs_entries n m U dx ls rs R :
  has_shape n m U → length ls = n → length rs = n →
  impose_bcs U dx ls rs = Some R →
  ∀ k c, k < n → c < m →
    get R k c = if decide (1 < n) then right_edges U n m dx ls rs k c
                else corners U n m k c.
Proof.
  intros HU Hls Hrs. unfold impose_bcs. rewrite (has_shape_length _ _ _ HU). intros Hb.
  apply bind_Some in Hb as (U1 & H1 & Hb).
  apply bind_Some in Hb as (U2 & H2 & Hb).
  destruct (corners_spec _ _ _ _ _ HU H1 H2) as (HU2 & Hn & Hm & Hg2).
  case_decide as Hn1; [|injection Hb as <-; intros; apply Hg2].
  apply bind_Some in Hb as (in1 & Hin1 & Hb).
  apply bind_Some in Hb as (v1 & Hv1 & Hb).
  apply bind_Some in Hb as (v1' & Hv1' & Hb).
  apply bind_Some in Hb as (U3 & H3 & Hb).
  apply bind_Some in Hb as (in2 & Hin2 & Hb).
  apply bind_Some in Hb as (v2 & Hv2 & Hb).
  apply bind_Some in Hb as (v2' & Hv2' & Hb).
  destruct (get_col_spec _ _ _ _ _ _ _ HU2 Hin1) as (c1 & Hc1 & _ & Hlen1 & Hi1).
  apply norm_index_1_inv in Hc1 as [-> Hm1].
  rewrite broadcast2_same in Hv1
    by (rewrite length_fmap, length_drop; lia).
  injection Hv1 as <-.
  rewrite broadcast_to_same in Hv1'
    by (rewrite length_zip_with, length_fmap, length_drop; lia).
  injection Hv1' as <-.
  destruct (set_col_spec _ _ _ _ _ _ _ _ HU2 Hn H3) as (c3 & Hc3 & HU3 & Hg3).
  apply norm_index_0_inv in Hc3 as [-> _].
  destruct (get_col_spec _ _ _ _ _ _ _ HU3 Hin2) as (c2 & Hc2 & _ & Hlen2 & Hi2).
  apply norm_index_before_last_inv in Hc2 as [-> _].
  rewrite broadcast2_same in Hv2
    by (rewrite length_fmap, length_take; lia).
  injection Hv2 as <-.
  rewrite broadcast_to_same in Hv2'
    by (rewrite length_zip_with, length_fmap, length_take; lia).
  injection Hv2' as <-.
  destruct (set_col_spec _ _ _ _ _ _ _ _ HU3 Hn Hb) as (c4 & Hc4 & HR & Hg4).
  apply norm_index_last_inv in Hc4 as [-> _].
  assert (∀ k c, k < n → get U3 k c = left_edges U n m dx ls k c) as Hleft.
  { intros k c Hk. rewrite Hg3 by done. unfold left_edges.
    destruct (decide (1 ≤ k ∧ c = 0)) as [[Hk1 ->]|Hno].
    - rewrite decide_True by lia.
      rewrite lookup_zip_with, Hi1 by lia.
      replace (1 + (k - 1)) with k by lia. rewrite Hg2.
      rewrite list_lookup_fmap, lookup_drop.
      replace (1 + (k - 1)) with k by lia.
      destruct (get_is_Some n m U2 k 1 HU2 Hk Hm1) as [x Hx].
      rewrite Hg2 in Hx. rewrite Hx. simpl.
      destruct (ls !! k) as [s|] eqn:Hs; simpl; [done|].
      apply lookup_ge_None in Hs. lia.
    - rewrite decide_False by lia. apply Hg2. }
  intros k c Hk Hc. rewrite Hg4 by done. unfold right_edges.
  destruct (decide (k < n - 1 ∧ c = m - 1)) as [[Hk1 ->]|Hno].
  - rewrite decide_True by lia.
    rewrite lookup_zip_with, Hi2 by lia. simpl.
    rewrite Nat.sub_0_r. rewrite Hleft by done.
    rewrite list_lookup_fmap, lookup_take, decide_True by lia.
    destruct (get_is_Some n m U3 k (m - 2) HU3 Hk) as [x Hx]; [lia|].
    rewrite Hleft in Hx by done. rewrite Hx. simpl.
    destruct (rs !! k) as [s|] eqn:Hs; simpl; [done|].
    apply lookup_ge_None in Hs. lia.
  - rewrite decide_False by lia. by apply Hleft.
Qed.

(** [impose_bcs] raises on an array without entries and on several
    patches of fewer than two points, and returns otherwise. *)
Lemma impose_bcs_is_Some n m U dx ls rs :
  has_shape n m U → 0 < n → 0 < m → (1 < n → 1 < m) →
  length ls = n → length rs = n →
  is_Some (impose_bcs U dx ls rs).
Proof.
  intros HU Hn Hm Hm1 Hls Hrs. unfold impose_bcs.
  rewrite (has_shape_length _ _ _ HU).
  destruct (set_item_is_Some n m U 0 0 f_zero HU) as [U1 H1];
    [by rewrite norm_index_0..|].
  rewrite H1. simpl.
  destruct (set_item_spec _ _ _ _ _ _ _ HU H1) as (? & ? & _ & _ & HU1 & _).
  destruct (set_item_is_Some n m U1 (-1) (-1) f_zero HU1) as [U2 H2];
    [by rewrite norm_index_last..|].
  rewrite H2. simpl.
  destruct (set_item_spec _ _ _ _ _ _ _ HU1 H2) as (? & ? & _ & _ & HU2 & _).
  case_decide as Hn1; [|done]. specialize (Hm1 Hn1).
  destruct (get_col_is_Some n m U2 1 n 1 HU2 Hn) as [in1 Hin1];
    [by rewrite norm_index_1|].
  rewrite Hin1. simpl.
  destruct (get_col_spec _ _ _ _ _ _ _ HU2 Hin1) as (c1 & _ & _ & Hlen1 & _).
  rewrite broadcast2_same by (rewrite length_fmap, length_drop; lia). simpl.
  rewrite broadcast_to_same
    by (rewrite length_zip_with, length_fmap, length_drop; lia). simpl.
  match goal with |- context [set_col U2 1 n 0 ?v] =>
    destruct (set_col_is_Some n m U2 1 n 0 v HU2 Hn) as [U3 H3];
      [by rewrite norm_index_0|] end.
  rewrite H3. simpl.
  destruct (set_col_spec _ _ _ _ _ _ _ _ HU2 Hn H3) as (? & _ & HU3 & _).
  destruct (get_col_is_Some n m U3 0 (n - 1) (-2) HU3 Hn) as [in2 Hin2];
    [by rewrite norm_index_before_last|].
  rewrite Hin2. simpl.
  destruct (get_col_spec _ _ _ _ _ _ _ HU3 Hin2) as (c2 & _ & _ & Hlen2 & _).
  rewrite broadcast2_same by (rewrite length_fmap, length_take; lia). simpl.
  rewrite broadcast_to_same
    by (rewrite length_zip_with, length_fmap, length_take; lia). simpl.
  apply (set_col_is_Some n m); [done..|]. by rewrite norm_index_last.
Qed.
End BoundaryFacts.

(** * The micro stepper and the projective cycle *)

Section StepperFacts.
Context {F : Type} `{Float64 F}.
Implicit Types (U V R : list (list F)) (ls rs : list F).


Lemma rhs_vectorised_Some n m U dx p V :
  has_shape n m U → rhs_vectorised U dx p = Some V →
  has_shape n m V ∧ ∃ dx2, f_sqr dx = Some dx2 ∧
    ∀ k j, j < m → get V k j =
      u ← get U k j;
      u_next ← get U k (Z.to_nat ((Z.of_nat j + 1) `mod` Z.of_nat m));
      u_prev ← get U k (Z.to_nat ((Z.of_nat j - 1) `mod` Z.of_nat m));
      Some (rhs_cell dx2 (lambda p) u u_next u_prev).
Proof.
  intros HU. unfold rhs_vectorised. intros Hr.
  apply bind_Some in Hr as (dx2 & Hdx & Hr). injection Hr as <-.
  split.
  - repeat first [apply has_shape_mzip | apply has_shape_mmap | apply has_shape_roll];
      done.
  - exists dx2. split; [done|]. intros k j Hj.
    rewrite get_mzip, !get_mmap, get_mzip, get_mzip, get_mmap.
    rewrite !(get_roll n m) by done.
    replace (Z.of_nat j - -1)%Z with (Z.of_nat j + 1)%Z by lia.
    destruct (get U k j) as [u|]; simpl.
    + destruct (get U k (Z.to_nat ((Z.of_nat j + 1) `mod` Z.of_nat m))); simpl; [|done].
      by destruct (get U k (Z.to_nat ((Z.of_nat j - 1) `mod` Z.of_nat m))).
    + destruct (get U k (Z.to_nat ((Z.of_nat j + 1) `mod` Z.of_nat m))); simpl; [|done].
      by destruct (get U k (Z.to_nat ((Z.of_nat j - 1) `mod` Z.of_nat m))).
Qed.

Lemma euler_update_shape n m U dx dt p V :
  has_shape n m U → euler_update U dx dt p = Some V → has_shape n m V.
Proof.
  intros HU. unfold euler_update. intros He.
  apply bind_Some in He as (r & Hr & He). injection He as <-.
  destruct (rhs_vectorised_Some _ _ _ _ _ _ HU Hr) as [Hshape _].
  apply has_shape_mzip; [done|]. by apply has_shape_mmap.
Qed.

Lemma euler_update_is_Some U dx dt p :
  is_Some (f_sqr dx) → is_Some (euler_update U dx dt p).
Proof.
  intros [dx2 Hdx]. unfold euler_update, rhs_vectorised. rewrite Hdx. simpl. done.
Qed.

Lemma euler_step_shape n m U dx dt ls rs p R :
  has_shape n m U → euler_step U dx dt ls rs p = Some R → has_shape n m R.
Proof.
  intros HU. unfold euler_step. intros He.
  apply bind_Some in He as (V & HV & He).
  pose proof (euler_update_shape _ _ _ _ _ _ _ HU HV) as HVs.
  by destruct (impose_bcs_corners _ _ _ _ _ _ _ HVs He) as [? _].
Qed.

Lemma euler_step_is_Some n m U dx dt ls rs p :
  has_shape n m U → steppable n m → length ls = n → length rs = n →
  is_Some (f_sqr dx) → is_Some (euler_step U dx dt ls rs p).
Proof.
  intros HU (Hn & Hm & Hm1) Hls Hrs Hdx. unfold euler_step.
  destruct (euler_update_is_Some U dx dt p Hdx) as [V HV]. rewrite HV. simpl.
  pose proof (euler_update_shape _ _ _ _ _ _ _ HU HV) as HVs.
  by eapply impose_bcs_is_Some.
Qed.

Lemma repeat_step_shape n m (step : list (list F) → option (list (list F))) :
  (∀ U R, has_shape n m U → step U = Some R → has_shape n m R) →
  ∀ i U R, has_shape n m U → repeat_step i step U = Some R → has_shape n m R.
Proof.
  intros Hstep. induction i as [|i IH]; intros U R HU; simpl.
  - by intros [= <-].
  - intros Hr. apply bind_Some in Hr as (U' & HU' & Hr). eauto.
Qed.

Lemma repeat_step_is_Some n m (step : list (list F) → option (list (list F))) :
  (∀ U R, has_shape n m U → step U = Some R → has_shape n m R) →
  (∀ U, has_shape n m U → is_Some (step U)) →
  ∀ i U, has_shape n m U → is_Some (repeat_step i step U).
Proof.
  intros Hshape Hstep. induction i as [|i IH]; intros U HU; simpl; [done|].
  destruct (Hstep U HU) as [U' HU']. rewrite HU'. simpl. eauto.
Qed.

Lemma has_shape_extrapolate n m U_prev U dt Dt K :
  has_shape n m U_prev → has_shape n m U →
  has_shape n m (extrapolate U_prev U dt Dt K).
Proof.
  intros. unfold extrapolate.
  repeat first [apply has_shape_mzip | apply has_shape_mmap]; done.
Qed.

(** The extrapolated array, entry by entry:
    [U + (Dt - K*dt) * ((U - U_prev) / dt)]. *)
Lemma get_extrapolate U_prev U dt Dt K k j :
  get (extrapolate U_prev U dt Dt K) k j =
    a ← get U k j; b ← get U_prev k j;
    Some (f_add a (f_mul (f_sub Dt (f_mul (f_of_int K) dt))
                         (f_div (f_sub a b) dt))).
Proof.
  unfold extrapolate. rewrite get_mzip, !get_mmap, get_mzip.
  destruct (get U k j); simpl; [|done]. by destruct (get U_prev k j).
Qed.

Lemma projective_microcycle_shape n m U dx dt Dt K ls rs p R :
  has_shape n m U → projective_microcycle U dx dt Dt K ls rs p = Some R →
  has_shape n m R.
Proof.
  intros HU. unfold projective_microcycle. intros Hp.
  apply bind_Some in Hp as (U1 & H1 & Hp).
  apply bind_Some in Hp as (U2 & H2 & Hp).
  assert (∀ V R, has_shape n m V → euler_step V dx dt ls rs p = Some R →
            has_shape n m R) as Hshape.
  { intros V R' HV HR. by eapply euler_step_shape. }
  pose proof (repeat_step_shape n m _ Hshape _ _ _ HU H1) as HU1.
  pose proof (euler_step_shape _ _ _ _ _ _ _ _ _ HU1 H2) as HU2.
  pose proof (has_shape_extrapolate _ _ _ _ dt Dt K HU1 HU2) as HE.
  by destruct (impose_bcs_corners _ _ _ _ _ _ _ HE Hp) as [? _].
Qed.

Lemma projective_microcycle_is_Some n m U dx dt Dt K ls rs p :
  has_shape n m U → steppable n m → length ls = n → length rs = n →
  is_Some (f_sqr dx) →
  is_Some (projective_microcycle U dx dt Dt K ls rs p).
Proof.
  intros HU Hnm Hls Hrs Hdx. unfold projective_microcycle.
  assert (∀ V R, has_shape n m V → euler_step V dx dt ls rs p = Some R →
            has_shape n m R) as Hshape.
  { intros V R' HV HR. by eapply euler_step_shape. }
  assert (∀ V, has_shape n m V → is_Some (euler_step V dx dt ls rs p)) as Hstep.
  { intros ??. by apply (euler_step_is_Some n m). }
  destruct (repeat_step_is_Some n m _ Hshape Hstep (Z.to_nat (K - 1)) U HU)
    as [U1 H1].
  rewrite H1. simpl.
  pose proof (repeat_step_shape n m _ Hshape _ _ _ HU H1) as HU1.
  destruct (euler_step_is_Some n m U1 dx dt ls rs p) as [U2 H2]; [done..|].
  rewrite H2. simpl.
  pose proof (euler_step_shape _ _ _ _ _ _ _ _ _ HU1 H2) as HU2.
  destruct Hnm as (? & ? & ?).
  apply (impose_bcs_is_Some n m); [|done..].
  by apply has_shape_extrapolate.
Qed.
End StepperFacts.

Section StepperFacts.
Context {F : Type} `{Float64 F}.
Implicit Types (U V R : list (list F)) (ls rs : list F).

Lemma repeat_step_micro_steps dx dt ls rs p i U U' :
  repeat_step i (λ U, euler_step U dx dt ls rs p) U = Some U' ↔
  micro_steps dx dt ls rs p i U U'.
Proof.
  revert U. induction i as [|i IH]; intros U; simpl.
  - split; [intros [= <-]; constructor|]. by inversion 1.
  - split.
    + intros Hr. apply bind_Some in Hr as (V & HV & Hr).
      econstructor; [done|]. by apply IH.
    + inversion 1 as [|? ? V ? HV Hrest]; subst. rewrite HV. simpl. by apply IH.
Qed.

(** C1. For every array [U], spacings [dx], [dt], projective step [Dt],
    count [K >= 1], slopes and parameters, [projective_microcycle] returns
    [R] exactly when [K - 1] micro steps lead from [U] to a state [U_prev],
    one more step leads from [U_prev] to [U_last], and [R] is the array
    [U_last + (Dt - K*dt) * ((U_last - U_prev) / dt)] with the boundary
    conditions imposed again; when [K = 1] no preliminary step is taken
    and [U_prev] is [U] itself. *)
Theorem projective_microcycle_extrapolates U dx dt Dt (K : Z) ls rs p R :
  (1 ≤ K)%Z →
  (projective_microcycle U dx dt Dt K ls rs p = Some R ↔
   ∃ (i : nat) U_prev U_last E,
     Z.of_nat i = (K - 1)%Z ∧
     micro_steps dx dt ls rs p i U U_prev ∧
     euler_step U_prev dx dt ls rs p = Some U_last ∧
     E = mzip f_add U_last
           (mmap (f_mul (f_sub Dt (f_mul (f_of_int K) dt)))
                 (mmap (λ x, f_div x dt) (mzip f_sub U_last U_prev))) ∧
     impose_bcs E dx ls rs = Some R ∧
     (K = 1%Z → U_prev = U)).
Proof.
  intros HK. unfold projective_microcycle. split.
  - intros Hp. apply bind_Some in Hp as (U_prev & Hprev & Hp).
    apply bind_Some in Hp as (U_last & Hlast & Hp).
    exists (Z.to_nat (K - 1)), U_prev, U_last, (extrapolate U_prev U_last dt Dt K).
    split_and!; [lia| |done|done|done|].
    + by apply repeat_step_micro_steps.
    + intros ->. simpl in Hprev. by injection Hprev as <-.
  - intros (i & U_prev & U_last & E & Hi & Hsteps & Hlast & -> & HR & _).
    replace (Z.to_nat (K - 1)) with i by lia.
    apply repeat_step_micro_steps in Hsteps. rewrite Hsteps. simpl.
    rewrite Hlast. simpl. exact HR.
Qed.

(** C2. For every array [U] of shape [(n, m)], slopes and parameters,
    the array returned by a call of [euler_step], and the array returned
    by a call of [projective_microcycle], has the value [0.0] at the left
    end of patch [0] and at the right end of the last patch. *)
Theorem outer_edges_after_step n m U dx dt Dt (K : Z) ls rs p :
  has_shape n m U →
  (∀ R, euler_step U dx dt ls rs p = Some R → outer_edges_zero n m R) ∧
  (∀ R, projective_microcycle U dx dt Dt K ls rs p = Some R →
        outer_edges_zero n m R).
Proof.
  intros HU. split; intros R.
  - unfold euler_step. intros He. apply bind_Some in He as (V & HV & He).
    pose proof (euler_update_shape _ _ _ _ _ _ _ HU HV) as HVs.
    destruct (impose_bcs_corners _ _ _ _ _ _ _ HVs He) as (_ & _ & _ & _ & ? & ?).
    by split.
  - unfold projective_microcycle. intros Hp.
    apply bind_Some in Hp as (U1 & H1 & Hp).
    apply bind_Some in Hp as (U2 & H2 & Hp).
    assert (∀ V R, has_shape n m V → euler_step V dx dt ls rs p = Some R →
              has_shape n m R) as Hshape.
    { intros V R' HV HR. by eapply euler_step_shape. }
    pose proof (repeat_step_shape n m _ Hshape _ _ _ HU H1) as HU1.
    pose proof (euler_step_shape _ _ _ _ _ _ _ _ _ HU1 H2) as HU2.
    pose proof (has_shape_extrapolate _ _ _ _ dt Dt K HU1 HU2) as HE.
    destruct (impose_bcs_corners _ _ _ _ _ _ _ HE Hp) as (_ & _ & _ & _ & ? & ?).
    by split.
Qed.

Lemma impose_bcs_inner_edges n m V dx ls rs R k :
  has_shape n m V → 3 ≤ m → length ls = n → length rs = n →
  0 < k < n - 1 → impose_bcs V dx ls rs = Some R →
  inner_edges_tied m dx ls rs k R.
Proof.
  intros HV Hm Hls Hrs Hk Hb.
  pose proof (impose_bcs_entries _ _ _ _ _ _ _ HV Hls Hrs Hb) as Hent.
  destruct (get_is_Some n m V k 1 HV) as [a Ha]; [lia..|].
  destruct (get_is_Some n m V k (m - 2) HV) as [b Hb']; [lia..|].
  destruct (lookup_lt_is_Some_2 ls k) as [sl Hsl]; [lia|].
  destruct (lookup_lt_is_Some_2 rs k) as [sr Hsr]; [lia|].
  exists a, b, sl, sr.
  assert (∀ c, 0 < c < m - 1 → corners V n m k c = get V k c) as Hcor.
  { intros c Hc. unfold corners. by rewrite !decide_False by lia. }
  rewrite !Hent by lia. rewrite !decide_True by lia.
  unfold right_edges, left_edges.
  rewrite (decide_False (P := k < n - 1 ∧ 1 = m - 1)) by lia.
  rewrite (decide_False (P := 1 ≤ k ∧ 1 = 0)) by lia.
  rewrite (decide_False (P := k < n - 1 ∧ m - 2 = m - 1)) by lia.
  rewrite (decide_False (P := 1 ≤ k ∧ m - 2 = 0)) by lia.
  rewrite (decide_False (P := k < n - 1 ∧ 0 = m - 1)) by lia.
  rewrite (decide_True (P := 1 ≤ k ∧ 0 = 0)) by lia.
  rewrite (decide_True (P := k < n - 1 ∧ m - 1 = m - 1)) by lia.
  rewrite !Hcor by lia. rewrite Ha, Hb', Hsl, Hsr. simpl. done.
Qed.

(** C3, for patches of at least three points and one slope per patch.
    For every patch [k] with [0 < k < n_teeth - 1], the array returned by
    [euler_step] or by [projective_microcycle] satisfies
    [U[k,0] = U[k,1] - left_slope[k]*dx] and
    [U[k,-1] = U[k,-2] + right_slope[k]*dx], as equalities of the float
    values the assignments compute. *)
Theorem inner_edges_after_step n m U dx dt Dt (K : Z) ls rs p k :
  has_shape n m U → 3 ≤ m → length ls = n → length rs = n →
  0 < k < n - 1 →
  (∀ R, euler_step U dx dt ls rs p = Some R → inner_edges_tied m dx ls rs k R) ∧
  (∀ R, projective_microcycle U dx dt Dt K ls rs p = Some R →
        inner_edges_tied m dx ls rs k R).
Proof.
  intros HU Hm Hls Hrs Hk. split; intros R.
  - unfold euler_step. intros He. apply bind_Some in He as (V & HV & He).
    pose proof (euler_update_shape _ _ _ _ _ _ _ HU HV) as HVs.
    by eapply impose_bcs_inner_edges.
  - unfold projective_microcycle. intros Hp.
    apply bind_Some in Hp as (U1 & H1 & Hp).
    apply bind_Some in Hp as (U2 & H2 & Hp).
    assert (∀ V R, has_shape n m V → euler_step V dx dt ls rs p = Some R →
              has_shape n m R) as Hshape.
    { intros V R' HV HR. by eapply euler_step_shape. }
    pose proof (repeat_step_shape n m _ Hshape _ _ _ HU H1) as HU1.
    pose proof (euler_step_shape _ _ _ _ _ _ _ _ _ HU1 H2) as HU2.
    pose proof (has_shape_extrapolate _ _ _ _ dt Dt K HU1 HU2) as HE.
    by eapply impose_bcs_inner_edges.
Qed.
End StepperFacts.

Section Wraparound.
Context {F : Type} `{Float64 F}.
Implicit Types (U V R : list (list F)) (ls rs : list F).

Lemma corners_agree n m U V k c :
  agree_inside n m U V → k < n → c < m →
  (c = 0 → k = 0) → (c = m - 1 → k = n - 1) →
  corners U n m k c = corners V n m k c.
Proof.
  intros Hagree Hk Hc H0 Hlast. unfold corners.
  repeat case_decide; try done. apply Hagree; lia.
Qed.

Lemma get_col_agree n m U V lo hi j c :
  has_shape n m U → has_shape n m V → norm_index m j = Some c →
  (∀ k, lo ≤ k < n → get U k c = get V k c) →
  get_col U lo hi j = get_col V lo hi j.
Proof.
  intros HU HV Hc Hsame.
  destruct (decide (n = 0)) as [->|Hn].
  { destruct HU as [HU _], HV as [HV _].
    apply length_zero_iff_nil in HU, HV. by subst. }
  destruct (get_col_is_Some n m U lo hi j HU) as [a Ha]; [lia|by rewrite Hc|].
  destruct (get_col_is_Some n m V lo hi j HV) as [b Hb]; [lia|by rewrite Hc|].
  rewrite Ha, Hb. f_equal.
  destruct (get_col_spec _ _ _ _ _ _ _ HU Ha) as (c1 & Hc1 & _ & Hla & Hia).
  destruct (get_col_spec _ _ _ _ _ _ _ HV Hb) as (c2 & Hc2 & _ & Hlb & Hib).
  rewrite Hc in Hc1, Hc2. injection Hc1 as <-. injection Hc2 as <-.
  apply list_eq_same_length with (length a); [lia|done|].
  intros i x y Hi Hx Hy. rewrite Hia in Hx by done. rewrite Hib in Hy by lia.
  rewrite Hsame in Hx by lia. congruence.
Qed.

(** The boundary conditions read their argument inside the patches only,
    whatever the slope arrays are. *)
Lemma impose_bcs_agree n m U V dx ls rs :
  has_shape n m U → has_shape n m V → 3 ≤ m → agree_inside n m U V →
  impose_bcs U dx ls rs = impose_bcs V dx ls rs.
Proof.
  intros HU HV Hm Hagree.
  destruct (decide (n = 0)) as [->|Hn].
  { destruct HU as [HU _], HV as [HV _].
    apply length_zero_iff_nil in HU, HV. by subst. }
  unfold impose_bcs.
  rewrite (has_shape_length _ _ _ HU), (has_shape_length _ _ _ HV).
  destruct (set_item_is_Some n m U 0 0 f_zero HU) as [U1 HU1];
    [by rewrite norm_index_0 by lia..|].
  destruct (set_item_is_Some n m V 0 0 f_zero HV) as [V1 HV1];
    [by rewrite norm_index_0 by lia..|].
  rewrite HU1, HV1. simpl.
  destruct (set_item_spec _ _ _ _ _ _ _ HU HU1) as (? & ? & _ & _ & HU1s & _).
  destruct (set_item_spec _ _ _ _ _ _ _ HV HV1) as (? & ? & _ & _ & HV1s & _).
  destruct (set_item_is_Some n m U1 (-1) (-1) f_zero HU1s) as [U2 HU2];
    [by rewrite norm_index_last by lia..|].
  destruct (set_item_is_Some n m V1 (-1) (-1) f_zero HV1s) as [V2 HV2];
    [by rewrite norm_index_last by lia..|].
  rewrite HU2, HV2. simpl.
  destruct (corners_spec _ _ _ _ _ HU HU1 HU2) as (HU2s & _ & _ & HgU2).
  destruct (corners_spec _ _ _ _ _ HV HV1 HV2) as (HV2s & _ & _ & HgV2).
  case_decide as Hn1.
  2:{ f_equal. apply (mat_ext n m); [done..|]. intros k c Hk Hc.
      rewrite HgU2, HgV2. apply corners_agree; (done || lia). }
  rewrite (get_col_agree n m U2 V2 1 n 1 1 HU2s HV2s); cycle 1.
  { apply norm_index_1. lia. }
  { intros k Hk. rewrite HgU2, HgV2. apply corners_agree; (done || lia). }
  destruct (get_col V2 1 n 1) as [in1|]; simpl; [|done].
  destruct (broadcast2 f_sub in1 _) as [v1|]; simpl; [|done].
  destruct (broadcast_to (n - 1) v1) as [v1'|] eqn:Hv1; simpl; [|done].
  apply broadcast_to_length in Hv1.
  destruct (set_col_is_Some n m U2 1 n 0 v1' HU2s) as [U3 HU3];
    [lia|by rewrite norm_index_0 by lia|].
  destruct (set_col_is_Some n m V2 1 n 0 v1' HV2s) as [V3 HV3];
    [lia|by rewrite norm_index_0 by lia|].
  rewrite HU3, HV3. simpl.
  destruct (set_col_spec _ _ _ _ _ _ _ _ HU2s ltac:(lia) HU3) as (c3 & Hc3 & HU3s & HgU3).
  destruct (set_col_spec _ _ _ _ _ _ _ _ HV2s ltac:(lia) HV3) as (c3' & Hc3' & HV3s & HgV3).
  apply norm_index_0_inv in Hc3 as [-> _], Hc3' as [-> _].
  assert (∀ k c, k < n → c < m → (c = m - 1 → k = n - 1) →
            get U3 k c = get V3 k c) as H3.
  { intros k c Hk Hc0 Hcl. rewrite HgU3, HgV3 by done.
    destruct (decide (1 ≤ k < n ∧ c = 0)) as [[? ->]|Hno].
    - destruct (lookup_lt_is_Some_2 v1' (k - 1)) as [v Hv]; [lia|]. by rewrite Hv.
    - rewrite HgU2, HgV2. apply corners_agree; (done || lia). }
  rewrite (get_col_agree n m U3 V3 0 (n - 1) (-2) (m - 2) HU3s HV3s); cycle 1.
  { apply norm_index_before_last. lia. }
  { intros k Hk. apply H3; lia. }
  destruct (get_col V3 0 (n - 1) (-2)) as [in2|]; simpl; [|done].
  destruct (broadcast2 f_add in2 _) as [v2|]; simpl; [|done].
  destruct (broadcast_to (n - 1) v2) as [v2'|] eqn:Hv2; simpl; [|done].
  apply broadcast_to_length in Hv2.
  destruct (set_col_is_Some n m U3 0 (n - 1) (-1) v2' HU3s) as [RU HRU];
    [lia|by rewrite norm_index_last by lia|].
  destruct (set_col_is_Some n m V3 0 (n - 1) (-1) v2' HV3s) as [RV HRV];
    [lia|by rewrite norm_index_last by lia|].
  rewrite HRU, HRV. f_equal.
  destruct (set_col_spec _ _ _ _ _ _ _ _ HU3s ltac:(lia) HRU) as (c4 & Hc4 & HRUs & HgRU).
  destruct (set_col_spec _ _ _ _ _ _ _ _ HV3s ltac:(lia) HRV) as (c4' & Hc4' & HRVs & HgRV).
  apply norm_index_last_inv in Hc4 as [-> _], Hc4' as [-> _].
  apply (mat_ext n m); [done..|]. intros k c Hk Hc.
  rewrite HgRU, HgRV by done.
  destruct (decide (0 ≤ k < n - 1 ∧ c = m - 1)) as [[? ->]|Hno].
  - destruct (lookup_lt_is_Some_2 v2' (k - 0)) as [v Hv]; [lia|]. by rewrite Hv.
  - apply H3; lia.
Qed.

(** On at most two patches of two points every cell is an edge: the
    boundary conditions do not read their argument at all. *)
Lemma impose_bcs_small n U V dx ls rs :
  has_shape n 2 U → has_shape n 2 V → n ≤ 2 →
  impose_bcs U dx ls rs = impose_bcs V dx ls rs.
Proof.
  intros [HnU HU] [HnV HV] Hn.
  destruct U as [|[|a0 [|a1 [|]]] [|[|c0 [|c1 [|]]] [|]]];
    simpl in HnU; try lia;
    repeat match goal with H : Forall _ (_ :: _) |- _ =>
      apply Forall_cons in H as [? H] end; simpl in *; try lia;
  destruct V as [|[|b0 [|b1 [|]]] [|[|d0 [|d1 [|]]] [|]]];
    simpl in HnV; try lia;
    repeat match goal with H : Forall _ (_ :: _) |- _ =>
      apply Forall_cons in H as [? H] end; simpl in *; try lia.
  all: try reflexivity.
  unfold impose_bcs, set_item. simpl. unfold get_col, set_col. simpl.
  destruct (broadcast2 f_sub _ _) as [v|]; simpl; [|done].
  destruct (broadcast_to 1 v) as [v0|] eqn:Hv0; simpl; [|done].
  destruct (broadcast2 f_add _ _) as [v1|]; simpl; [|done].
  destruct (broadcast_to 1 v1) as [v2|] eqn:Hv2; simpl; [|done].
  apply broadcast_to_length in Hv0, Hv2.
  destruct v0 as [|? [|]], v2 as [|? [|]]; simpl in *; (done || lia).
Qed.

Lemma rhs_nonperiodic_Some n m edge U dx p V :
  has_shape n m U → rhs_nonperiodic edge U dx p = Some V →
  has_shape n m V ∧ ∃ dx2, f_sqr dx = Some dx2 ∧
    ∀ k j, 0 < j < m - 1 → get V k j =
      u ← get U k j; u_next ← get U k (j + 1); u_prev ← get U k (j - 1);
      Some (rhs_cell dx2 (lambda p) u u_next u_prev).
Proof.
  intros HU. unfold rhs_nonperiodic. intros Hr.
  apply bind_Some in Hr as (dx2 & Hdx & Hr). injection Hr as <-.
  split.
  - destruct HU as [Hn Hall]. split; [by rewrite length_fmap|].
    apply Forall_fmap. eapply Forall_impl; [done|]. simpl. intros r Hr.
    by rewrite length_imap.
  - exists dx2. split; [done|]. intros k j Hj. unfold get.
    rewrite list_lookup_fmap.
    destruct (U !! k) as [row|] eqn:Hrow; simpl; [|done].
    pose proof (has_shape_row _ _ _ _ _ HU Hrow) as Hlen.
    rewrite list_lookup_imap.
    destruct (lookup_lt_is_Some_2 row j) as [u Hu]; [lia|].
    destruct (lookup_lt_is_Some_2 row (j + 1)) as [un Hun]; [lia|].
    destruct (lookup_lt_is_Some_2 row (j - 1)) as [up Hup]; [lia|].
    rewrite Hu, Hun, Hup. simpl. destruct j; [lia|]. done.
Qed.

(** C5, for patches of at least three points, or of two points on at
    most two patches. [euler_step] returns the same result as the variant
    whose stencil does not wrap around, whatever this variant computes in
    the first and in the last cell of a patch and whatever the slope
    arrays are: the values that the periodic shift produces in these
    cells do not reach the array returned. *)
Theorem wraparound_not_observed n m edge U dx dt ls rs p :
  has_shape n m U → 3 ≤ m ∨ (m = 2 ∧ n ≤ 2) →
  euler_step U dx dt ls rs p = euler_step_nonperiodic edge U dx dt ls rs p.
Proof.
  intros HU Hm. unfold euler_step, euler_update, euler_step_nonperiodic.
  destruct (rhs_vectorised U dx p) as [r|] eqn:Hr.
  - destruct (rhs_vectorised_Some _ _ _ _ _ _ HU Hr) as (Hrs1 & dx2 & Hdx & Hent).
    destruct (rhs_nonperiodic edge U dx p) as [r'|] eqn:Hr'.
    2:{ unfold rhs_nonperiodic in Hr'. by rewrite Hdx in Hr'. }
    destruct (rhs_nonperiodic_Some _ _ _ _ _ _ _ HU Hr') as (Hrs2 & dx2' & Hdx' & Hent').
    simpl.
    assert (has_shape n m (mzip f_add U (mmap (f_mul dt) r))) as HV.
    { apply has_shape_mzip; [done|]. by apply has_shape_mmap. }
    assert (has_shape n m (mzip f_add U (mmap (f_mul dt) r'))) as HV'.
    { apply has_shape_mzip; [done|]. by apply has_shape_mmap. }
    destruct Hm as [Hm|[-> Hn]]; [|by apply (impose_bcs_small n)].
    apply (impose_bcs_agree n m); [done..|].
    intros k j Hk Hj. rewrite !get_mzip, !get_mmap.
    rewrite Hent, Hent' by lia. rewrite Hdx in Hdx'. injection Hdx' as <-.
    replace (Z.to_nat ((Z.of_nat j + 1) `mod` Z.of_nat m)) with (j + 1)
      by (rewrite Z.mod_small by lia; lia).
    replace (Z.to_nat ((Z.of_nat j - 1) `mod` Z.of_nat m)) with (j - 1)
      by (rewrite Z.mod_small by lia; lia).
    done.
  - unfold rhs_vectorised in Hr. unfold rhs_nonperiodic.
    destruct (f_sqr dx); [done|]. done.
Qed.
End Wraparound.

(** * The conversions *)

Section ConversionFacts.
Context {F : Type} `{Float64 F}.
Implicit Types (P : list (list F)) (u : list F).

Lemma fill_patches_uniform L P : ∀ i u,
  Forall (λ q, length q = L) P → length u = (i + length P) * L →
  fill_patches L i P u = Some (take (i * L) u ++ concat P).
Proof.
  induction P as [|q P IH]; intros i u Hall Hlen; simpl.
  - simpl in Hlen. rewrite Nat.add_0_r in Hlen.
    rewrite app_nil_r, take_ge by lia. done.
  - apply Forall_cons in Hall as [Hq Hall]. simpl in Hlen.
    unfold assign_slice. rewrite broadcast_to_same by lia. simpl.
    rewrite IH; [| done |].
    + f_equal. replace (S i * L) with (i * L + L) by lia.
      rewrite take_app_ge by (rewrite length_take; lia).
      rewrite length_take, Nat.min_l by lia.
      replace (i * L + L - i * L) with (length q) by lia.
      rewrite take_app_length. by rewrite <- app_assoc.
    + rewrite !length_app, length_take, length_drop. lia.
Qed.

(** On patches of one length, [toNumpyArray] is the concatenation. *)
Lemma toNumpyArray_uniform L P :
  P ≠ [] → Forall (λ q, length q = L) P → toNumpyArray P = Some (concat P).
Proof.
  intros Hne Hall. unfold toNumpyArray.
  destruct P as [|q P]; [done|]. simpl lookup. cbn [mbind option_bind].
  pose proof Hall as Hall'. apply Forall_cons in Hall' as [Hq _]. rewrite Hq.
  rewrite (fill_patches_uniform L (q :: P) 0); [done|done|].
  rewrite length_replicate. simpl. done.
Qed.

Lemma slices_concat L P : ∀ s pre,
  Forall (λ q, length q = L) P → length pre = s * L →
  (λ i, slice (pre ++ concat P) (i * L) ((i + 1) * L)) <$> seq s (length P) = P.
Proof.
  induction P as [|q P IH]; intros s pre Hall Hpre; simpl; [done|].
  apply Forall_cons in Hall as [Hq Hall]. f_equal.
  - unfold slice. rewrite drop_app_length' by done.
    replace ((s + 1) * L - s * L) with (length q) by lia.
    by rewrite take_app_length.
  - rewrite (app_assoc pre q). apply IH; [done|].
    rewrite length_app. lia.
Qed.

Lemma toPatch_concat L P (x : list (list F)) x0 :
  x !! 0 = Some x0 → length x0 = L → length x = length P →
  Forall (λ q, length q = L) P → toPatch x (concat P) = Some P.
Proof.
  intros Hx0 HL Hlen Hall. unfold toPatch. rewrite Hx0. simpl. f_equal.
  rewrite HL, Hlen. by apply (slices_concat L P 0 []).
Qed.

Lemma toPatch_shape (x : list (list F)) x0 u P :
  x !! 0 = Some x0 → length u = length x * length x0 →
  toPatch x u = Some P → has_shape (length x) (length x0) P.
Proof.
  intros Hx0 Hlen. unfold toPatch. rewrite Hx0. simpl. intros [= <-].
  split; [by rewrite length_fmap, length_seq|].
  apply Forall_fmap, Forall_forall. intros i Hi. simpl.
  apply elem_of_seq in Hi. unfold slice. rewrite length_take, length_drop. nia.
Qed.

(** C9, for a list of at least one patch. For every non-empty list [P]
    of arrays of one length [L] and every list [x_plot_array] of as many
    arrays of length [L], [toPatch(x_plot_array, toNumpyArray(P))] is [P]. *)
Theorem toPatch_toNumpyArray L P (x_plot_array : list (list F)) :
  P ≠ [] → Forall (λ q, length q = L) P →
  length x_plot_array = length P →
  Forall (λ xs, length xs = L) x_plot_array →
  toNumpyArray P ≫= toPatch x_plot_array = Some P.
Proof.
  intros Hne Hall Hlen Hx. rewrite (toNumpyArray_uniform L) by done. simpl.
  destruct x_plot_array as [|x0 x'] eqn:Hxeq.
  { destruct P; [done|]. simpl in Hlen. lia. }
  rewrite <- Hxeq in *. apply (toPatch_concat L P _ x0); [by subst|..|done|done].
  subst. by apply Forall_cons in Hx as [? _].
Qed.
End ConversionFacts.

(** * The driver *)

Section DriverFacts.
Context {F : Type} `{Float64 F} `{Interpolant F}.
Implicit Types (U V R : list (list F)) (ls rs : list F) (x : list (list F)).

Lemma spline_slopes_length U x ls rs :
  spline_slopes U x = Some (ls, rs) → length ls = length x ∧ length rs = length x.
Proof.
  unfold spline_slopes. intros Hs. apply bind_Some in Hs as (ends & Hends & Hs).
  injection Hs as <- <-. apply length_mapM in Hends.
  rewrite length_seq in Hends. by rewrite !length_fmap.
Qed.

Lemma end_points_is_Some n m U x k :
  has_shape n m U → 0 < m → length x = n → Forall (λ xs, 0 < length xs) x →
  k < n → is_Some (end_points U x k).
Proof.
  intros HU Hm Hx Hall Hk. unfold end_points.
  destruct (lookup_lt_is_Some_2 x k) as [xs Hxs]; [lia|]. rewrite Hxs. simpl.
  pose proof (Forall_lookup_1 _ _ _ _ Hall Hxs) as Hpos. simpl in Hpos.
  rewrite (norm_index_0 (length xs)), (norm_index_last (length xs)) by done. simpl.
  destruct (lookup_lt_is_Some_2 xs 0) as [x0 Hx0]; [lia|]. rewrite Hx0. simpl.
  destruct (lookup_lt_is_Some_2 xs (length xs - 1)) as [x1 Hx1]; [lia|].
  rewrite Hx1. simpl.
  rewrite (has_shape_length _ _ _ HU), norm_index_nat by done. simpl.
  rewrite (has_shape_n_micro n m U HU) by lia.
  rewrite (norm_index_0 m), (norm_index_last m) by done. simpl.
  destruct (get_is_Some n m U k 0 HU) as [u0 Hu0]; [lia..|]. rewrite Hu0. simpl.
  destruct (get_is_Some n m U k (m - 1) HU) as [u1 Hu1]; [lia..|]. rewrite Hu1.
  simpl. done.
Qed.

(** The slope estimator returns on a state with one non-empty grid per
    patch, with one slope per patch on either side. *)
Lemma spline_slopes_is_Some n m U x :
  has_shape n m U → 0 < m → length x = n → Forall (λ xs, 0 < length xs) x →
  ∃ ls rs, spline_slopes U x = Some (ls, rs) ∧ length ls = n ∧ length rs = n.
Proof.
  intros HU Hm Hx Hall. unfold spline_slopes.
  destruct (mapM (end_points U x) (seq 0 (length x))) as [ends|] eqn:Hends.
  - simpl. eexists _, _. split; [done|]. apply length_mapM in Hends.
    rewrite length_seq in Hends. rewrite !length_fmap. lia.
  - exfalso. assert (is_Some (mapM (end_points U x) (seq 0 (length x)))) as [? Hs];
      [|by rewrite Hs in Hends].
    apply mapM_is_Some, Forall_forall. intros k Hk. apply elem_of_seq in Hk.
    apply (end_points_is_Some n m); (done || lia).
Qed.

Section Loops.
Variables (dx dt Dt : F) (K : Z) (p : params F) (x : list (list F)).

Lemma pi_cycles_log i : ∀ U ls rs log U' log',
  pi_cycles dx dt Dt K p i U ls rs log = Some (U', log') →
  ∃ cyc, log' = log ++ cyc ∧ length cyc = i ∧
         cycles_from dx dt Dt K p ls rs U cyc U'.
Proof.
  induction i as [|i IH]; intros U ls rs log U' log'; simpl.
  - intros [= <- <-]. exists []. rewrite app_nil_r. split_and!; [done..|constructor].
  - intros Hp. apply bind_Some in Hp as (V & HV & Hp).
    destruct (IH _ _ _ _ _ _ Hp) as (cyc & -> & Hlen & Hcyc).
    exists (CallCycle U ls rs :: cyc). rewrite <- app_assoc. simpl.
    split_and!; [done|lia|]. by econstructor.
Qed.

Lemma patch_steps_log n_PI i : ∀ U log U' log',
  patch_steps dx dt Dt K p x i n_PI U log = Some (U', log') →
  ∃ blks, log' = log ++ concat blks ∧ length blks = i ∧
          blocks_from dx dt Dt K p x n_PI U blks U'.
Proof.
  induction i as [|i IH]; intros U log U' log'; simpl.
  - intros [= <- <-]. exists []. simpl. rewrite app_nil_r.
    split_and!; [done..|constructor].
  - intros Hp. apply bind_Some in Hp as ([ls rs] & Hs & Hp).
    apply bind_Some in Hp as ([V logV] & HV & Hp).
    destruct (pi_cycles_log _ _ _ _ _ _ _ HV) as (cyc & -> & Hlen & Hcyc).
    destruct (IH _ _ _ _ Hp) as (blks & -> & Hblks & Hfrom).
    exists ((CallSlopes U :: cyc) :: blks). simpl.
    rewrite <- !app_assoc. simpl. split_and!; [done|lia|].
    econstructor; [|done]. by exists ls, rs, cyc.
Qed.

Lemma pi_cycles_shape n m i : ∀ U ls rs log U' log',
  has_shape n m U → pi_cycles dx dt Dt K p i U ls rs log = Some (U', log') →
  has_shape n m U'.
Proof.
  induction i as [|i IH]; intros U ls rs log U' log' HU; simpl.
  - by intros [= <- <-].
  - intros Hp. apply bind_Some in Hp as (V & HV & Hp).
    eapply IH; [|done]. by eapply projective_microcycle_shape.
Qed.

Lemma patch_steps_shape n m n_PI i : ∀ U log U' log',
  has_shape n m U → patch_steps dx dt Dt K p x i n_PI U log = Some (U', log') →
  has_shape n m U'.
Proof.
  induction i as [|i IH]; intros U log U' log' HU; simpl.
  - by intros [= <- <-].
  - intros Hp. apply bind_Some in Hp as ([ls rs] & Hs & Hp).
    apply bind_Some in Hp as ([V logV] & HV & Hp).
    eapply IH; [|done]. by eapply pi_cycles_shape.
Qed.

Lemma pi_cycles_is_Some n m i : ∀ U ls rs log,
  has_shape n m U → steppable n m → length ls = n → length rs = n →
  is_Some (f_sqr dx) → is_Some (pi_cycles dx dt Dt K p i U ls rs log).
Proof.
  induction i as [|i IH]; intros U ls rs log HU Hnm Hls Hrs Hdx; simpl; [done|].
  destruct (projective_microcycle_is_Some n m U dx dt Dt K ls rs p) as [V HV];
    [done..|].
  rewrite HV. simpl. apply IH; [|done..].
  by eapply projective_microcycle_shape.
Qed.

Lemma patch_steps_is_Some n m n_PI i : ∀ U log,
  has_shape n m U → steppable n m → length x = n →
  Forall (λ xs, 0 < length xs) x → is_Some (f_sqr dx) →
  is_Some (patch_steps dx dt Dt K p x i n_PI U log).
Proof.
  induction i as [|i IH]; intros U log HU Hnm Hx Hall Hdx; simpl; [done|].
  destruct (spline_slopes_is_Some n m U x) as (ls & rs & Hs & Hls & Hrs);
    [done|by destruct Hnm as (? & ? & ?)|done..|].
  rewrite Hs. simpl.
  destruct (pi_cycles_is_Some n m n_PI U ls rs (log ++ [CallSlopes U]))
    as [[V logV] HV]; [done..|].
  rewrite HV. simpl. apply IH; [|done..]. by eapply pi_cycles_shape.
Qed.
End Loops.

Lemma np_stack_Some (u0_patch : list (list F)) U :
  np_stack u0_patch = Some U →
  U = u0_patch ∧ ∃ m, has_shape (length U) m U ∧ 0 < length U.
Proof.
  unfold np_stack. destruct u0_patch as [|q rest]; [done|].
  destruct (forallb _ _) eqn:Hall; [|done]. intros [= <-]. split; [done|].
  exists (length q). split; [|simpl; lia]. split; [done|].
  apply Forall_forall. intros r Hr. rewrite forallb_forall in Hall.
  apply list_elem_of_In in Hr. specialize (Hall r Hr).
  by apply bool_decide_eq_true in Hall.
Qed.

Lemma np_stack_shape n m U : has_shape n m U → 0 < n → np_stack U = Some U.
Proof.
  intros HU Hn. unfold np_stack. destruct U as [|q rest].
  { destruct HU as [HU _]. simpl in HU. lia. }
  assert (forallb (λ q0 : list F, bool_decide (length q0 = length q)) (q :: rest)
          = true) as ->; [|done].
  apply forallb_forall. intros r Hr. apply bool_decide_eq_true.
  apply list_elem_of_In in Hr. apply list_elem_of_lookup in Hr as [i Hi].
  rewrite (has_shape_row _ _ _ _ _ HU Hi).
  symmetry. by apply (has_shape_row n m (q :: rest) 0).
Qed.
End DriverFacts.

Section DriverFacts.
Context {F : Type} `{Float64 F} `{Interpolant F}.
Implicit Types (U V R : list (list F)) (ls rs : list F) (x : list (list F)).

(** C4. A run of [gaptooth_PI_vectorised] that returns has computed
    [n_patch_steps = round(T / T_patch)] and [n_PI_steps = round(T_patch / Dt)],
    and its calls to [spline_slopes] and [projective_microcycle] are, in
    order, [n_patch_steps] blocks (none when the count is negative), each
    made of one call of [spline_slopes] on the current state followed by
    [n_PI_steps] calls of [projective_microcycle], chained from that state,
    all with the slopes this call of [spline_slopes] returned. *)
Theorem driver_schedule u0_patch x dx dt Dt (K : Z) T_patch T p rows log :
  gaptooth_run u0_patch x dx dt Dt K T_patch T p = Some (rows, log) →
  ∃ (n_patch_steps n_PI_steps : Z) q1 q2 U0 blks,
    f_pydiv T T_patch = Some q1 ∧ f_round_int q1 = Some n_patch_steps ∧
    f_pydiv T_patch Dt = Some q2 ∧ f_round_int q2 = Some n_PI_steps ∧
    np_stack u0_patch = Some U0 ∧
    log = concat blks ∧ length blks = Z.to_nat n_patch_steps ∧
    blocks_from dx dt Dt K p x (Z.to_nat n_PI_steps) U0 blks rows.
Proof.
  unfold gaptooth_run. intros Hg.
  apply bind_Some in Hg as (U0 & HU0 & Hg).
  apply bind_Some in Hg as (q1 & Hq1 & Hg).
  apply bind_Some in Hg as (n1 & Hn1 & Hg).
  apply bind_Some in Hg as (q2 & Hq2 & Hg).
  apply bind_Some in Hg as (n2 & Hn2 & Hg).
  apply bind_Some in Hg as ([U' log'] & Hsteps & Hg). injection Hg as <- <-.
  destruct (patch_steps_log _ _ _ _ _ _ _ _ _ _ _ _ Hsteps)
    as (blks & Hlog & Hlen & Hblks).
  exists n1, n2, q1, q2, U0, blks. by split_and!.
Qed.

Lemma gaptooth_shape n m U x dx dt Dt K T_patch T p rows :
  has_shape n m U → gaptooth_PI_vectorised U x dx dt Dt K T_patch T p = Some rows →
  has_shape n m rows.
Proof.
  intros HU. unfold gaptooth_PI_vectorised, gaptooth_run. intros Hg.
  apply fmap_Some in Hg as ([rows' log] & Hg & ->). simpl.
  apply bind_Some in Hg as (U0 & HU0 & Hg).
  apply bind_Some in Hg as (q1 & Hq1 & Hg).
  apply bind_Some in Hg as (n1 & Hn1 & Hg).
  apply bind_Some in Hg as (q2 & Hq2 & Hg).
  apply bind_Some in Hg as (n2 & Hn2 & Hg).
  apply bind_Some in Hg as ([U' log'] & Hsteps & Hg). injection Hg as <- <-.
  apply np_stack_Some in HU0 as [-> _].
  by eapply patch_steps_shape.
Qed.

Lemma length_concat_shape n m U : has_shape n m U → length (concat U) = n * m.
Proof.
  intros [<- Hall]. induction Hall as [|r U Hr Hall IH]; simpl; [done|].
  rewrite length_app. lia.
Qed.

(** C7. For a flat vector [u0_numpy] of length
    [n_teeth * n_points_per_tooth], a call of [psiPatch] that returns,
    returns a vector of the same length, equal to [u0_numpy] minus the
    concatenation of the rows that [gaptooth_PI_vectorised] returns on the
    patches of [u0_numpy]; and every call, returning or raising,
    publishes the count of the closure in [psiPatch.count], which is one
    more than the count published before. *)
Theorem psiPatch_residual c u0_numpy x (x0 : list F) dx dt Dt (K : Z) T_patch T_psi p :
  x !! 0 = Some x0 → length u0_numpy = length x * length x0 →
  let out := psiPatch c u0_numpy x dx dt Dt K T_patch T_psi p in
  (∀ r, out.2 = Some r →
     length r = length u0_numpy ∧
     ∃ u0_patch rows,
       toPatch x u0_numpy = Some u0_patch ∧
       gaptooth_PI_vectorised u0_patch x dx dt Dt K T_patch T_psi p = Some rows ∧
       r = zip_with f_sub u0_numpy (concat rows)) ∧
  attr_count out.1 = closure_count out.1 ∧
  (attr_count c = closure_count c → attr_count out.1 = (attr_count c + 1)%Z).
Proof.
  intros Hx0 Hlen. simpl. split_and!; [|done|by intros ->].
  intros r. unfold psiPatch_body. intros Hb.
  apply bind_Some in Hb as (P & HP & Hb).
  apply bind_Some in Hb as (rows & Hrows & Hb).
  apply bind_Some in Hb as (flat & Hflat & Hb).
  pose proof (toPatch_shape _ _ _ _ Hx0 Hlen HP) as HPs.
  pose proof (gaptooth_shape _ _ _ _ _ _ _ _ _ _ _ _ HPs Hrows) as Hrs.
  assert (0 < length x) as Hpos by (by eapply lookup_lt_Some).
  rewrite (toNumpyArray_uniform (length x0)) in Hflat.
  2:{ destruct Hrs as [Hn _]. destruct rows; [simpl in Hn; lia|done]. }
  2:{ by destruct Hrs. }
  injection Hflat as <-.
  pose proof (length_concat_shape _ _ _ Hrs) as Hcat.
  rewrite broadcast2_same in Hb by lia. injection Hb as <-.
  split; [rewrite length_zip_with; lia|]. by exists P, rows.
Qed.

(** Neither [projective_microcycle] nor the driver compares [Dt] with
    [K*dt]: whatever the order of the two, both return as soon as the
    shapes allow the boundary conditions and the loop counts exist (for a
    count [K] of [int_converts], where [K*dt] can be evaluated). *)
Lemma time_scales_unchecked n m U x dx dt Dt (K : Z) T_patch T ls rs p
    q1 q2 (n_patch_steps n_PI_steps : Z) :
  has_shape n m U → steppable n m → length ls = n → length rs = n →
  is_Some (f_sqr dx) →
  length x = n → Forall (λ xs, 0 < length xs) x →
  f_pydiv T T_patch = Some q1 → f_round_int q1 = Some n_patch_steps →
  f_pydiv T_patch Dt = Some q2 → f_round_int q2 = Some n_PI_steps →
  (∃ U_prev U_last R,
     projective_microcycle U dx dt Dt K ls rs p = Some R ∧
     euler_step U_prev dx dt ls rs p = Some U_last ∧
     impose_bcs
       (mzip f_add U_last
          (mmap (f_mul (f_sub Dt (f_mul (f_of_int K) dt)))
             (mmap (λ v, f_div v dt) (mzip f_sub U_last U_prev))))
       dx ls rs = Some R) ∧
  is_Some (gaptooth_PI_vectorised U x dx dt Dt K T_patch T p).
Proof.
  intros HU Hnm Hls Hrs Hdx Hx Hall Hq1 Hn1 Hq2 Hn2. split.
  - destruct (projective_microcycle_is_Some n m U dx dt Dt K ls rs p) as [R HR];
      [done..|].
    pose proof HR as HR'. unfold projective_microcycle in HR'.
    apply bind_Some in HR' as (U_prev & Hprev & HR').
    apply bind_Some in HR' as (U_last & Hlast & HR').
    by exists U_prev, U_last, R.
  - unfold gaptooth_PI_vectorised, gaptooth_run.
    rewrite (np_stack_shape n m) by (done || by destruct Hnm). simpl.
    rewrite Hq1. simpl. rewrite Hn1. simpl. rewrite Hq2. simpl. rewrite Hn2. simpl.
    destruct (patch_steps_is_Some dx dt Dt K p x n m (Z.to_nat n_PI_steps)
                (Z.to_nat n_patch_steps) U []) as [[U' log'] Hs]; [done..|].
    rewrite Hs. simpl. done.
Qed.
End DriverFacts.

(** * The sign of a float difference *)

Section Sign.
Open Scope Z_scope.
Variables prec emax : Z.
Hypothesis Hprec : 0 < prec.

Abbreviation signed := B64.signed.

Lemma digits2_pos_bounds (m : positive) :
  2 ^ (Z.pos (digits2_pos m) - 1) ≤ Z.pos m < 2 ^ Z.pos (digits2_pos m).
Proof.
  induction m as [m IH|m IH|]; simpl digits2_pos.
  - rewrite Pos2Z.inj_succ. replace (Z.succ (Z.pos (digits2_pos m)) - 1)
      with (Z.succ (Z.pos (digits2_pos m) - 1)) by lia.
    rewrite !Z.pow_succ_r by lia. lia.
  - rewrite Pos2Z.inj_succ. replace (Z.succ (Z.pos (digits2_pos m)) - 1)
      with (Z.succ (Z.pos (digits2_pos m) - 1)) by lia.
    rewrite !Z.pow_succ_r by lia. lia.
  - simpl. lia.
Qed.

Lemma shr_1_m mrs : 0 ≤ shr_m mrs → shr_m (shr_1 mrs) = shr_m mrs / 2.
Proof.
  destruct mrs as [m r s]. cbn [shr_m]. intros Hm.
  destruct m as [|[p|p|]|p]; cbn [shr_1 shr_m]; try lia.
  - reflexivity.
  - apply Z.div_unique with 1; lia.
  - apply Z.div_unique with 0; lia.
  - reflexivity.
Qed.

Lemma iter_shr_1_m (p : positive) : ∀ mrs,
  0 ≤ shr_m mrs → shr_m (SpecFloat.iter_pos shr_1 p mrs) = shr_m mrs / 2 ^ Z.pos p.
Proof.
  assert (∀ m, 0 ≤ m → 0 ≤ m / 2) as Hhalf by (intros; apply Z.div_pos; lia).
  assert (∀ m q, 0 ≤ m → 0 ≤ m / 2 ^ Z.pos q) as Hpow
    by (intros; apply Z.div_pos; [lia|apply Z.pow_pos_nonneg; lia]).
  induction p as [p IH|p IH|]; intros mrs Hm; cbn [SpecFloat.iter_pos].
  - assert (0 ≤ shr_m (shr_1 mrs)) as H1 by (rewrite shr_1_m; auto).
    assert (0 ≤ shr_m (SpecFloat.iter_pos shr_1 p (shr_1 mrs))) as H2
      by (rewrite IH; auto).
    rewrite (IH _ H2), (IH _ H1), (shr_1_m _ Hm).
    rewrite !Z.div_div by (try apply Z.pow_pos_nonneg; lia).
    f_equal. replace (Z.pos p~1) with (1 + Z.pos p + Z.pos p) by lia.
    rewrite !Z.pow_add_r by lia. lia.
  - assert (0 ≤ shr_m (SpecFloat.iter_pos shr_1 p mrs)) as H2
      by (rewrite IH; auto).
    rewrite (IH _ H2), (IH _ Hm).
    rewrite !Z.div_div by (try apply Z.pow_pos_nonneg; lia).
    f_equal. replace (Z.pos p~0) with (Z.pos p + Z.pos p) by lia.
    rewrite !Z.pow_add_r by lia. lia.
  - by rewrite shr_1_m.
Qed.

(** Shifting a positive mantissa to its canonical exponent keeps it
    positive, at an exponent that is not below [emin]. *)
Lemma shr_fexp_pos (m : positive) e l :
  emin prec emax ≤ e →
  0 < shr_m (shr_fexp prec emax (Z.pos m) e l).1 ∧
  emin prec emax ≤ (shr_fexp prec emax (Z.pos m) e l).2.
Proof.
  intros He. unfold shr_fexp, shr. simpl Zdigits2.
  assert (shr_m (shr_record_of_loc (Z.pos m) l) = Z.pos m) as Hrec
    by (by destruct l as [|[]]).
  destruct (fexp prec emax (Z.pos (digits2_pos m) + e) - e) as [|n|n] eqn:Hn;
    simpl; rewrite ?Hrec; try (split; lia).
  rewrite iter_shr_1_m by (rewrite Hrec; lia). rewrite Hrec.
  unfold fexp in Hn.
  assert (Z.pos n = Z.pos (digits2_pos m) - prec) as Hn' by lia.
  pose proof (digits2_pos_bounds m) as [Hlow _].
  split; [|lia].
  apply Z.lt_le_trans with (2 ^ (prec - 1)); [apply Z.pow_pos_nonneg; lia|].
  apply Z.div_le_lower_bound; [apply Z.pow_pos_nonneg; lia|].
  rewrite <- Z.pow_add_r by lia.
  replace (Z.pos n + (prec - 1)) with (Z.pos (digits2_pos m) - 1) by lia. done.
Qed.

Lemma round_nearest_even_pos m l : 0 < m → 0 < round_nearest_even m l.
Proof.
  intros Hm. destruct l as [|[]]; simpl; try done; [|lia].
  destruct (Z.even m); lia.
Qed.

Lemma binary_round_aux_signed sx (mx : positive) ex lx :
  emin prec emax ≤ ex → signed sx (binary_round_aux prec emax sx (Z.pos mx) ex lx).
Proof.
  intros He. unfold binary_round_aux.
  destruct (shr_fexp_pos mx ex lx He) as [Hm1 He1].
  destruct (shr_fexp prec emax (Z.pos mx) ex lx) as [mrs' e']. simpl in Hm1, He1.
  pose proof (round_nearest_even_pos (shr_m mrs') (loc_of_shr_record mrs') Hm1) as Hr.
  destruct (round_nearest_even (shr_m mrs') (loc_of_shr_record mrs')) as [|m2|m2];
    try lia.
  destruct (shr_fexp_pos m2 e' loc_Exact He1) as [Hm2 He2].
  destruct (shr_fexp prec emax (Z.pos m2) e' loc_Exact) as [mrs'' e''].
  simpl in Hm2, He2.
  destruct (shr_m mrs'') as [|m3|m3]; try lia.
  by destruct (e'' <=? emax - prec).
Qed.

(** Rounding a non-zero integer gives a float of its sign: a finite one,
    or an infinity on overflow. *)
Lemma binary_round_signed sx mx ex :
  emin prec emax ≤ ex → signed sx (binary_round prec emax sx mx ex).
Proof.
  intros He. unfold binary_round, shl_align.
  destruct (fexp prec emax (Z.pos (digits2_pos mx) + ex) - ex) as [|n|n] eqn:Hn;
    apply binary_round_aux_signed; try done.
  unfold fexp. lia.
Qed.

Lemma iter_xO_pow2 (m d : positive) :
  Z.pos (Pos.iter xO m d) = Z.pos m * 2 ^ Z.pos d.
Proof.
  induction d as [|d IH] using Pos.peano_ind.
  - simpl. lia.
  - rewrite Pos.iter_succ, Pos2Z.inj_xO, IH, Pos2Z.inj_succ, Z.pow_succ_r by lia. lia.
Qed.

Lemma shl_align_value m e ez :
  ez ≤ e → Z.pos (shl_align m e ez).1 = Z.pos m * 2 ^ (e - ez).
Proof.
  intros Hle. unfold shl_align.
  destruct (ez - e) as [|n|n] eqn:Hn; simpl; try lia.
  - replace (e - ez) with 0 by lia. lia.
  - rewrite iter_xO_pow2. f_equal. f_equal. lia.
Qed.

(** What validity says of a finite float: the exponent is not below
    [emin], the mantissa has at most [prec] digits, and exactly [prec]
    above [emin]. *)
Lemma bounded_inv m e :
  bounded prec emax m e = true →
  emin prec emax ≤ e ∧ Z.pos (digits2_pos m) ≤ prec ∧
  (emin prec emax < e → Z.pos (digits2_pos m) = prec).
Proof.
  unfold bounded, canonical_mantissa, fexp.
  intros Hb. apply andb_prop in Hb as [Hc _]. apply Z.eqb_eq in Hc. lia.
Qed.

(** Of two valid positive floats, the one with the smaller exponent, or
    with the same exponent and the smaller mantissa, is the smaller
    number. *)
Lemma aligned_lt ma ea mb eb :
  bounded prec emax ma ea = true → bounded prec emax mb eb = true →
  ea < eb ∨ (ea = eb ∧ (ma < mb)%positive) →
  Z.pos ma * 2 ^ (ea - Z.min ea eb) < Z.pos mb * 2 ^ (eb - Z.min ea eb).
Proof.
  intros Ha Hb Hlt.
  destruct (bounded_inv _ _ Ha) as (Hea & Hda & _).
  destruct (bounded_inv _ _ Hb) as (Heb & _ & Hdb).
  destruct Hlt as [Hlt|[-> Hlt]].
  - rewrite Z.min_l by lia. rewrite Z.sub_diag, Z.mul_1_r.
    pose proof (digits2_pos_bounds ma) as [_ Hup].
    pose proof (digits2_pos_bounds mb) as [Hlow _].
    rewrite Hdb in Hlow by lia.
    assert (2 ^ Z.pos (digits2_pos ma) ≤ 2 ^ prec) as Hpa
      by (apply Z.pow_le_mono_r; lia).
    assert (2 ^ 1 ≤ 2 ^ (eb - ea)) as Hpe by (apply Z.pow_le_mono_r; lia).
    assert (2 ^ prec = 2 ^ (prec - 1) * 2) as Hpp.
    { replace prec with (Z.succ (prec - 1)) at 1 by lia.
      rewrite Z.pow_succ_r by lia. lia. }
    change (2 ^ 1) with 2 in Hpe. nia.
  - rewrite Z.min_id, Z.sub_diag, !Z.mul_1_r. lia.
Qed.

Lemma signed_true_lt_zero r : signed true r → SFltb r (S754_zero false) = true.
Proof. destruct r as [| | |s m e]; simpl; try done; by intros ->. Qed.

(** On valid floats, [a < b] makes [a - b] negative: rounding does not
    bring the difference of two floats to zero. *)
Lemma SFsub_negative a b :
  valid_binary prec emax a = true → valid_binary prec emax b = true →
  SFltb a b = true → SFltb (SFsub prec emax a b) (S754_zero false) = true.
Proof.
  intros Ha Hb Hlt. apply signed_true_lt_zero.
  destruct a as [sa|sa| |sa ma ea], b as [sb|sb| |sb mb eb];
    try discriminate Hlt;
    try (destruct sa; try discriminate Hlt; reflexivity);
    try (destruct sb; try discriminate Hlt; reflexivity);
    try (destruct sa, sb; try discriminate Hlt; reflexivity).
  simpl in Ha, Hb. unfold SFsub.
  destruct (bounded_inv _ _ Ha) as (Hea & _), (bounded_inv _ _ Hb) as (Heb & _).
  set (ez := Z.min ea eb).
  pose proof (shl_align_value ma ea ez ltac:(lia)) as HA.
  pose proof (shl_align_value mb eb ez ltac:(lia)) as HB.
  assert (cond_Zopp sa (Z.pos (shl_align ma ea ez).1) -
          cond_Zopp sb (Z.pos (shl_align mb eb ez).1) < 0) as Hneg.
  { unfold SFltb, SFcompare in Hlt.
    destruct sa, sb; simpl cond_Zopp; try discriminate Hlt; [|lia|].
    - destruct (ea ?= eb) eqn:Hc; try discriminate Hlt.
      + apply Z.compare_eq in Hc. subst eb.
        destruct (Pos.compare_cont Eq ma mb) eqn:Hm; try discriminate Hlt.
        pose proof (aligned_lt mb ea ma ea Hb Ha) as Hal.
        subst ez. rewrite Z.min_id in Hal, HA, HB |- *.
        rewrite HA, HB. apply Pos.compare_gt_iff in Hm.
        specialize (Hal (or_intror (conj eq_refl Hm))). lia.
      + apply Z.compare_gt_iff in Hc.
        pose proof (aligned_lt mb eb ma ea Hb Ha (or_introl Hc)) as Hal.
        rewrite Z.min_comm in Hal. fold ez in Hal. rewrite HA, HB. lia.
    - destruct (ea ?= eb) eqn:Hc; try discriminate Hlt.
      + apply Z.compare_eq in Hc. subst eb.
        destruct (Pos.compare_cont Eq ma mb) eqn:Hm; try discriminate Hlt.
        pose proof (aligned_lt ma ea mb ea Ha Hb) as Hal.
        subst ez. rewrite Z.min_id in Hal, HA, HB |- *.
        rewrite HA, HB. apply Pos.compare_lt_iff in Hm.
        specialize (Hal (or_intror (conj eq_refl Hm))). lia.
      + apply Z.compare_lt_iff in Hc.
        pose proof (aligned_lt ma ea mb eb Ha Hb (or_introl Hc)) as Hal.
        fold ez in Hal. rewrite HA, HB. lia. }
  destruct (cond_Zopp sa (Z.pos (shl_align ma ea ez).1) -
            cond_Zopp sb (Z.pos (shl_align mb eb ez).1)) as [|d|d]; try lia.
  simpl. apply binary_round_signed. lia.
Qed.
End Sign.

(** * The conversion of an integer *)

Section Conversion.
Open Scope Z_scope.
Variables prec emax : Z.
Hypothesis Hprec : 0 < prec.
Hypothesis Hemax : prec < emax.

Lemma iter_pos_nat {A : Type} (f : A → A) (p : positive) : ∀ x,
  SpecFloat.iter_pos f p x = Nat.iter (Pos.to_nat p) f x.
Proof.
  induction p as [p IH|p IH|]; intros x; cbn [SpecFloat.iter_pos].
  - rewrite !IH, Pos2Nat.inj_xI.
    replace (S (2 * Pos.to_nat p))%nat with (Pos.to_nat p + S (Pos.to_nat p))%nat
      by lia.
    rewrite Nat.iter_add. f_equal. by rewrite Nat.iter_succ_r.
  - rewrite !IH, Pos2Nat.inj_xO.
    replace (2 * Pos.to_nat p)%nat with (Pos.to_nat p + Pos.to_nat p)%nat by lia.
    by rewrite Nat.iter_add.
  - done.
Qed.

Lemma nat_iter_shr_m (j : nat) mrs :
  0 ≤ shr_m mrs → shr_m (Nat.iter j shr_1 mrs) = shr_m mrs / 2 ^ Z.of_nat j.
Proof.
  intros Hm. induction j as [|j IH].
  - simpl. by rewrite Z.div_1_r.
  - rewrite Nat.iter_succ, shr_1_m.
    + rewrite IH, Z.div_div by (try apply Z.pow_pos_nonneg; lia).
      f_equal. rewrite Nat2Z.inj_succ, Z.pow_succ_r by lia. lia.
    + rewrite IH. apply Z.div_pos; [done|]. apply Z.pow_pos_nonneg; lia.
Qed.

Lemma shr_1_r mrs : 0 ≤ shr_m mrs → shr_r (shr_1 mrs) = Z.odd (shr_m mrs).
Proof.
  destruct mrs as [m r s]. cbn [shr_m]. intros Hm.
  by destruct m as [|[p|p|]|p]; cbn [shr_1 shr_r]; try lia.
Qed.

(** The round bit after a shift by [k] is the bit [k - 1] of the
    mantissa. *)
Lemma iter_shr_1_r (k : positive) mrs :
  0 ≤ shr_m mrs →
  shr_r (SpecFloat.iter_pos shr_1 k mrs) = Z.odd (shr_m mrs / 2 ^ (Z.pos k - 1)).
Proof.
  intros Hm. rewrite iter_pos_nat.
  destruct (Pos.to_nat k) as [|j] eqn:Hk; [lia|].
  rewrite Nat.iter_succ, shr_1_r.
  - rewrite nat_iter_shr_m by done. do 2 f_equal.
    rewrite <- (positive_nat_Z k), Hk. f_equal. lia.
  - rewrite nat_iter_shr_m by done.
    apply Z.div_pos; [done|]. apply Z.pow_pos_nonneg; lia.
Qed.

Lemma round_nearest_even_cases mrs :
  let m := round_nearest_even (shr_m mrs) (loc_of_shr_record mrs) in
  shr_m mrs ≤ m ≤ shr_m mrs + 1 ∧
  (Z.odd (shr_m mrs) = true → m = shr_m mrs + (if shr_r mrs then 1 else 0)).
Proof.
  destruct mrs as [m [|] [|]]; cbn [shr_m shr_r loc_of_shr_record round_nearest_even].
  - split; [lia|]. done.
  - rewrite <- Z.negb_odd. destruct (Z.odd m); simpl; split; (lia || done).
  - split; [lia|]. intros _. lia.
  - split; [lia|]. intros _. lia.
Qed.

Lemma digits2_pos_unique (q : positive) (k : Z) :
  2 ^ (k - 1) ≤ Z.pos q < 2 ^ k → Z.pos (digits2_pos q) = k.
Proof.
  intros [Hlo Hhi]. pose proof (digits2_pos_bounds q) as [Hlo' Hhi'].
  assert (0 < k) as Hk.
  { destruct (Z.ltb_spec 0 k) as [|Hle]; [done|].
    assert (2 ^ k ≤ 2 ^ 0) by (destruct (Z.ltb_spec k 0);
      [rewrite Z.pow_neg_r by done; simpl; lia|apply Z.pow_le_mono_r; lia]).
    simpl in *. lia. }
  apply Z.le_antisymm.
  - apply Z.lt_succ_r. unfold Z.succ.
    apply (Z.pow_lt_mono_r_iff 2); [lia|lia|].
    replace (k + 1) with (Z.succ k) by lia. rewrite Z.pow_succ_r by lia.
    replace (2 ^ Z.pos (digits2_pos q)) with (2 * 2 ^ (Z.pos (digits2_pos q) - 1)).
    2:{ rewrite <- Z.pow_succ_r by lia. f_equal. lia. }
    lia.
  - apply Z.lt_succ_r. unfold Z.succ.
    apply (Z.pow_lt_mono_r_iff 2); [lia|lia|].
    replace (Z.pos (digits2_pos q) + 1) with (Z.succ (Z.pos (digits2_pos q))) by lia.
    rewrite Z.pow_succ_r by lia.
    replace (2 ^ k) with (2 * 2 ^ (k - 1)).
    2:{ rewrite <- Z.pow_succ_r by lia. f_equal. lia. }
    lia.
Qed.

Lemma digits2_pos_iter_xO (q k : positive) :
  Z.pos (digits2_pos (Pos.iter xO q k)) = Z.pos (digits2_pos q) + Z.pos k.
Proof.
  apply digits2_pos_unique. rewrite iter_xO_pow2.
  pose proof (digits2_pos_bounds q) as [Hlo Hhi].
  replace (Z.pos (digits2_pos q) + Z.pos k - 1)
    with (Z.pos (digits2_pos q) - 1 + Z.pos k) by lia.
  rewrite !Z.pow_add_r by lia.
  assert (0 < 2 ^ Z.pos k) by (apply Z.pow_pos_nonneg; lia). nia.
Qed.

Lemma emin_le : emin prec emax ≤ 1 - prec.
Proof. unfold emin. lia. Qed.

Lemma binary_round_aux_no_shift s (m : positive) e :
  fexp prec emax (Z.pos (digits2_pos m) + e) ≤ e →
  binary_round_aux prec emax s (Z.pos m) e loc_Exact
  = if e <=? emax - prec then S754_finite s m e else S754_infinity s.
Proof.
  intros Hle. unfold binary_round_aux, shr_fexp.
  cbn [Zdigits2 shr_record_of_loc]. unfold shr.
  destruct (fexp prec emax (Z.pos (digits2_pos m) + e) - e) as [|n|n] eqn:Hn;
    try lia.
  - cbn [shr_m loc_of_shr_record round_nearest_even Zdigits2 shr_record_of_loc].
    by rewrite Hn.
  - cbn [shr_m loc_of_shr_record round_nearest_even Zdigits2 shr_record_of_loc].
    by rewrite Hn.
Qed.

(** The second rounding stage, on a mantissa of [prec] digits or on
    [2^prec]. *)
Lemma second_stage s (mr : positive) e :
  0 < e → 2 ^ (prec - 1) ≤ Z.pos mr ≤ 2 ^ prec →
  B64.is_finite
    (let '(mrs, e') := shr_fexp prec emax (Z.pos mr) e loc_Exact in
     match shr_m mrs with
     | Z0 => S754_zero s
     | Z.pos m => if e' <=? emax - prec then S754_finite s m e'
                  else S754_infinity s
     | Z.neg _ => S754_nan
     end) = true
  ↔ (Z.pos mr < 2 ^ prec ∧ e ≤ emax - prec) ∨
    (Z.pos mr = 2 ^ prec ∧ e + 1 ≤ emax - prec).
Proof.
  intros He [Hlo Hhi]. pose proof emin_le as Hemin.
  unfold shr_fexp. cbn [Zdigits2 shr_record_of_loc].
  destruct (Z.eq_dec (Z.pos mr) (2 ^ prec)) as [Heq|Hne].
  - assert (Z.pos (digits2_pos mr) = prec + 1) as ->.
    { apply digits2_pos_unique. replace (prec + 1 - 1) with prec by lia.
      rewrite Z.pow_add_r by lia. lia. }
    replace (fexp prec emax (prec + 1 + e) - e) with 1
      by (unfold fexp; lia).
    unfold shr. cbn [SpecFloat.iter_pos].
    assert (0 < shr_m (shr_1 {| shr_m := Z.pos mr; shr_r := false; shr_s := false |}))
      as Hpos.
    { rewrite shr_1_m by (simpl; lia). cbn [shr_m]. rewrite Heq.
      replace prec with (Z.succ (prec - 1)) by lia.
      rewrite Z.pow_succ_r by lia.
      rewrite Z.mul_comm, Z.div_mul by lia.
      apply Z.pow_pos_nonneg; lia. }
    destruct (shr_m (shr_1 _)) as [|m|m]; try lia.
    destruct (Z.leb_spec (e + 1) (emax - prec)); simpl; split.
    + intros _. right. lia.
    + done.
    + done.
    + intros [[? _]|[_ ?]]; lia.
  - assert (Z.pos (digits2_pos mr) = prec) as ->.
    { apply digits2_pos_unique. lia. }
    replace (fexp prec emax (prec + e) - e) with 0 by (unfold fexp; lia).
    unfold shr. cbn [shr_m].
    destruct (Z.leb_spec e (emax - prec)); simpl; split.
    + intros _. left. lia.
    + done.
    + done.
    + intros [[_ ?]|[? _]]; lia.
Qed.

Lemma below_half (p : positive) :
  Z.pos (digits2_pos p) ≤ emax - 1 →
  Z.pos p < 2 ^ emax - 2 ^ (emax - prec - 1).
Proof.
  intros Hd. pose proof (digits2_pos_bounds p) as [_ Hhi].
  assert (2 ^ Z.pos (digits2_pos p) ≤ 2 ^ (emax - 1))
    by (apply Z.pow_le_mono_r; lia).
  assert (2 ^ (emax - prec - 1) ≤ 2 ^ (emax - 1))
    by (apply Z.pow_le_mono_r; lia).
  replace (2 ^ emax) with (2 * 2 ^ (emax - 1)).
  2:{ rewrite <- Z.pow_succ_r by lia. f_equal. lia. }
  lia.
Qed.

(** The rounded mantissa reaches [2^prec] exactly from
    [2^d - 2^(d - prec - 1)] on, for a number of [d > prec] digits. *)
Lemma round_reaches_pow (p k : positive) :
  Z.pos (digits2_pos p) = prec + Z.pos k →
  let mrs := SpecFloat.iter_pos shr_1 k
               {| shr_m := Z.pos p; shr_r := false; shr_s := false |} in
  let mr := round_nearest_even (shr_m mrs) (loc_of_shr_record mrs) in
  2 ^ (prec - 1) ≤ mr ≤ 2 ^ prec ∧
  (mr = 2 ^ prec ↔ 2 ^ (prec + Z.pos k) - 2 ^ (Z.pos k - 1) ≤ Z.pos p).
Proof.
  intros Hd mrs mr.
  pose proof (digits2_pos_bounds p) as [Hlo Hhi]. rewrite Hd in Hlo, Hhi.
  set (B := 2 ^ (Z.pos k - 1)).
  set (P := 2 ^ (prec - 1)).
  assert (0 < B) as HB by (apply Z.pow_pos_nonneg; lia).
  assert (0 < P) as HP by (apply Z.pow_pos_nonneg; lia).
  assert (2 ^ Z.pos k = 2 * B) as Hk.
  { unfold B. rewrite <- Z.pow_succ_r by lia. f_equal. lia. }
  assert (2 ^ prec = 2 * P) as Hp.
  { unfold P. rewrite <- Z.pow_succ_r by lia. f_equal. lia. }
  assert (2 ^ (prec + Z.pos k) = 4 * P * B) as Hpk.
  { rewrite Z.pow_add_r by lia. lia. }
  assert (2 ^ (prec + Z.pos k - 1) = 2 * P * B) as Hpk1.
  { replace (prec + Z.pos k - 1) with (prec - 1 + Z.pos k) by lia.
    rewrite Z.pow_add_r by lia. fold P. lia. }
  rewrite Hpk1 in Hlo. rewrite Hpk in Hhi. rewrite Hp, Hpk. fold B.
  assert (shr_m mrs = Z.pos p / (2 * B)) as Hm.
  { unfold mrs. rewrite iter_shr_1_m by (simpl; lia). cbn [shr_m]. by rewrite Hk. }
  assert (shr_r mrs = Z.odd (Z.pos p / B)) as Hr.
  { unfold mrs. rewrite iter_shr_1_r by (simpl; lia). done. }
  set (q := Z.pos p / B) in *.
  assert (B * q ≤ Z.pos p < B * q + B) as Hq.
  { pose proof (Z.mul_div_le (Z.pos p) B HB).
    pose proof (Z.mul_succ_div_gt (Z.pos p) B HB). fold q in H, H0. lia. }
  assert (Z.pos p / (2 * B) = q / 2) as Hq2.
  { unfold q. rewrite Z.mul_comm, Z.div_div by lia. done. }
  rewrite Hq2 in Hm.
  assert (q = 2 * (q / 2) + (if Z.odd q then 1 else 0)) as Hodd.
  { rewrite (Z.div_mod q 2) at 1 by lia. f_equal.
    rewrite Zmod_odd. done. }
  set (m := q / 2) in *.
  assert (2 * P ≤ q < 4 * P) as Hqb by nia.
  assert (P ≤ m < 2 * P) as Hmb by (destruct (Z.odd q); lia).
  destruct (round_nearest_even_cases mrs) as [Hbetween Hup].
  fold mr in Hbetween, Hup. rewrite Hm in Hbetween, Hup.
  split; [lia|]. split.
  - intros Hmr. assert (m = 2 * P - 1) as Hm' by lia.
    assert (Z.odd m = true) as Hmo.
    { rewrite Hm'. replace (2 * P - 1) with (1 + 2 * (P - 1)) by lia.
      by rewrite Z.odd_add_mul_2. }
    specialize (Hup Hmo). rewrite Hr in Hup.
    destruct (Z.odd q); nia.
  - intros Hge. assert (q = 4 * P - 1) as Hq' by nia.
    assert (Z.odd q = true) as Hqo.
    { rewrite Hq'. replace (4 * P - 1) with (1 + 2 * (2 * P - 1)) by lia.
      by rewrite Z.odd_add_mul_2. }
    rewrite Hqo in Hodd. assert (m = 2 * P - 1) as Hm' by lia.
    assert (Z.odd m = true) as Hmo.
    { rewrite Hm'. replace (2 * P - 1) with (1 + 2 * (P - 1)) by lia.
      by rewrite Z.odd_add_mul_2. }
    specialize (Hup Hmo). rewrite Hr, Hqo in Hup. lia.
Qed.

(** The nearest float of a positive integer is finite exactly below
    [2^emax - 2^(emax - prec - 1)]. *)
Lemma binary_round_finite_iff s (p : positive) :
  B64.is_finite (binary_round prec emax s p 0) = true
  ↔ Z.pos p < 2 ^ emax - 2 ^ (emax - prec - 1).
Proof.
  pose proof emin_le as Hemin.
  pose proof (digits2_pos_bounds p) as [Hlo Hhi].
  unfold binary_round, shl_align.
  assert (fexp prec emax (Z.pos (digits2_pos p) + 0)
          = Z.pos (digits2_pos p) - prec) as Hf by (unfold fexp; lia).
  rewrite Hf.
  destruct (Z.pos (digits2_pos p) - prec - 0) as [|k|k] eqn:Hk.
  - rewrite binary_round_aux_no_shift by (rewrite Hf; lia).
    rewrite (proj2 (Z.leb_le 0 (emax - prec))) by lia. simpl.
    split; [intros _|done]. apply below_half. lia.
  - unfold binary_round_aux.
    unfold shr_fexp at 1. cbn [Zdigits2 shr_record_of_loc].
    rewrite Hf. replace (Z.pos (digits2_pos p) - prec - 0) with (Z.pos k) by lia.
    unfold shr at 1.
    destruct (round_reaches_pow p k ltac:(lia)) as [Hmr Hiff].
    set (mrs := SpecFloat.iter_pos shr_1 k
                  {| shr_m := Z.pos p; shr_r := false; shr_s := false |}) in *.
    set (mr := round_nearest_even (shr_m mrs) (loc_of_shr_record mrs)) in *.
    assert (0 < 2 ^ (prec - 1)) by (apply Z.pow_pos_nonneg; lia).
    destruct mr as [|mq|mq] eqn:Hmreq; try lia.
    rewrite (second_stage s mq (0 + Z.pos k)) by lia.
    assert (Z.pos (digits2_pos p) = prec + Z.pos k) as Hd by lia.
    rewrite Hd in Hlo, Hhi.
    destruct (Z.lt_trichotomy (prec + Z.pos k) emax) as [Hlt|[Heq|Hgt]].
    + split.
      * intros _. apply below_half. lia.
      * intros _. destruct (Z.eq_dec (Z.pos mq) (2 ^ prec)); [right|left]; lia.
    + rewrite Heq in Hiff, Hhi.
      replace (emax - prec - 1) with (Z.pos k - 1) by lia.
      split.
      * intros [[Hlt _]|[_ Hbad]]; [|lia].
        destruct (Z.lt_ge_cases (Z.pos p) (2 ^ emax - 2 ^ (Z.pos k - 1)))
          as [|Hge]; [done|].
        apply Hiff in Hge. lia.
      * intros Hlt. left. split; [|lia].
        destruct (Z.eq_dec (Z.pos mq) (2 ^ prec)) as [He|]; [|lia].
        apply Hiff in He. lia.
    + split.
      * intros [[_ ?]|[_ ?]]; lia.
      * intros Hbad. exfalso.
        assert (2 ^ emax ≤ 2 ^ (prec + Z.pos k - 1))
          by (apply Z.pow_le_mono_r; lia).
        assert (0 < 2 ^ (emax - prec - 1)) by (apply Z.pow_pos_nonneg; lia).
        lia.
  - assert (fexp prec emax (Z.pos (digits2_pos (Pos.iter xO p k))
                           + (Z.pos (digits2_pos p) - prec))
            ≤ Z.pos (digits2_pos p) - prec) as Hle.
    { rewrite digits2_pos_iter_xO. unfold fexp. lia. }
    rewrite binary_round_aux_no_shift by done.
    rewrite (proj2 (Z.leb_le _ (emax - prec))) by lia. simpl.
    split; [intros _|done]. apply below_half. lia.
Qed.
End Conversion.

(** * The projective cycle on binary64 *)

Module B64Facts.
Import B64.

Lemma all_finite_get U k j d :
all_finite U = true → get U k j = Some d → is_finite d = true.
Proof.
unfold all_finite, get. intros Hall Hg.
destruct (U !! k) as [r|] eqn:Hr; simpl in Hg; [|done].
rewrite forallb_forall in Hall.
assert (forallb is_finite r = true) as Hrow.
{ apply Hall, list_elem_of_In, list_elem_of_lookup. by exists k. }
rewrite forallb_forall in Hrow.
apply Hrow, list_elem_of_In, list_elem_of_lookup. by exists j.
Qed.

Lemma same_value_refl x : same_value x x.
Proof. by left. Qed.

Lemma add_zero_same_value u z : is_zero z = true → same_value u (add u z).
Proof.
destruct z as [sz| | |]; try done. intros _.
destruct u as [su| | |]; try (by left).
right. split; [done|]. by destruct su, sz.
Qed.

Lemma mul_zero_finite c d :
is_zero c = true → is_finite d = true → is_zero (mul c d) = true.
Proof. destruct c, d; done. Qed.

Lemma sub_same_value x x' y : same_value x x' → same_value (sub x y) (sub x' y).
Proof.
intros [->|[Hx Hx']]; [by left|].
destruct x as [s| | |], x' as [s'| | |]; try done.
destruct y as [sy| | |]; try (by left).
right. by destruct s, s', sy.
Qed.

Lemma add_same_value x x' y : same_value x x' → same_value (add x y) (add x' y).
Proof.
intros [->|[Hx Hx']]; [by left|].
destruct x as [s| | |], x' as [s'| | |]; try done.
destruct y as [sy| | |]; try (by left).
right. by destruct s, s', sy.
Qed.

Section Cycle.
Variables (fexp : float → float) (fsqr : float → option float).
Local Instance b64 : Float64 float := ops fexp fsqr.

Implicit Types (U V R : list (list float)) (ls rs : list float).

(** C6, for patches of at least three points, or of two points on at
  most two patches, with one slope per patch, a time step [dt] for
  which [dt - 1*dt] is a zero, and finite quotients [(U_last - U) / dt].
  When [euler_step] returns [R], [projective_microcycle] with [K = 1]
  and [Dt = dt] returns an array of the same shape whose entries are
  those of [R], up to the sign of an entry that is a zero. *)
Theorem cycle_K1_is_euler_step n m U dx dt ls rs p R :
has_shape n m U → 3 ≤ m ∨ (m = 2 ∧ n ≤ 2) → length ls = n → length rs = n →
is_zero (sub dt (mul (of_Z 1) dt)) = true →
euler_step U dx dt ls rs p = Some R →
all_finite (mmap (λ v, div v dt) (mzip sub R U)) = true →
∃ R', projective_microcycle U dx dt dt 1 ls rs p = Some R' ∧
      has_shape n m R' ∧
      ∀ k j, k < n → j < m →
        ∃ a b, get R k j = Some a ∧ get R' k j = Some b ∧ same_value a b.
Proof.
intros HU Hm Hls Hrs Hc HR Hfin.
pose proof (euler_step_shape _ _ _ _ _ _ _ _ _ HU HR) as HRs.
pose proof HR as HR0. unfold euler_step in HR0.
apply bind_Some in HR0 as (V & HV & HbV).
pose proof (euler_update_shape _ _ _ _ _ _ _ HU HV) as HVs.
destruct (impose_bcs_corners _ _ _ _ _ _ _ HVs HbV) as (_ & Hn & _ & _ & Hc00 & Hcnm).
pose proof (impose_bcs_entries _ _ _ _ _ _ _ HVs Hls Hrs HbV) as HentV.
set (E := extrapolate U R dt dt 1).
assert (has_shape n m E) as HE by (by apply has_shape_extrapolate).
destruct Hm as [Hm|[-> Hn2]].
2:{ exists R. split_and!; [|done|].
    - unfold projective_microcycle. simpl. rewrite HR. simpl.
      fold E. by rewrite (impose_bcs_small n E V).
    - intros k j Hk Hj. destruct (get_is_Some n 2 R k j HRs Hk Hj) as [a Ha].
      exists a, a. split_and!; [done..|]. apply same_value_refl. }
assert (∀ k j, k < n → j < m →
          ∃ a e, get R k j = Some a ∧ get E k j = Some e ∧ same_value a e) as HER.
{ intros k j Hk Hj.
  destruct (get_is_Some n m R k j HRs Hk Hj) as [a Ha].
  destruct (get_is_Some n m U k j HU Hk Hj) as [b Hb].
  exists a. unfold E. rewrite get_extrapolate, Ha, Hb. simpl.
  eexists. split_and!; [done..|]. apply add_zero_same_value.
  apply mul_zero_finite; [done|].
  apply (all_finite_get _ k j _ Hfin).
  by rewrite get_mmap, get_mzip, Ha, Hb. }
destruct (impose_bcs_is_Some n m E dx ls rs) as [R' HR']; [done|lia..|done|done|].
destruct (impose_bcs_corners _ _ _ _ _ _ _ HE HR') as (HRs' & _).
pose proof (impose_bcs_entries _ _ _ _ _ _ _ HE Hls Hrs HR') as HentE.
exists R'. split_and!; [|done|].
{ unfold projective_microcycle. simpl. rewrite HR. simpl. exact HR'. }
assert (∀ k c, k < n → 0 < c < m - 1 → get R k c = get V k c) as Hin.
{ intros k c Hk Hc'. rewrite HentV by lia. unfold right_edges, left_edges, corners.
  destruct (decide (1 < n)); by rewrite !decide_False by lia. }
assert (∀ k c, k < n → 0 < c < m - 1 →
          ∃ a e, get V k c = Some a ∧ get E k c = Some e ∧ same_value a e) as HEV.
{ intros k c Hk Hc'. rewrite <- Hin by done. apply HER; lia. }
intros k c Hk Hcm.
rewrite HentV, HentE by done.
destruct (decide (1 < n)) as [Hn1|Hn1].
- unfold right_edges, left_edges.
  rewrite !(decide_False (P := 1 ≤ k ∧ m - 2 = 0)) by lia.
  destruct (decide (k < n - 1 ∧ c = m - 1)) as [[? ->]|Hnr].
  + destruct (HEV k (m - 2)) as (a & e & Ha & He & Hae); [lia..|].
    destruct (lookup_lt_is_Some_2 rs k) as [s Hs]; [lia|].
    unfold corners. rewrite !decide_False by lia. rewrite Ha, He, Hs. simpl.
    eexists _, _. split_and!; [done..|]. by apply add_same_value.
  + destruct (decide (1 ≤ k ∧ c = 0)) as [[? ->]|Hnl].
    * destruct (HEV k 1) as (a & e & Ha & He & Hae); [lia..|].
      destruct (lookup_lt_is_Some_2 ls k) as [s Hs]; [lia|].
      unfold corners. rewrite !decide_False by lia. rewrite Ha, He, Hs. simpl.
      eexists _, _. split_and!; [done..|]. by apply sub_same_value.
    * unfold corners. repeat case_decide; try (eexists _, _; split_and!; [done|done|by left]).
      apply HEV; lia.
- unfold corners. repeat case_decide; try (eexists _, _; split_and!; [done|done|by left]).
  apply HEV; lia.
Qed.

(** The conversion of an int is finite exactly on the integers that
  Python converts: where [K*dt] raises OverflowError, and only there,
  [of_Z K] is an infinity. *)
Lemma of_Z_finite_iff (K : Z) : is_finite (of_Z K) = true ↔ int_converts K.
Proof.
unfold int_converts, of_Z, binary_normalize.
destruct K as [|k|k]; cbn [Z.abs].
- split; [intros _; by vm_compute|done].
- apply (binary_round_finite_iff prec emax); reflexivity.
- apply (binary_round_finite_iff prec emax); reflexivity.
Qed.

Lemma sub_lt_negative a b :
valid a = true → valid b = true → lt a b = true → lt (sub a b) zero = true.
Proof. apply SFsub_negative. reflexivity. Qed.

Context {I : Interpolant float}.
Implicit Types (x : list (list float)).

(** C8. For a count [K] that Python converts to a float, and floats
  [Dt] and [K*dt] with [Dt < K*dt]: the conversion of [K] does not
  overflow and the coefficient [Dt - K*dt] is negative;
  [projective_microcycle], on an array on which the boundary conditions
  can be imposed, with one slope per patch and a [dx] that can be
  squared, returns the extrapolation with this coefficient; and
  [gaptooth_PI_vectorised] on such a state, with one non-empty grid per
  patch and loop counts that can be computed, returns. Neither
  compares [Dt] with [K*dt]. *)
Theorem backward_extrapolation_unchecked n m U x dx dt Dt (K : Z) T_patch T
  ls rs p q1 q2 (n_patch_steps n_PI_steps : Z) :
int_converts K →
valid Dt = true → valid (mul (of_Z K) dt) = true →
lt Dt (mul (of_Z K) dt) = true →
has_shape n m U → steppable n m → length ls = n → length rs = n →
is_Some (fsqr dx) →
length x = n → Forall (λ xs, 0 < length xs) x →
pydiv T T_patch = Some q1 → round_int q1 = Some n_patch_steps →
pydiv T_patch Dt = Some q2 → round_int q2 = Some n_PI_steps →
is_finite (of_Z K) = true ∧
lt (sub Dt (mul (of_Z K) dt)) zero = true ∧
(∃ U_prev U_last R,
   projective_microcycle U dx dt Dt K ls rs p = Some R ∧
   euler_step U_prev dx dt ls rs p = Some U_last ∧
   impose_bcs
     (mzip add U_last
        (mmap (mul (sub Dt (mul (of_Z K) dt)))
           (mmap (λ v, div v dt) (mzip sub U_last U_prev))))
     dx ls rs = Some R) ∧
is_Some (gaptooth_PI_vectorised U x dx dt Dt K T_patch T p).
Proof.
intros HK HDt HKdt Hlt HU Hnm Hls Hrs Hdx Hx Hall Hq1 Hn1 Hq2 Hn2.
split; [by apply of_Z_finite_iff|].
split; [by apply sub_lt_negative|].
exact (time_scales_unchecked (H := b64) n m U x dx dt Dt K T_patch T ls rs p
         q1 q2 n_patch_steps n_PI_steps HU Hnm Hls Hrs Hdx Hx Hall
         Hq1 Hn1 Hq2 Hn2).
Qed.
End Cycle.
End B64Facts.

(** * The store layer *)

Section StoreFacts.
Context {F : Type} `{Float64 F} `{Interpolant F}.
Implicit Types (h : store F) (U R : loc) (Uv Rv V : list (list F)) (lsv rsv : list F).

Lemma bind_M_Some {A B} (m : M F A) (f : A → M F B) h b h'' :
  (m ≫= f) h = Some (b, h'') ↔ ∃ a h', m h = Some (a, h') ∧ f a h' = Some (b, h'').
Proof.
  unfold mbind, M_bind. destruct (m h) as [[a h']|]; split.
  - intros Hf. by exists a, h'.
  - by intros (? & ? & [= <- <-] & ?).
  - done.
  - by intros (? & ? & ? & ?).
Qed.

Lemma ret_M_Some {A} (a b : A) h h' : mret (M := M F) a h = Some (b, h') ↔ a = b ∧ h = h'.
Proof. unfold mret, M_ret. split; [by intros [= <- <-]|by intros [<- <-]]. Qed.

Lemma lift_Some {A} (o : option A) h a h' :
  lift o h = Some (a, h') ↔ o = Some a ∧ h' = h.
Proof.
  unfold lift. destruct o; simpl; split; try done.
  - by intros [= <- <-].
  - by intros [[= <-] <-].
  - by intros [? _].
Qed.

Lemma alloc_Some o h l h' : alloc o h = Some (l, h') ↔ l = length h ∧ h' = h ++ [o].
Proof. unfold alloc. split; [by intros [= <- <-]|by intros [-> ->]]. Qed.

Lemma load_mat_Some l h Uv h' :
  load_mat l h = Some (Uv, h') → h !! l = Some (Mat Uv) ∧ h' = h.
Proof.
  unfold load_mat. destruct (h !! l) as [[v|V]|]; try done. by intros [= <- <-].
Qed.

Lemma load_vec_Some l h v h' :
  load_vec l h = Some (v, h') → h !! l = Some (Vec v) ∧ h' = h.
Proof.
  unfold load_vec. destruct (h !! l) as [[w|V]|]; try done. by intros [= <- <-].
Qed.

Lemma update_mat_Some l f h u h' :
  update_mat l f h = Some (u, h') →
  ∃ Uv Rv, h !! l = Some (Mat Uv) ∧ f Uv = Some Rv ∧ h' = <[l := Mat Rv]> h.
Proof.
  unfold update_mat. destruct (h !! l) as [[w|V]|]; try done.
  intros Hb. apply bind_Some in Hb as (Rv & HRv & [= <-]). by exists V, Rv.
Qed.

Lemma impose_bcs_st_Some U dx ls rs h u h' :
  impose_bcs_st U dx ls rs h = Some (u, h') →
  ∃ V lsv rsv Rv,
    h !! U = Some (Mat V) ∧ h !! ls = Some (Vec lsv) ∧ h !! rs = Some (Vec rsv) ∧
    impose_bcs V dx lsv rsv = Some Rv ∧ h' = <[U := Mat Rv]> h.
Proof.
  unfold impose_bcs_st. intros Hb.
  apply bind_M_Some in Hb as (lsv & h1 & Hl & Hb). apply load_vec_Some in Hl as [Hl ->].
  apply bind_M_Some in Hb as (rsv & h1 & Hr & Hb). apply load_vec_Some in Hr as [Hr ->].
  apply update_mat_Some in Hb as (V & Rv & HV & Hb & ->).
  by exists V, lsv, rsv, Rv.
Qed.

(** A micro step creates one object, the array it returns, and leaves
    every other object as it is. *)
Lemma euler_step_st_Some U dx dt ls rs p h R h' :
  euler_step_st U dx dt ls rs p h = Some (R, h') →
  ∃ Uv lsv rsv Rv,
    h !! U = Some (Mat Uv) ∧ h !! ls = Some (Vec lsv) ∧ h !! rs = Some (Vec rsv) ∧
    euler_step Uv dx dt lsv rsv p = Some Rv ∧
    R = length h ∧ h' = h ++ [Mat Rv].
Proof.
  unfold euler_step_st. intros Hb.
  apply bind_M_Some in Hb as (Uv & h1 & HU & Hb). apply load_mat_Some in HU as [HU ->].
  apply bind_M_Some in Hb as (V & h1 & HV & Hb). apply lift_Some in HV as [HV ->].
  apply bind_M_Some in Hb as (l & h1 & Hl & Hb). apply alloc_Some in Hl as [-> ->].
  apply bind_M_Some in Hb as (u & h2 & Hbc & Hb). apply ret_M_Some in Hb as [<- <-].
  apply impose_bcs_st_Some in Hbc as (V' & lsv & rsv & Rv & HV' & Hls & Hrs & Hbc & ->).
  rewrite list_lookup_middle in HV' by done. injection HV' as <-.
  assert (∀ l v, (h ++ [Mat V]) !! l = Some (Vec v) → h !! l = Some (Vec v)) as Hold.
  { intros l v Hl. destruct (decide (l < length h)) as [Hlt|Hge].
    - by rewrite lookup_app_l in Hl.
    - rewrite lookup_app_r in Hl by lia.
      destruct (l - length h) as [|?]; simpl in Hl; [done|].
      by rewrite lookup_nil in Hl. }
  exists Uv, lsv, rsv, Rv. split_and!; [done|by apply Hold|by apply Hold| |done|].
  - unfold euler_step. rewrite HV. simpl. done.
  - replace (length h) with (length h + 0) at 1 by lia.
    by rewrite insert_app_r.
Qed.
End StoreFacts.

Section StoreSteps.
Context {F : Type} `{Float64 F} `{Interpolant F}.
Implicit Types (h : store F) (U R : loc) (Uv Rv V : list (list F)) (lsv rsv : list F).

Lemma repeat_euler_st_Some dx dt ls rs p lsv rsv i : ∀ U h R h' Uv,
  h !! U = Some (Mat Uv) → h !! ls = Some (Vec lsv) → h !! rs = Some (Vec rsv) →
  repeat_step_st i (λ U, euler_step_st U dx dt ls rs p) U h = Some (R, h') →
  ∃ Rv, repeat_step i (λ Uv, euler_step Uv dx dt lsv rsv p) Uv = Some Rv ∧
        h `prefix_of` h' ∧ h' !! R = Some (Mat Rv).
Proof.
  induction i as [|i IH]; intros U h R h' Uv HU Hls Hrs; simpl.
  - intros Hr. apply ret_M_Some in Hr as [<- <-]. by exists Uv.
  - intros Hr. apply bind_M_Some in Hr as (U1 & h1 & Hstep & Hr).
    apply euler_step_st_Some in Hstep
      as (Uv' & lsv' & rsv' & Rv1 & HU' & Hls' & Hrs' & Hpure & -> & ->).
    rewrite HU in HU'. rewrite Hls in Hls'. rewrite Hrs in Hrs'.
    injection HU' as <-. injection Hls' as <-. injection Hrs' as <-.
    destruct (IH (length h) (h ++ [Mat Rv1]) R h' Rv1) as (Rv & Hrep & Hpre & HR);
      [by rewrite list_lookup_middle|by apply lookup_app_l_Some..|done|].
    exists Rv. rewrite Hpure. simpl. split_and!; [done| |done].
    etrans; [|done]. by apply prefix_app_r.
Qed.

(** A projective cycle creates objects and assigns to objects it created:
    the store it leaves extends the store it found, and the array it
    returns is a new object holding the value of the cycle. *)
Lemma projective_microcycle_st_Some U dx dt Dt K ls rs p h R h' Uv lsv rsv :
  h !! U = Some (Mat Uv) → h !! ls = Some (Vec lsv) → h !! rs = Some (Vec rsv) →
  projective_microcycle_st U dx dt Dt K ls rs p h = Some (R, h') →
  ∃ Rv, projective_microcycle Uv dx dt Dt K lsv rsv p = Some Rv ∧
        h `prefix_of` h' ∧ length h ≤ R ∧ h' !! R = Some (Mat Rv).
Proof.
  intros HU Hls Hrs. unfold projective_microcycle_st. intros Hb.
  apply bind_M_Some in Hb as (U1 & h1 & Hrep & Hb).
  destruct (repeat_euler_st_Some _ _ _ _ _ _ _ _ _ _ _ _ _ HU Hls Hrs Hrep)
    as (Uv1 & Hrep' & Hpre1 & HU1).
  apply bind_M_Some in Hb as (U_prev & h2 & Hcopy & Hb).
  unfold copy_mat in Hcopy.
  apply bind_M_Some in Hcopy as (Uc & hc & Hload & Hcopy).
  apply load_mat_Some in Hload as [Hload ->]. apply alloc_Some in Hcopy as [-> ->].
  rewrite HU1 in Hload. injection Hload as <-.
  apply bind_M_Some in Hb as (U2 & h3 & Hstep & Hb).
  apply euler_step_st_Some in Hstep
    as (Uv' & lsv' & rsv' & Uv2 & HU' & Hls' & Hrs' & Hpure & -> & ->).
  pose proof (prefix_lookup_Some _ _ _ _ Hls Hpre1) as Hls1.
  pose proof (prefix_lookup_Some _ _ _ _ Hrs Hpre1) as Hrs1.
  rewrite (lookup_app_l_Some _ _ _ _ HU1) in HU'.
  rewrite (lookup_app_l_Some _ _ _ _ Hls1) in Hls'.
  rewrite (lookup_app_l_Some _ _ _ _ Hrs1) in Hrs'.
  injection HU' as <-. injection Hls' as <-. injection Hrs' as <-.
  apply bind_M_Some in Hb as (Uv2' & h4 & Hl2 & Hb).
  apply load_mat_Some in Hl2 as [Hl2 ->].
  rewrite list_lookup_middle in Hl2 by done. injection Hl2 as <-.
  apply bind_M_Some in Hb as (Up & h4 & Hlp & Hb).
  apply load_mat_Some in Hlp as [Hlp ->].
  rewrite lookup_app_l in Hlp by (rewrite length_app; simpl; lia).
  rewrite list_lookup_middle in Hlp by done. injection Hlp as <-.
  apply bind_M_Some in Hb as (U3 & h5 & Hal & Hb). apply alloc_Some in Hal as [-> ->].
  apply bind_M_Some in Hb as (u & h6 & Hbc & Hb). apply ret_M_Some in Hb as [<- <-].
  apply impose_bcs_st_Some in Hbc as (V' & lsv' & rsv' & Rv & HV' & Hls' & Hrs' & Hbc & ->).
  rewrite list_lookup_middle in HV' by done. injection HV' as <-.
  rewrite <- !app_assoc in Hls', Hrs'.
  rewrite (lookup_app_l_Some _ _ _ _ Hls1) in Hls'.
  rewrite (lookup_app_l_Some _ _ _ _ Hrs1) in Hrs'.
  injection Hls' as <-. injection Hrs' as <-.
  exists Rv. split_and!.
  - unfold projective_microcycle. rewrite Hrep'. simpl. rewrite Hpure. simpl. done.
  - etrans; [done|].
    rewrite insert_app_r_alt by done. by do 3 apply prefix_app_r.
  - apply prefix_length in Hpre1. rewrite !length_app. simpl. lia.
  - apply list_lookup_insert_eq. rewrite !length_app. simpl. lia.
Qed.
End StoreSteps.

Section StoreDriver.
Context {F : Type} `{Float64 F} `{Interpolant F}.
Implicit Types (h : store F) (U R : loc) (Uv Rv V : list (list F)) (lsv rsv : list F).

Lemma spline_slopes_st_Some U (x : list (list F)) h l r h' Uv :
  h !! U = Some (Mat Uv) → spline_slopes_st U x h = Some ((l, r), h') →
  ∃ lsv rsv, spline_slopes Uv x = Some (lsv, rsv) ∧
             l = length h ∧ r = S (length h) ∧ h' = h ++ [Vec lsv; Vec rsv].
Proof.
  intros HU. unfold spline_slopes_st. intros Hb.
  apply bind_M_Some in Hb as (Uv' & h1 & Hl & Hb). apply load_mat_Some in Hl as [Hl ->].
  rewrite HU in Hl. injection Hl as <-.
  apply bind_M_Some in Hb as ([lsv rsv] & h1 & Hs & Hb). apply lift_Some in Hs as [Hs ->].
  apply bind_M_Some in Hb as (l' & h1 & Hal & Hb). apply alloc_Some in Hal as [-> ->].
  apply bind_M_Some in Hb as (r' & h1 & Hal & Hb). apply alloc_Some in Hal as [-> ->].
  apply ret_M_Some in Hb as [[= <- <-] <-].
  exists lsv, rsv. rewrite length_app, <- app_assoc. simpl.
  split_and!; [done|done|lia|done].
Qed.

Section Loops.
Variables (dx dt Dt : F) (K : Z) (p : params F) (x : list (list F)).

Lemma pi_cycles_st_Some ls rs lsv rsv i : ∀ U h R h' Uv,
  h !! U = Some (Mat Uv) → h !! ls = Some (Vec lsv) → h !! rs = Some (Vec rsv) →
  pi_cycles_st dx dt Dt K p i U ls rs h = Some (R, h') →
  ∃ Rv, (∀ log, ∃ log', pi_cycles dx dt Dt K p i Uv lsv rsv log = Some (Rv, log')) ∧
        h `prefix_of` h' ∧ h' !! R = Some (Mat Rv) ∧ (R = U ∨ length h ≤ R).
Proof.
  induction i as [|i IH]; intros U h R h' Uv HU Hls Hrs; simpl.
  - intros Hr. apply ret_M_Some in Hr as [<- <-]. exists Uv.
    split_and!; [by eexists|done|done|by left].
  - intros Hr. apply bind_M_Some in Hr as (U1 & h1 & Hstep & Hr).
    destruct (projective_microcycle_st_Some _ _ _ _ _ _ _ _ _ _ _ _ _ _ HU Hls Hrs Hstep)
      as (Uv1 & Hpure & Hpre & Hfresh & HU1).
    destruct (IH U1 h1 R h' Uv1) as (Rv & Hrep & Hpre' & HR & Hor);
      [done|by eapply prefix_lookup_Some..|done|].
    exists Rv. split_and!; [|by etrans|done|].
    + intros log. rewrite Hpure. simpl. apply Hrep.
    + right. apply prefix_length in Hpre. destruct Hor as [->|?]; lia.
Qed.

Lemma patch_steps_st_Some n_PI i : ∀ U h R h' Uv,
  h !! U = Some (Mat Uv) →
  patch_steps_st dx dt Dt K p x i n_PI U h = Some (R, h') →
  ∃ Rv, (∀ log, ∃ log', patch_steps dx dt Dt K p x i n_PI Uv log = Some (Rv, log')) ∧
        h `prefix_of` h' ∧ h' !! R = Some (Mat Rv) ∧ (R = U ∨ length h ≤ R).
Proof.
  induction i as [|i IH]; intros U h R h' Uv HU; simpl.
  - intros Hr. apply ret_M_Some in Hr as [<- <-]. exists Uv.
    split_and!; [by eexists|done|done|by left].
  - intros Hr. apply bind_M_Some in Hr as ([l r] & h1 & Hs & Hr).
    destruct (spline_slopes_st_Some _ _ _ _ _ _ _ HU Hs) as (lsv & rsv & Hs' & -> & -> & ->).
    apply bind_M_Some in Hr as (U1 & h2 & Hc & Hr).
    destruct (pi_cycles_st_Some (length h) (S (length h)) lsv rsv n_PI U
                (h ++ [Vec lsv; Vec rsv]) U1 h2 Uv)
      as (Uv1 & Hc' & Hpre & HU1 & Hor); [by apply lookup_app_l_Some| | |done|].
    { by rewrite list_lookup_middle. }
    { rewrite (cons_middle (Vec lsv)), app_assoc.
      rewrite list_lookup_middle; [done|]. rewrite length_app. simpl. lia. }
    destruct (IH U1 h2 R h' Uv1) as (Rv & Hrep & Hpre' & HR & Hor'); [done..|].
    exists Rv. split_and!; [| |done|].
    + intros log. rewrite Hs'. simpl.
      destruct (Hc' (log ++ [CallSlopes Uv])) as [log1 ->]. simpl. apply Hrep.
    + etrans; [|done]. etrans; [|done]. by apply prefix_app_r.
    + apply prefix_length in Hpre. rewrite length_app in Hpre. simpl in Hpre.
      rewrite length_app in Hor. simpl in Hor.
      destruct Hor' as [->|?]; [destruct Hor as [->|?]|]; [by left|right; lia..].
Qed.
End Loops.

Lemma read_prefix (a : aref) h h' v :
  h `prefix_of` h' → read a h = Some (v, h) → read a h' = Some (v, h').
Proof.
  intros Hpre. destruct a as [l|l k]; simpl.
  - intros Hl. apply load_vec_Some in Hl as [Hl _]. unfold load_vec.
    by rewrite (prefix_lookup_Some _ _ _ _ Hl Hpre).
  - intros Hb. apply bind_M_Some in Hb as (Uv & h1 & Hl & Hb).
    apply load_mat_Some in Hl as [Hl ->]. apply lift_Some in Hb as [Hk _].
    apply bind_M_Some. exists Uv, h'. split.
    + unfold load_mat. by rewrite (prefix_lookup_Some _ _ _ _ Hl Hpre).
    + by apply lift_Some.
Qed.

Lemma read_Some (a : aref) h v h' : read a h = Some (v, h') → h' = h.
Proof.
  destruct a as [l|l k]; simpl.
  - intros Hl. by apply load_vec_Some in Hl as [_ ->].
  - intros Hb. apply bind_M_Some in Hb as (Uv & h1 & Hl & Hb).
    apply load_mat_Some in Hl as [_ ->]. by apply lift_Some in Hb as [_ ->].
Qed.

Lemma mapM_read_Some (l : list aref) : ∀ h rows h',
  mapM (M := M F) read l h = Some (rows, h') →
  h' = h ∧ Forall2 (λ a v, read a h = Some (v, h)) l rows.
Proof.
  induction l as [|a l IH]; intros h rows h'; simpl.
  - intros Hr. apply ret_M_Some in Hr as [<- <-]. by split.
  - intros Hb. apply bind_M_Some in Hb as (v & h1 & Ha & Hb).
    pose proof (read_Some _ _ _ _ Ha) as ->.
    apply bind_M_Some in Hb as (vs & h2 & Hl & Hb).
    apply ret_M_Some in Hb as [<- <-].
    destruct (IH _ _ _ Hl) as [-> Hall]. split; [done|]. by constructor.
Qed.

(** The list comprehension of the [return]: one new object per row. *)
Lemma copy_rows_Some U Rv n : ∀ s h res h',
  h !! U = Some (Mat Rv) →
  mapM (M := M F) (λ k, copy (Row U k)) (seq s n) h = Some (res, h') →
  res = (λ i, Whole (length h + i)) <$> seq 0 n ∧
  h' = h ++ (Vec <$> take n (drop s Rv)).
Proof.
  induction n as [|n IH]; intros s h res h' HU; simpl.
  - intros Hr. apply ret_M_Some in Hr as [<- <-].
    by rewrite app_nil_r.
  - intros Hb. apply bind_M_Some in Hb as (a & h1 & Hc & Hb).
    unfold copy in Hc.
    apply bind_M_Some in Hc as (v & h0 & Hr & Hc).
    simpl in Hr. apply bind_M_Some in Hr as (Uv & h0' & Hl & Hr).
    apply load_mat_Some in Hl as [Hl ->]. rewrite HU in Hl. injection Hl as <-.
    apply lift_Some in Hr as [Hs ->].
    apply bind_M_Some in Hc as (l & h0 & Hal & Hc). apply alloc_Some in Hal as [-> ->].
    apply ret_M_Some in Hc as [<- <-].
    apply bind_M_Some in Hb as (rest & h2 & Hrest & Hb).
    apply ret_M_Some in Hb as [<- <-].
    destruct (IH (S s) (h ++ [Vec v]) rest h2) as (-> & ->);
      [by apply lookup_app_l_Some|done|].
    split.
    + rewrite Nat.add_0_r. f_equal. rewrite <- fmap_S_seq, <- list_fmap_compose.
      apply list_fmap_ext. intros _ i _. simpl. rewrite length_app. simpl.
      f_equal. lia.
    + rewrite <- app_assoc. f_equal. simpl.
      rewrite (drop_S _ _ _ Hs). simpl. done.
Qed.
End StoreDriver.

Section StoreDriver.
Context {F : Type} `{Float64 F} `{Interpolant F}.
Implicit Types (h : store F) (U R : loc) (Uv Rv V : list (list F)) (lsv rsv : list F).

Lemma gaptooth_body_st_Some (u0_patch : list aref) (x : list (list F))
    dx dt Dt K T_patch T p h U n_teeth h1 :
  gaptooth_body_st u0_patch x dx dt Dt K T_patch T p h = Some ((U, n_teeth), h1) →
  ∃ rows Rv,
    Forall2 (λ a v, read a h = Some (v, h)) u0_patch rows ∧
    gaptooth_PI_vectorised rows x dx dt Dt K T_patch T p = Some Rv ∧
    h `prefix_of` h1 ∧ length h ≤ U ∧ h1 !! U = Some (Mat Rv) ∧
    n_teeth = length Rv.
Proof.
  unfold gaptooth_body_st. intros Hb.
  apply bind_M_Some in Hb as (rows & h0 & Hrows & Hb).
  apply mapM_read_Some in Hrows as [-> Hrows].
  apply bind_M_Some in Hb as (U0 & h0 & Hst & Hb). apply lift_Some in Hst as [Hst ->].
  apply bind_M_Some in Hb as (l & h0 & Hal & Hb). apply alloc_Some in Hal as [-> ->].
  apply bind_M_Some in Hb as (q1 & h0 & Hq1 & Hb). apply lift_Some in Hq1 as [Hq1 ->].
  apply bind_M_Some in Hb as (n1 & h0 & Hn1 & Hb). apply lift_Some in Hn1 as [Hn1 ->].
  apply bind_M_Some in Hb as (q2 & h0 & Hq2 & Hb). apply lift_Some in Hq2 as [Hq2 ->].
  apply bind_M_Some in Hb as (n2 & h0 & Hn2 & Hb). apply lift_Some in Hn2 as [Hn2 ->].
  apply bind_M_Some in Hb as (R & h2 & Hsteps & Hb).
  apply ret_M_Some in Hb as [[= <- <-] <-].
  destruct (patch_steps_st_Some dx dt Dt K p x (Z.to_nat n2) (Z.to_nat n1)
              (length h) (h ++ [Mat U0]) R h2 U0)
    as (Rv & Hpure & Hpre & HR & Hor); [by rewrite list_lookup_middle|done|].
  destruct (Hpure []) as [log Hlog].
  pose proof (np_stack_Some _ _ Hst) as (-> & m & Hshape & _).
  exists rows, Rv. split_and!; [done| | | |done|].
  - unfold gaptooth_PI_vectorised, gaptooth_run.
    rewrite Hst. simpl. rewrite Hq1. simpl. rewrite Hn1. simpl.
    rewrite Hq2. simpl. rewrite Hn2. simpl. rewrite Hlog. simpl. done.
  - etrans; [|done]. by apply prefix_app_r.
  - rewrite length_app in Hor. simpl in Hor. destruct Hor as [->|?]; lia.
  - pose proof (patch_steps_shape _ _ _ _ _ _ _ _ _ _ _ _ _ _ Hshape Hlog) as [Hlen _].
    done.
Qed.

(** C10. After a run of [gaptooth_PI_vectorised] that returns, every
    object that existed before the call is unchanged, so the arrays of
    [u0_patch] read as before; and every array of the list returned is an
    object of its own, created by the [return] statement after every
    object the run used, distinct from the other arrays returned, and
    holds the row the value layer computes. *)
Theorem driver_returns_fresh_copies (u0_patch : list aref) (x : list (list F))
    dx dt Dt (K : Z) T_patch T p h res h' :
  gaptooth_PI_vectorised_st u0_patch x dx dt Dt K T_patch T p h = Some (res, h') →
  h `prefix_of` h' ∧
  (∀ a v, a ∈ u0_patch → read a h = Some (v, h) → read a h' = Some (v, h')) ∧
  ∃ U n_teeth h1 rows Rv,
    gaptooth_body_st u0_patch x dx dt Dt K T_patch T p h = Some ((U, n_teeth), h1) ∧
    h `prefix_of` h1 ∧ h1 `prefix_of` h' ∧
    Forall (λ a, ∃ l, a = Whole l ∧ length h1 ≤ l < length h') res ∧
    NoDup res ∧
    Forall2 (λ a v, read a h = Some (v, h)) u0_patch rows ∧
    gaptooth_PI_vectorised rows x dx dt Dt K T_patch T p = Some Rv ∧
    Forall2 (λ a v, read a h' = Some (v, h')) res Rv.
Proof.
  unfold gaptooth_PI_vectorised_st. intros Hb.
  apply bind_M_Some in Hb as ([U n_teeth] & h1 & Hbody & Hb).
  destruct (gaptooth_body_st_Some _ _ _ _ _ _ _ _ _ _ _ _ _ Hbody)
    as (rows & Rv & Hrows & Hpure & Hpre & HU & HR & ->).
  destruct (copy_rows_Some _ _ _ _ _ _ _ HR Hb) as [-> ->].
  rewrite drop_0, take_ge by done.
  assert (h `prefix_of` h1 ++ (Vec <$> Rv)) as Hpre'.
  { etrans; [done|]. by apply prefix_app_r. }
  split_and!; [done| |].
  { intros a v _. by apply read_prefix. }
  exists U, (length Rv), h1, rows, Rv.
  split_and!; [done|done|by apply prefix_app_r| | |done|done|].
  - apply Forall_fmap, Forall_forall. intros i Hi. apply elem_of_seq in Hi.
    simpl. eexists. split; [done|]. rewrite length_app, length_fmap. lia.
  - apply NoDup_fmap_2; [|apply NoDup_seq]. intros i j [= Hij]. lia.
  - apply Forall2_same_length_lookup. split.
    { by rewrite length_fmap, length_seq. }
    intros i a v Ha Hv. rewrite list_lookup_fmap in Ha.
    apply fmap_Some in Ha as (j & Hj & ->).
    apply lookup_seq in Hj as [-> Hlt]. simpl. unfold load_vec.
    rewrite lookup_app_r by lia. replace (length h1 + i - length h1) with i by lia.
    by rewrite list_lookup_fmap, Hv.
Qed.
End StoreDriver.

(** * More on the conversions *)

Section ConversionEdges.
Context {F : Type} `{Float64 F}.
Implicit Types (P Q : list (list F)) (u : list F).

Lemma slices_take L u : ∀ n s,
  concat ((λ i, slice u (i * L) ((i + 1) * L)) <$> seq s n)
  = take (n * L) (drop (s * L) u).
Proof.
  induction n as [|n IH]; intros s; simpl; [done|].
  rewrite IH. unfold slice.
  replace ((s + 1) * L - s * L) with L by lia.
  replace (S s * L) with (s * L + L) by lia.
  rewrite <- drop_drop. apply take_take_drop.
Qed.

Lemma toPatch_cons (x0 : list F) (xs : list (list F)) u :
  toPatch (x0 :: xs) u
  = Some ((λ i, slice u (i * length x0) ((i + 1) * length x0))
            <$> seq 0 (S (length xs))).
Proof. done. Qed.

(** X1. [toPatch] raises on an empty [x_plot_array] (IndexError at
    [x_plot_array[0]]) and returns on every other one, whatever [u] is:
    it returns [len(x_plot_array)] patches whose concatenation is the
    first [len(x_plot_array) * len(x_plot_array[0])] entries of [u], and
    patch [i] has [min(L, len(u) - i*L)] entries, so a short [u] gives
    short or empty patches and a long [u] is cut, without an error. *)
Theorem toPatch_slices u :
  toPatch [] u = None ∧
  ∀ (x0 : list F) (xs : list (list F)),
    ∃ P, toPatch (x0 :: xs) u = Some P ∧
         length P = S (length xs) ∧
         concat P = take (S (length xs) * length x0) u ∧
         ∀ i p, P !! i = Some p →
                length p = length x0 `min` (length u - i * length x0).
Proof.
  split; [done|]. intros x0 xs. rewrite toPatch_cons.
  eexists. split; [reflexivity|]. split_and!.
  - by rewrite length_fmap, length_seq.
  - rewrite (slices_take (length x0) u (S (length xs)) 0).
    by rewrite drop_0.
  - intros i p Hp. rewrite list_lookup_fmap in Hp.
    destruct (seq 0 (S (length xs)) !! i) as [j|] eqn:Hj; [|done].
    apply lookup_seq in Hj as [-> _]. injection Hp as <-.
    unfold slice. rewrite length_take, length_drop. simpl. nia.
Qed.

(** X2. The round trip through the patches: for a non-empty
    [x_plot_array] and a vector [u] of [len(x_plot_array) * len(x_plot_array[0])]
    entries, [toNumpyArray(toPatch(x_plot_array, u))] is [u]. *)
Theorem toNumpyArray_toPatch (x_plot_array : list (list F)) (x0 : list F) u :
  x_plot_array !! 0 = Some x0 →
  length u = length x_plot_array * length x0 →
  toPatch x_plot_array u ≫= toNumpyArray = Some u.
Proof.
  intros Hx0 Hlen.
  destruct x_plot_array as [|x0' xs]; [done|]. injection Hx0 as ->.
  pose proof (toPatch_shape (x0 :: xs) x0 u _ eq_refl Hlen (toPatch_cons x0 xs u))
    as [_ Hall].
  rewrite toPatch_cons. cbn [mbind option_bind].
  rewrite (toNumpyArray_uniform (length x0)); [|done|done].
  rewrite (slices_take (length x0) u (S (length xs)) 0), drop_0.
  rewrite take_ge; [done|]. simpl in Hlen. lia.
Qed.

Lemma broadcast_to_Some L (q q' : list F) :
  broadcast_to L q = Some q' ↔
  (length q = L ∧ q' = q) ∨ (∃ v, q = [v] ∧ q' = replicate L v).
Proof.
  unfold broadcast_to. destruct (decide (length q = L)) as [Hq|Hq].
  - split.
    + intros [= <-]. by left.
    + intros [[_ ->]|(v & -> & ->)]; [done|].
      simpl in Hq. by subst.
  - destruct q as [|v [|w q]]; split; try done.
    + intros [[? _]|(v & ? & _)]; done.
    + intros [= <-]. right. by exists v.
    + intros [[? _]|(v' & [= ->] & ->)]; done.
    + intros [[? _]|(v' & ? & _)]; done.
Qed.

Lemma fill_patches_broadcast L : ∀ P i u,
  length u = (i + length P) * L →
  fill_patches L i P u =
    Q ← mapM (broadcast_to L) P; Some (take (i * L) u ++ concat Q).
Proof.
  induction P as [|q P IH]; intros i u Hlen; simpl.
  - simpl in Hlen. rewrite Nat.add_0_r in Hlen.
    by rewrite app_nil_r, take_ge by lia.
  - simpl in Hlen. unfold assign_slice.
    replace ((i + 1) * L - i * L) with L by lia.
    destruct (broadcast_to L q) as [v|] eqn:Hv; simpl; [|done].
    pose proof (broadcast_to_length _ _ _ Hv) as Hlv.
    rewrite IH by (rewrite !length_app, length_take, length_drop; lia).
    destruct (mapM (broadcast_to L) P) as [Q|]; simpl; [|done].
    f_equal. simpl.
    rewrite take_app_ge by (rewrite length_take; lia).
    rewrite length_take, Nat.min_l by lia.
    replace (L + i * L - i * L) with (length v) by lia.
    rewrite take_app_length. by rewrite <- app_assoc.
Qed.

(** X3. [toNumpyArray] returns [u] exactly when the list has a first
    patch, of length [L], every patch has [L] entries or one entry, and
    [u] is the concatenation of the patches in which a patch of one entry
    is replaced by [L] copies of it (NumPy broadcasts it over its slot).
    An empty list and a patch of any other length raise. *)
Theorem toNumpyArray_broadcasts P u :
  toNumpyArray P = Some u ↔
  ∃ (p0 : list F) Q,
    P !! 0 = Some p0 ∧
    Forall2 (λ q q', (length q = length p0 ∧ q' = q) ∨
                     (∃ v, q = [v] ∧ q' = replicate (length p0) v)) P Q ∧
    u = concat Q.
Proof.
  unfold toNumpyArray. destruct (P !! 0) as [p0|] eqn:Hp0; simpl.
  - rewrite (fill_patches_broadcast (length p0) P 0)
      by (rewrite length_replicate; lia).
    split.
    + intros Hu. apply bind_Some in Hu as (Q & HQ & [= <-]).
      exists p0, Q. split; [done|]. split; [|done].
      apply mapM_Some in HQ. eapply Forall2_impl; [exact HQ|].
      intros q q' Hq. by apply broadcast_to_Some.
    + intros (p0' & Q & [= <-] & HQ & ->).
      assert (mapM (broadcast_to (length p0)) P = Some Q) as ->.
      { apply mapM_Some. eapply Forall2_impl; [exact HQ|].
        intros q q' Hq. by apply broadcast_to_Some. }
      done.
  - split; [done|]. by intros (p0 & Q & ? & _).
Qed.
End ConversionEdges.

(** * More on the micro stepper and the projective cycle *)

Section StepperEdges.
Context {F : Type} `{Float64 F}.
Implicit Types (U V R : list (list F)) (ls rs : list F).

Lemma mod_next (j m : nat) :
  0 < m → Z.to_nat ((Z.of_nat j + 1) `mod` Z.of_nat m) = (j + 1) mod m.
Proof.
  intros Hm. rewrite <- (Nat2Z.id ((j + 1) mod m)). f_equal.
  rewrite Nat2Z.inj_mod. f_equal. lia.
Qed.

Lemma mod_prev (j m : nat) :
  0 < m → Z.to_nat ((Z.of_nat j - 1) `mod` Z.of_nat m) = (j + m - 1) mod m.
Proof.
  intros Hm. rewrite <- (Nat2Z.id ((j + m - 1) mod m)). f_equal.
  rewrite Nat2Z.inj_mod.
  replace (Z.of_nat (j + m - 1)) with (Z.of_nat j - 1 + 1 * Z.of_nat m)%Z by lia.
  by rewrite Z_mod_plus_full.
Qed.

(** X4. [rhs_vectorised] on an array of shape [(n, m)] raises only when
    [dx**2] does, and otherwise returns an array of the same shape whose
    entry [(k, j)] is the stencil value of [U[k, j]] with the neighbours
    [U[k, (j+1) mod m]] and [U[k, (j-1) mod m]]: the stencil is periodic
    within each patch. *)
Theorem rhs_vectorised_stencil n m U dx p :
  has_shape n m U →
  (rhs_vectorised U dx p = None ↔ f_sqr dx = None) ∧
  ∀ V, rhs_vectorised U dx p = Some V →
    has_shape n m V ∧
    ∃ dx2, f_sqr dx = Some dx2 ∧
      ∀ k j u, get U k j = Some u →
        ∃ u_next u_prev,
          get U k ((j + 1) mod m) = Some u_next ∧
          get U k ((j + m - 1) mod m) = Some u_prev ∧
          get V k j = Some (rhs_cell dx2 (lambda p) u u_next u_prev).
Proof.
  intros HU. split.
  - unfold rhs_vectorised. by destruct (f_sqr dx).
  - intros V HV.
    destruct (rhs_vectorised_Some _ _ _ _ _ _ HU HV) as (HVs & dx2 & Hdx & Hg).
    split; [done|]. exists dx2. split; [done|]. intros k j u Hu.
    destruct (get_Some n m U k j u HU Hu) as [Hk Hj].
    destruct (get_is_Some n m U k ((j + 1) mod m) HU Hk) as [un Hun];
      [apply Nat.mod_upper_bound; lia|].
    destruct (get_is_Some n m U k ((j + m - 1) mod m) HU Hk) as [up Hup];
      [apply Nat.mod_upper_bound; lia|].
    exists un, up. split_and!; [done..|].
    rewrite Hg by done. rewrite Hu, mod_next, mod_prev, Hun, Hup by lia. done.
Qed.

Lemma euler_update_row U V dx dt p U' V' k :
  U !! k = V !! k →
  euler_update U dx dt p = Some U' → euler_update V dx dt p = Some V' →
  U' !! k = V' !! k.
Proof.
  unfold euler_update, rhs_vectorised. intros Hk HU HV.
  destruct (f_sqr dx) as [dx2|]; simpl in *; [|done].
  injection HU as <-. injection HV as <-. unfold mzip, mmap.
  repeat (rewrite lookup_zip_with || rewrite list_lookup_fmap).
  by rewrite Hk.
Qed.

Lemma edges_row n m U V dx ls rs ls' rs' k c :
  U !! k = V !! k → ls !! k = ls' !! k → rs !! k = rs' !! k →
  right_edges U n m dx ls rs k c = right_edges V n m dx ls' rs' k c ∧
  corners U n m k c = corners V n m k c.
Proof.
  intros HU Hls Hrs. unfold right_edges, left_edges, corners, get.
  by rewrite HU, Hls, Hrs.
Qed.

(** X5. [euler_step] acts patch by patch: row [k] of its result is
    determined by row [k] of [U] and the slopes of index [k]. Two calls
    on arrays of one shape that agree in row [k] and in
    [left_slope[k]], [right_slope[k]] return the same row [k]. *)
Theorem euler_step_patchwise n m U V dx dt ls rs ls' rs' p R R' k :
  has_shape n m U → has_shape n m V →
  length ls = n → length rs = n → length ls' = n → length rs' = n →
  U !! k = V !! k → ls !! k = ls' !! k → rs !! k = rs' !! k →
  euler_step U dx dt ls rs p = Some R →
  euler_step V dx dt ls' rs' p = Some R' →
  R !! k = R' !! k.
Proof.
  intros HU HV Hls Hrs Hls' Hrs' Hk Hlk Hrk HR HR'.
  pose proof (euler_step_shape _ _ _ _ _ _ _ _ _ HU HR) as HRs.
  pose proof (euler_step_shape _ _ _ _ _ _ _ _ _ HV HR') as HRs'.
  unfold euler_step in HR, HR'.
  apply bind_Some in HR as (U1 & HU1 & HR).
  apply bind_Some in HR' as (V1 & HV1 & HR').
  pose proof (euler_update_row _ _ _ _ _ _ _ k Hk HU1 HV1) as Hk1.
  pose proof (euler_update_shape _ _ _ _ _ _ _ HU HU1) as HU1s.
  pose proof (euler_update_shape _ _ _ _ _ _ _ HV HV1) as HV1s.
  pose proof (impose_bcs_entries _ _ _ _ _ _ _ HU1s Hls Hrs HR) as He.
  pose proof (impose_bcs_entries _ _ _ _ _ _ _ HV1s Hls' Hrs' HR') as He'.
  destruct (decide (k < n)) as [Hkn|Hkn].
  2:{ rewrite !(lookup_ge_None_2 _ k); [done|..].
      - rewrite (has_shape_length _ _ _ HRs'). lia.
      - rewrite (has_shape_length _ _ _ HRs). lia. }
  destruct (lookup_lt_is_Some_2 R k) as [r Hr];
    [by rewrite (has_shape_length _ _ _ HRs)|].
  destruct (lookup_lt_is_Some_2 R' k) as [r' Hr'];
    [by rewrite (has_shape_length _ _ _ HRs')|].
  rewrite Hr, Hr'. f_equal.
  pose proof (has_shape_row _ _ _ _ _ HRs Hr) as Hlr.
  pose proof (has_shape_row _ _ _ _ _ HRs' Hr') as Hlr'.
  apply list_eq. intros c.
  destruct (decide (c < m)) as [Hc|Hc].
  2:{ rewrite !lookup_ge_None_2; [done|lia..]. }
  specialize (He k c Hkn Hc). specialize (He' k c Hkn Hc).
  unfold get in He at 1. unfold get in He' at 1.
  rewrite Hr in He. rewrite Hr' in He'. simpl in He, He'.
  rewrite He, He'.
  destruct (edges_row n m U1 V1 dx ls rs ls' rs' k c Hk1 Hlk Hrk) as [-> ->].
  done.
Qed.

Lemma impose_bcs_single V dx ls rs ls' rs' :
  length V = 1 → impose_bcs V dx ls rs = impose_bcs V dx ls' rs'.
Proof.
  intros HV. unfold impose_bcs. rewrite HV.
  destruct (set_item V 0 0 f_zero) as [U1|]; simpl; [|done].
  destruct (set_item U1 (-1) (-1) f_zero) as [U2|]; simpl; [|done].
  repeat case_decide; (lia || done).
Qed.

Lemma euler_step_single m U dx dt ls rs ls' rs' p :
  has_shape 1 m U → euler_step U dx dt ls rs p = euler_step U dx dt ls' rs' p.
Proof.
  intros HU. unfold euler_step.
  destruct (euler_update U dx dt p) as [V|] eqn:HV; simpl; [|done].
  apply impose_bcs_single.
  by apply (has_shape_length 1 m), (euler_update_shape _ _ U dx dt p).
Qed.

Lemma repeat_step_ext n m (f g : list (list F) → option (list (list F))) :
  (∀ U, has_shape n m U → f U = g U) →
  (∀ U R, has_shape n m U → f U = Some R → has_shape n m R) →
  ∀ i U, has_shape n m U → repeat_step i f U = repeat_step i g U.
Proof.
  intros Hfg Hf. induction i as [|i IH]; intros U HU; simpl; [done|].
  rewrite <- Hfg by done.
  destruct (f U) as [U'|] eqn:HU'; simpl; [|done].
  apply IH. by apply (Hf U).
Qed.

(** X6. With a single patch the slope arrays are not read: [euler_step]
    and [projective_microcycle] on an array of shape [(1, m)] return the
    same for any two pairs of slope arrays. *)
Theorem single_patch_ignores_slopes m U dx dt Dt (K : Z) ls rs ls' rs' p :
  has_shape 1 m U →
  euler_step U dx dt ls rs p = euler_step U dx dt ls' rs' p ∧
  projective_microcycle U dx dt Dt K ls rs p
  = projective_microcycle U dx dt Dt K ls' rs' p.
Proof.
  intros HU. split; [by apply (euler_step_single m)|].
  unfold projective_microcycle.
  rewrite (repeat_step_ext 1 m _ (λ U, euler_step U dx dt ls' rs' p));
    [| intros; by apply (euler_step_single m)
     | intros U' R' ??; by apply (euler_step_shape 1 m U' dx dt ls rs p)
     | done].
  destruct (repeat_step _ _ U) as [U1|] eqn:HU1; simpl; [|done].
  assert (has_shape 1 m U1) as HU1s.
  { eapply (repeat_step_shape 1 m); [|exact HU|exact HU1].
    intros U' R' ??. by apply (euler_step_shape 1 m U' dx dt ls' rs' p). }
  rewrite (euler_step_single m U1 dx dt ls rs ls' rs') by done.
  destruct (euler_step U1 dx dt ls' rs' p) as [U2|] eqn:HU2; simpl; [|done].
  apply impose_bcs_single. apply (has_shape_length 1 m).
  apply has_shape_extrapolate; [done|].
  by apply (euler_step_shape _ _ U1 dx dt ls' rs' p).
Qed.

Lemma impose_bcs_outer_slopes V dx ls rs v w :
  impose_bcs V dx (<[0 := v]> ls) (<[length rs - 1 := w]> rs)
  = impose_bcs V dx ls rs.
Proof.
  unfold impose_bcs. rewrite length_insert.
  rewrite drop_insert_lt by lia. rewrite take_insert_ge by lia. done.
Qed.

Lemma repeat_step_ext_all (f g : list (list F) → option (list (list F))) :
  (∀ U, f U = g U) → ∀ i U, repeat_step i f U = repeat_step i g U.
Proof.
  intros Hfg. induction i as [|i IH]; intros U; simpl; [done|].
  rewrite Hfg. destruct (g U); simpl; [apply IH|done].
Qed.

(** X7. [left_slope[0]] and [right_slope[-1]] are never read: replacing
    them by any values changes neither the result of [euler_step] nor that
    of [projective_microcycle]. *)
Theorem outer_slopes_unread U dx dt Dt (K : Z) ls rs p (v w : F) :
  euler_step U dx dt (<[0 := v]> ls) (<[length rs - 1 := w]> rs) p
  = euler_step U dx dt ls rs p ∧
  projective_microcycle U dx dt Dt K (<[0 := v]> ls) (<[length rs - 1 := w]> rs) p
  = projective_microcycle U dx dt Dt K ls rs p.
Proof.
  assert (∀ U, euler_step U dx dt (<[0 := v]> ls) (<[length rs - 1 := w]> rs) p
               = euler_step U dx dt ls rs p) as Hstep.
  { intros U'. unfold euler_step.
    destruct (euler_update U' dx dt p); simpl; [|done].
    apply impose_bcs_outer_slopes. }
  split; [apply Hstep|]. unfold projective_microcycle.
  rewrite (repeat_step_ext_all _ (λ U, euler_step U dx dt ls rs p)) by apply Hstep.
  destruct (repeat_step _ _ U) as [U1|]; simpl; [|done].
  rewrite Hstep. destruct (euler_step U1 dx dt ls rs p); simpl; [|done].
  apply impose_bcs_outer_slopes.
Qed.

(** X8. On an array of shape [(n, m)] with one slope per patch,
    [euler_step] returns exactly when [dx**2] can be computed and
    [n >= 1], [m >= 1] and, for [n > 1], [m >= 2] (an empty array and
    several patches of one point raise IndexError); so does
    [projective_microcycle], for a count [K] that Python converts to a
    float (beyond that range [K*dt] raises OverflowError); the array
    returned has the shape [(n, m)]. *)
Theorem stepper_returns n m U dx dt Dt (K : Z) ls rs p :
  has_shape n m U → length ls = n → length rs = n →
  (is_Some (euler_step U dx dt ls rs p) ↔ steppable n m ∧ is_Some (f_sqr dx)) ∧
  (int_converts K →
   (is_Some (projective_microcycle U dx dt Dt K ls rs p)
      ↔ steppable n m ∧ is_Some (f_sqr dx))) ∧
  (∀ R, euler_step U dx dt ls rs p = Some R → has_shape n m R) ∧
  (∀ R, projective_microcycle U dx dt Dt K ls rs p = Some R → has_shape n m R).
Proof.
  intros HU Hls Hrs.
  assert (∀ V R, has_shape n m V → euler_step V dx dt ls rs p = Some R →
                 steppable n m ∧ is_Some (f_sqr dx)) as Hstep.
  { intros V R HV HR. unfold euler_step in HR.
    apply bind_Some in HR as (V1 & HV1 & HR).
    pose proof (euler_update_shape _ _ _ _ _ _ _ HV HV1) as HV1s.
    destruct (impose_bcs_corners _ _ _ _ _ _ _ HV1s HR) as (_ & ? & ? & ? & _).
    split; [done|]. unfold euler_update, rhs_vectorised in HV1.
    by destruct (f_sqr dx). }
  split_and!.
  - split.
    + intros [R HR]. by apply (Hstep U R).
    + intros [? ?]. by apply (euler_step_is_Some n m).
  - intros _. split.
    + intros [R HR]. unfold projective_microcycle in HR.
      apply bind_Some in HR as (U1 & HU1 & HR).
      apply bind_Some in HR as (U2 & HU2 & HR).
      apply (Hstep U1 U2); [|done].
      eapply (repeat_step_shape n m); [|exact HU|exact HU1].
      intros U' R' ??. by apply (euler_step_shape n m U' dx dt ls rs p).
    + intros [? ?]. by apply (projective_microcycle_is_Some n m).
  - intros R. by apply euler_step_shape.
  - intros R. by apply projective_microcycle_shape.
Qed.

(** X9. After [euler_step], a cell that is neither the first nor the
    last of its patch holds [u + dt * rhs], with [rhs] the stencil value
    from its two neighbours in the patch: the boundary conditions leave
    the inner cells of the Euler update as they are. *)
Theorem euler_step_interior n m U dx dt ls rs p R k j :
  has_shape n m U → length ls = n → length rs = n →
  k < n → 0 < j < m - 1 →
  euler_step U dx dt ls rs p = Some R →
  ∃ dx2 u u_next u_prev,
    f_sqr dx = Some dx2 ∧ get U k j = Some u ∧
    get U k (j + 1) = Some u_next ∧ get U k (j - 1) = Some u_prev ∧
    get R k j = Some (f_add u (f_mul dt (rhs_cell dx2 (lambda p) u u_next u_prev))).
Proof.
  intros HU Hls Hrs Hk Hj HR. unfold euler_step in HR.
  apply bind_Some in HR as (V & HV & HR).
  pose proof (euler_update_shape _ _ _ _ _ _ _ HU HV) as HVs.
  pose proof (impose_bcs_entries _ _ _ _ _ _ _ HVs Hls Hrs HR k j Hk) as He.
  unfold euler_update in HV. apply bind_Some in HV as (r & Hr & [= <-]).
  destruct (rhs_vectorised_Some _ _ _ _ _ _ HU Hr) as (Hrs' & dx2 & Hdx & Hg).
  destruct (get_is_Some n m U k j HU Hk) as [u Hu]; [lia|].
  destruct (get_is_Some n m U k (j + 1) HU Hk) as [un Hun]; [lia|].
  destruct (get_is_Some n m U k (j - 1) HU Hk) as [up Hup]; [lia|].
  exists dx2, u, un, up. split_and!; [done..|].
  rewrite He by lia.
  assert (get (mzip f_add U (mmap (f_mul dt) r)) k j
          = Some (f_add u (f_mul dt (rhs_cell dx2 (lambda p) u un up)))) as Hin.
  { rewrite get_mzip, get_mmap, Hg, Hu by lia. simpl.
    rewrite mod_next, mod_prev by lia.
    rewrite (Nat.mod_small (j + 1)) by lia.
    replace ((j + m - 1) mod m) with (j - 1).
    2:{ replace (j + m - 1) with (j - 1 + 1 * m) by lia.
        rewrite Nat.Div0.mod_add. rewrite Nat.mod_small; lia. }
    by rewrite Hun, Hup. }
  unfold right_edges, left_edges, corners.
  destruct (decide (1 < n)); by rewrite !decide_False by lia.
Qed.

(** X10. On patches of at least three points, with one slope per patch,
    the boundary conditions are idempotent: imposing them on an array on
    which they have been imposed returns this array. *)
Theorem boundary_conditions_idempotent n m U dx ls rs R :
  has_shape n m U → 3 ≤ m → length ls = n → length rs = n →
  impose_bcs U dx ls rs = Some R → impose_bcs R dx ls rs = Some R.
Proof.
  intros HU Hm Hls Hrs HR.
  destruct (impose_bcs_corners _ _ _ _ _ _ _ HU HR) as (HRs & _).
  rewrite <- HR. apply (impose_bcs_agree n m); [done..|].
  intros k j Hk Hj.
  rewrite (impose_bcs_entries _ _ _ _ _ _ _ HU Hls Hrs HR) by lia.
  unfold right_edges, left_edges, corners.
  destruct (decide (1 < n)); by rewrite !decide_False by lia.
Qed.

(** X11. A count [K <= 1], zero and negative counts included, is not
    rejected. For such a [K] that Python converts to a float, on an array
    on which the boundary conditions can be imposed, with one slope per
    patch and a [dx] that can be squared, [projective_microcycle] returns:
    it takes the one micro step from [U] that it takes for [K = 1], and
    every cell that is neither the first nor the last of its patch holds
    [a + (Dt - K*dt) * ((a - b) / dt)], with [a] the value after this
    step, [b] the value in [U], and the [K] given in the coefficient. *)
Theorem single_step_for_small_K n m U dx dt Dt (K : Z) ls rs p :
  (K ≤ 1)%Z → int_converts K →
  has_shape n m U → steppable n m → length ls = n → length rs = n →
  is_Some (f_sqr dx) →
  ∃ U_last R,
    euler_step U dx dt ls rs p = Some U_last ∧
    projective_microcycle U dx dt Dt K ls rs p = Some R ∧
    has_shape n m R ∧
    ∀ k j, k < n → 0 < j < m - 1 →
      ∃ a b, get U_last k j = Some a ∧ get U k j = Some b ∧
             get R k j
             = Some (f_add a (f_mul (f_sub Dt (f_mul (f_of_int K) dt))
                                    (f_div (f_sub a b) dt))).
Proof.
  intros HK _ HU Hnm Hls Hrs Hdx.
  destruct (euler_step_is_Some n m U dx dt ls rs p) as [U1 HU1]; [done..|].
  pose proof (euler_step_shape _ _ _ _ _ _ _ _ _ HU HU1) as HU1s.
  pose proof (has_shape_extrapolate n m U U1 dt Dt K HU HU1s) as HEs.
  destruct Hnm as (Hn & Hm & Hnm).
  destruct (impose_bcs_is_Some n m (extrapolate U U1 dt Dt K) dx ls rs)
    as [R HR]; [done..|].
  destruct (impose_bcs_corners _ _ _ _ _ _ _ HEs HR) as (HRs & _).
  exists U1, R. split_and!; [done| |done|].
  - unfold projective_microcycle.
    replace (Z.to_nat (K - 1)) with 0 by lia. simpl. rewrite HU1. simpl. exact HR.
  - intros k j Hk Hj.
    destruct (get_is_Some n m U1 k j HU1s Hk) as [a Ha]; [lia|].
    destruct (get_is_Some n m U k j HU Hk) as [b Hb]; [lia|].
    exists a, b. split_and!; [done..|].
    rewrite (impose_bcs_entries _ _ _ _ _ _ _ HEs Hls Hrs HR) by lia.
    assert (get (extrapolate U U1 dt Dt K) k j
            = Some (f_add a (f_mul (f_sub Dt (f_mul (f_of_int K) dt))
                                   (f_div (f_sub a b) dt)))) as Hin
      by (by rewrite get_extrapolate, Ha, Hb).
    unfold right_edges, left_edges, corners.
    destruct (decide (1 < n)); by rewrite !decide_False by lia.
Qed.
End StepperEdges.

(** * More on the slope estimator *)

Section SlopeEdges.
Context {F : Type} `{Float64 F} `{Interpolant F}.
Implicit Types (U V R : list (list F)) (ls rs : list F) (x : list (list F)).

Lemma norm_index_out n (k : nat) : n ≤ k → norm_index n (Z.of_nat k) = None.
Proof.
  intros Hk. unfold norm_index.
  rewrite decide_False by lia. by rewrite decide_False by lia.
Qed.

(** What [end_points] reads: the first and the last entry of the grid of
    patch [k] and of row [k] of the state. *)
Lemma end_points_spec n m U x k :
  has_shape n m U →
  end_points U x k =
    xs ← x !! k; x0 ← head xs; x1 ← last xs;
    if decide (k < n) then
      u0 ← get U k 0; u1 ← get U k (m - 1); Some ((x0, x1), (u0, u1))
    else None.
Proof.
  intros HU. unfold end_points.
  destruct (x !! k) as [xs|]; simpl; [|done].
  destruct xs as [|a xs]; [done|].
  rewrite (norm_index_0 (length (a :: xs))),
    (norm_index_last (length (a :: xs))) by (simpl; lia).
  cbn [mbind option_bind]. rewrite last_lookup.
  replace (length (a :: xs) - 1) with (pred (length (a :: xs))) by lia.
  cbn [lookup list_lookup head].
  change (list_lookup (pred (length (a :: xs))) (a :: xs))
    with ((a :: xs) !! pred (length (a :: xs))).
  destruct ((a :: xs) !! pred (length (a :: xs))) as [x1|]; simpl; [|done].
  rewrite (has_shape_length _ _ _ HU).
  destruct (decide (k < n)) as [Hk|Hk].
  2:{ rewrite norm_index_out by lia. done. }
  rewrite norm_index_nat by done. simpl.
  rewrite (has_shape_n_micro n m U HU) by lia.
  destruct (decide (0 < m)) as [Hm|Hm].
  - by rewrite (norm_index_0 m), (norm_index_last m) by done.
  - replace m with 0 by lia. simpl.
    destruct (get U k 0) as [u|] eqn:Hu; [|done].
    apply (get_Some n m) in Hu; [lia|done].
Qed.

Lemma mapM_ext_Forall {A B} (f g : A → option B) (l : list A) :
  Forall (λ a, f a = g a) l → mapM f l = mapM g l.
Proof.
  induction 1 as [|a l Ha _ IH]; simpl; [done|]. by rewrite Ha, IH.
Qed.

Lemma end_points_ends n m U V x (x' : list (list F)) k :
  has_shape n m U → has_shape n m V →
  (∀ k, k < n → get U k 0 = get V k 0 ∧ get U k (m - 1) = get V k (m - 1)) →
  Forall2 (λ xs xs', head xs = head xs' ∧ last xs = last xs') x x' →
  end_points U x k = end_points V x' k.
Proof.
  intros HU HV Hends Hx.
  rewrite (end_points_spec n m U x k HU), (end_points_spec n m V x' k HV).
  destruct (x !! k) as [xs|] eqn:Hxs.
  - destruct (Forall2_lookup_l _ _ _ _ _ Hx Hxs) as (xs' & -> & Hh & Hl).
    simpl. rewrite Hh, Hl.
    destruct (head xs'); simpl; [|done]. destruct (last xs'); simpl; [|done].
    case_decide as Hk; [|done]. by destruct (Hends k Hk) as [-> ->].
  - assert (x' !! k = None) as ->; [|done].
    apply lookup_ge_None in Hxs. apply lookup_ge_None.
    by rewrite <- (Forall2_length _ _ _ Hx).
Qed.

(** X12. [spline_slopes] reads the end points only: on two states of one
    shape with the same first and last column, and two lists of grids
    with the same first and last point in every grid, it returns the same
    (or raises in both cases). *)
Theorem slopes_read_end_points_only n m U V x (x' : list (list F)) :
  has_shape n m U → has_shape n m V →
  (∀ k, k < n → get U k 0 = get V k 0 ∧ get U k (m - 1) = get V k (m - 1)) →
  Forall2 (λ xs xs', head xs = head xs' ∧ last xs = last xs') x x' →
  spline_slopes U x = spline_slopes V x'.
Proof.
  intros HU HV Hends Hx. unfold spline_slopes.
  rewrite <- (Forall2_length _ _ _ Hx).
  rewrite (mapM_ext_Forall (end_points U x) (end_points V x')); [done|].
  apply Forall_forall. intros k _. by apply (end_points_ends n m).
Qed.

(** X13. [spline_slopes] raises (IndexError) when there are more grids
    than patches, when a grid is empty, and when the state has no column
    while there is a grid; when it returns, both arrays have
    [len(x_array)] entries. *)
Theorem spline_slopes_indexing n m U x :
  has_shape n m U →
  (n < length x ∨ [] ∈ x ∨ (x ≠ [] ∧ m = 0) → spline_slopes U x = None) ∧
  ∀ ls rs, spline_slopes U x = Some (ls, rs) →
           length ls = length x ∧ length rs = length x.
Proof.
  intros HU. split; [|intros ls rs; apply spline_slopes_length].
  intros Hbad. unfold spline_slopes.
  destruct (mapM (end_points U x) (seq 0 (length x))) as [ends|] eqn:Hends; [|done].
  exfalso.
  assert (∀ k, k < length x → is_Some (end_points U x k)) as Hall.
  { intros k Hk.
    assert (is_Some (mapM (end_points U x) (seq 0 (length x)))) as Hs by done.
    apply mapM_is_Some in Hs. rewrite Forall_forall in Hs.
    apply Hs, elem_of_seq. lia. }
  destruct Hbad as [Hlen|[Hin|[Hne Hm]]].
  - destruct (Hall n Hlen) as [e He].
    rewrite (end_points_spec n m U x n HU) in He.
    destruct (x !! n); simpl in He; [|done].
    destruct (head l); simpl in He; [|done].
    destruct (last l); simpl in He; [|done].
    by rewrite decide_False in He by lia.
  - apply list_elem_of_lookup in Hin as [k Hk].
    destruct (Hall k) as [e He]; [by apply lookup_lt_Some in Hk|].
    rewrite (end_points_spec n m U x k HU), Hk in He. done.
  - destruct x as [|xs x]; [done|].
    destruct (Hall 0) as [e He]; [simpl; lia|].
    rewrite (end_points_spec n m U (xs :: x) 0 HU) in He. simpl in He.
    destruct (head xs); simpl in He; [|done].
    destruct (last xs); simpl in He; [|done].
    case_decide; [|done].
    destruct (get U 0 0) as [u|] eqn:Hu; [|done].
    apply (get_Some n m) in Hu; [lia|done].
Qed.
End SlopeEdges.

(** * More on the driver *)

Section DriverEdges.
Context {F : Type} `{Float64 F} `{Interpolant F}.
Implicit Types (U V R : list (list F)) (ls rs : list F) (x : list (list F)).

Section Loops.
Variables (dx dt Dt : F) (K : Z) (p : params F) (x : list (list F)).

(** The states the loops compute do not depend on the log. *)
Lemma pi_cycles_fst i : ∀ U ls rs log log',
  fst <$> pi_cycles dx dt Dt K p i U ls rs log
  = fst <$> pi_cycles dx dt Dt K p i U ls rs log'.
Proof.
  induction i as [|i IH]; intros U ls rs log log'; simpl; [done|].
  destruct (projective_microcycle U dx dt Dt K ls rs p); simpl; [|done].
  apply IH.
Qed.

Lemma patch_steps_fst n_PI i : ∀ U log log',
  fst <$> patch_steps dx dt Dt K p x i n_PI U log
  = fst <$> patch_steps dx dt Dt K p x i n_PI U log'.
Proof.
  induction i as [|i IH]; intros U log log'; simpl; [done|].
  destruct (spline_slopes U x) as [[ls rs]|]; simpl; [|done].
  pose proof (pi_cycles_fst n_PI U ls rs (log ++ [CallSlopes U])
                (log' ++ [CallSlopes U])) as Hc.
  destruct (pi_cycles dx dt Dt K p n_PI U ls rs (log ++ [CallSlopes U]))
    as [[V l]|],
    (pi_cycles dx dt Dt K p n_PI U ls rs (log' ++ [CallSlopes U]))
    as [[V' l']|]; simpl in *; try done.
  injection Hc as <-. apply IH.
Qed.

(** [a + b] outer iterations are [a] of them followed by [b]. *)
Lemma patch_steps_add n_PI a b : ∀ U log,
  fst <$> patch_steps dx dt Dt K p x (a + b) n_PI U log
  = (fst <$> patch_steps dx dt Dt K p x a n_PI U log) ≫=
      λ U1, fst <$> patch_steps dx dt Dt K p x b n_PI U1 [].
Proof.
  induction a as [|a IH]; intros U log; simpl; [apply patch_steps_fst|].
  destruct (spline_slopes U x) as [[ls rs]|]; simpl; [|done].
  destruct (pi_cycles dx dt Dt K p n_PI U ls rs (log ++ [CallSlopes U]))
    as [[V l]|]; simpl; [|done].
  apply IH.
Qed.

(** Outer iterations without cycles leave the state as it is. *)
Lemma patch_steps_no_cycles i : ∀ U log,
  patch_steps dx dt Dt K p x (S i) 0 U log
  = spline_slopes U x ≫= λ _, Some (U, log ++ replicate (S i) (CallSlopes U)).
Proof.
  induction i as [|i IH]; intros U log.
  - simpl. by destruct (spline_slopes U x) as [[ls rs]|].
  - change (patch_steps dx dt Dt K p x (S (S i)) 0 U log)
      with ('(ls, rs) ← spline_slopes U x;
            '(U', log') ← Some (U, log ++ [CallSlopes U]);
            patch_steps dx dt Dt K p x (S i) 0 U' log').
    destruct (spline_slopes U x) as [[ls rs]|] eqn:Hs; [|done].
    cbn [mbind option_bind]. rewrite IH, Hs. simpl.
    by rewrite <- app_assoc.
Qed.

Lemma pi_cycles_last n m i : ∀ U ls rs log U' log',
  has_shape n m U →
  pi_cycles dx dt Dt K p (S i) U ls rs log = Some (U', log') →
  ∃ V, has_shape n m V ∧ projective_microcycle V dx dt Dt K ls rs p = Some U'.
Proof.
  induction i as [|i IH]; intros U ls rs log U' log' HU Hp.
  - simpl in Hp. apply bind_Some in Hp as (V & HV & [= <- <-]). by exists U.
  - change (pi_cycles dx dt Dt K p (S (S i)) U ls rs log)
      with (U1 ← projective_microcycle U dx dt Dt K ls rs p;
            pi_cycles dx dt Dt K p (S i) U1 ls rs (log ++ [CallCycle U ls rs]))
      in Hp.
    apply bind_Some in Hp as (U1 & HU1 & Hp).
    eapply IH; [|exact Hp]. by eapply projective_microcycle_shape.
Qed.
End Loops.

(** X14. When [round(T / T_patch) <= 0] the driver returns the patches
    it was given, and calls neither [spline_slopes] nor
    [projective_microcycle]; [x_array] is not read. *)
Theorem no_patch_steps_returns_input u0_patch x dx dt Dt (K : Z) T_patch T p
    U q1 q2 (n_patch_steps n_PI_steps : Z) :
  np_stack u0_patch = Some U →
  f_pydiv T T_patch = Some q1 → f_round_int q1 = Some n_patch_steps →
  f_pydiv T_patch Dt = Some q2 → f_round_int q2 = Some n_PI_steps →
  (n_patch_steps ≤ 0)%Z →
  gaptooth_run u0_patch x dx dt Dt K T_patch T p = Some (u0_patch, []).
Proof.
  intros HU Hq1 Hn1 Hq2 Hn2 Hle. unfold gaptooth_run.
  rewrite HU. simpl. rewrite Hq1. simpl. rewrite Hn1. simpl.
  rewrite Hq2. simpl. rewrite Hn2. simpl.
  replace (Z.to_nat n_patch_steps) with 0 by lia. simpl.
  by apply np_stack_Some in HU as [-> _].
Qed.

(** X15. When [round(T_patch / Dt) <= 0] and at least one outer
    iteration runs, the driver calls [spline_slopes] on the initial state
    in every outer iteration and nothing else: it returns the patches it
    was given if that call returns, and raises if it raises. *)
Theorem no_cycles_returns_input u0_patch x dx dt Dt (K : Z) T_patch T p
    U q1 q2 (n_patch_steps n_PI_steps : Z) :
  np_stack u0_patch = Some U →
  f_pydiv T T_patch = Some q1 → f_round_int q1 = Some n_patch_steps →
  f_pydiv T_patch Dt = Some q2 → f_round_int q2 = Some n_PI_steps →
  (1 ≤ n_patch_steps)%Z → (n_PI_steps ≤ 0)%Z →
  gaptooth_run u0_patch x dx dt Dt K T_patch T p
  = spline_slopes u0_patch x ≫= λ _,
      Some (u0_patch, replicate (Z.to_nat n_patch_steps) (CallSlopes u0_patch)).
Proof.
  intros HU Hq1 Hn1 Hq2 Hn2 H1 H2. unfold gaptooth_run.
  rewrite HU. simpl. rewrite Hq1. simpl. rewrite Hn1. simpl.
  rewrite Hq2. simpl. rewrite Hn2. simpl.
  apply np_stack_Some in HU as [-> _].
  replace (Z.to_nat n_PI_steps) with 0 by lia.
  destruct (Z.to_nat n_patch_steps) as [|i] eqn:Hi; [lia|].
  rewrite patch_steps_no_cycles.
  by destruct (spline_slopes u0_patch x) as [[ls rs]|].
Qed.

(** X16. A run can be cut in two: if [T1], [T2] and [T] round to
    [n1 >= 0], [n2 >= 0] and [n1 + n2] outer iterations, the driver over
    [T] returns what the driver over [T2] returns on the result of the
    driver over [T1] (and raises whenever the two runs in sequence do). *)
Theorem driver_restarts u0_patch x dx dt Dt (K : Z) T_patch T1 T2 T p
    q1 q2 q (n1 n2 : Z) :
  f_pydiv T1 T_patch = Some q1 → f_round_int q1 = Some n1 →
  f_pydiv T2 T_patch = Some q2 → f_round_int q2 = Some n2 →
  f_pydiv T T_patch = Some q → f_round_int q = Some (n1 + n2)%Z →
  (0 ≤ n1)%Z → (0 ≤ n2)%Z →
  gaptooth_PI_vectorised u0_patch x dx dt Dt K T_patch T p =
    u1_patch ← gaptooth_PI_vectorised u0_patch x dx dt Dt K T_patch T1 p;
    gaptooth_PI_vectorised u1_patch x dx dt Dt K T_patch T2 p.
Proof.
  intros Hq1 Hn1 Hq2 Hn2 Hq Hn H1 H2.
  unfold gaptooth_PI_vectorised, gaptooth_run.
  destruct (np_stack u0_patch) as [U|] eqn:HU; simpl; [|done].
  rewrite Hq, Hq1. simpl. rewrite Hn, Hn1. simpl.
  destruct (f_pydiv T_patch Dt) as [qd|] eqn:Hqd; simpl; [|done].
  destruct (f_round_int qd) as [nd|] eqn:Hnd; simpl; [|done].
  replace (Z.to_nat (n1 + n2)) with (Z.to_nat n1 + Z.to_nat n2) by lia.
  pose proof (patch_steps_add dx dt Dt K p x (Z.to_nat nd) (Z.to_nat n1)
                (Z.to_nat n2) U []) as Hadd.
  destruct (patch_steps dx dt Dt K p x (Z.to_nat n1 + Z.to_nat n2)
              (Z.to_nat nd) U []) as [[R l]|] eqn:HR;
    destruct (patch_steps dx dt Dt K p x (Z.to_nat n1) (Z.to_nat nd) U [])
      as [[U1 l1]|] eqn:HU1; simpl in *; try done.
  - apply np_stack_Some in HU as (-> & m & HUs & Hpos).
    pose proof (patch_steps_shape _ _ _ _ _ _ _ _ _ _ _ _ _ _ HUs HU1) as HU1s.
    rewrite (np_stack_shape _ m U1 HU1s Hpos). simpl.
    rewrite Hq2. simpl. rewrite Hn2. simpl.
    destruct (patch_steps dx dt Dt K p x (Z.to_nat n2) (Z.to_nat nd) U1 [])
      as [[R' l']|]; simpl in *; [|done]. by injection Hadd as <-.
  - apply np_stack_Some in HU as (-> & m & HUs & Hpos).
    pose proof (patch_steps_shape _ _ _ _ _ _ _ _ _ _ _ _ _ _ HUs HU1) as HU1s.
    rewrite (np_stack_shape _ m U1 HU1s Hpos). simpl.
    rewrite Hq2. simpl. rewrite Hn2. simpl.
    by destruct (patch_steps dx dt Dt K p x (Z.to_nat n2) (Z.to_nat nd) U1 [])
      as [[R' l']|].
Qed.

(** X17. A run of the driver that returns was given a non-empty list
    of patches of one length, and returns as many patches, of the same
    length. *)
Theorem driver_keeps_shape u0_patch x dx dt Dt (K : Z) T_patch T p rows :
  gaptooth_PI_vectorised u0_patch x dx dt Dt K T_patch T p = Some rows →
  u0_patch ≠ [] ∧
  ∃ m, has_shape (length u0_patch) m u0_patch ∧
       has_shape (length u0_patch) m rows.
Proof.
  intros Hg. pose proof Hg as Hg'.
  unfold gaptooth_PI_vectorised, gaptooth_run in Hg'.
  destruct (np_stack u0_patch) as [U|] eqn:HU; [|done].
  apply np_stack_Some in HU as (-> & m & HUs & Hpos).
  split; [by destruct u0_patch|]. exists m. split; [done|].
  by apply (gaptooth_shape _ _ u0_patch x dx dt Dt K T_patch T p).
Qed.

(** X18. After a run of at least one outer iteration of at least one
    cycle, the result has the value [0.0] at the two outer ends; and, for
    patches of at least three points, every inner patch satisfies the two
    slope relations, with the slopes that [spline_slopes] computes from
    the state [W] reached before the last outer iteration. *)
Theorem driver_result_boundary n m u0_patch x dx dt Dt (K : Z) T_patch T p rows
    q1 q2 (n_patch_steps n_PI_steps : Z) :
  has_shape n m u0_patch →
  gaptooth_PI_vectorised u0_patch x dx dt Dt K T_patch T p = Some rows →
  f_pydiv T T_patch = Some q1 → f_round_int q1 = Some n_patch_steps →
  f_pydiv T_patch Dt = Some q2 → f_round_int q2 = Some n_PI_steps →
  (1 ≤ n_patch_steps)%Z → (1 ≤ n_PI_steps)%Z →
  outer_edges_zero n m rows ∧
  ∃ W ls rs,
    fst <$> patch_steps dx dt Dt K p x (Z.to_nat n_patch_steps - 1)
              (Z.to_nat n_PI_steps) u0_patch [] = Some W ∧
    spline_slopes W x = Some (ls, rs) ∧
    (3 ≤ m → length x = n →
     ∀ k, 0 < k < n - 1 → inner_edges_tied m dx ls rs k rows).
Proof.
  intros HU Hg Hq1 Hn1 Hq2 Hn2 H1 H2.
  unfold gaptooth_PI_vectorised, gaptooth_run in Hg.
  destruct (np_stack u0_patch) as [U|] eqn:HU0; [|done].
  apply np_stack_Some in HU0 as (-> & _). simpl in Hg.
  rewrite Hq1 in Hg. simpl in Hg. rewrite Hn1 in Hg. simpl in Hg.
  rewrite Hq2 in Hg. simpl in Hg. rewrite Hn2 in Hg. simpl in Hg.
  destruct (Z.to_nat n_patch_steps) as [|a] eqn:Ha; [lia|].
  destruct (Z.to_nat n_PI_steps) as [|b] eqn:Hb; [lia|].
  pose proof (patch_steps_add dx dt Dt K p x (S b) a 1 u0_patch []) as Hadd.
  replace (a + 1) with (S a) in Hadd by lia.
  destruct (patch_steps dx dt Dt K p x (S a) (S b) u0_patch []) as [[R l]|] eqn:HR;
    [|done].
  simpl in Hg. injection Hg as <-.
  replace (S a - 1) with a by lia.
  destruct (patch_steps dx dt Dt K p x a (S b) u0_patch []) as [[W lW]|] eqn:HW;
    [|done].
  pose proof (patch_steps_shape _ _ _ _ _ _ _ _ _ _ _ _ _ _ HU HW) as HWs.
  cbn [fmap option_fmap option_map fst mbind option_bind] in Hadd.
  change (patch_steps dx dt Dt K p x 1 (S b) W [])
    with ('(ls, rs) ← spline_slopes W x;
          '(U', log') ← pi_cycles dx dt Dt K p (S b) W ls rs ([] ++ [CallSlopes W]);
          Some (U', log')) in Hadd.
  destruct (spline_slopes W x) as [[ls rs]|] eqn:Hs; [|done].
  cbn [mbind option_bind] in Hadd.
  destruct (pi_cycles dx dt Dt K p (S b) W ls rs ([] ++ [CallSlopes W]))
    as [[R' l']|] eqn:Hc; [|done].
  simpl in Hadd. injection Hadd as ->.
  destruct (pi_cycles_last _ _ _ _ _ n m b W ls rs _ _ _ HWs Hc)
    as (V & HVs & HV).
  unfold projective_microcycle in HV.
  apply bind_Some in HV as (V1 & HV1 & HV).
  apply bind_Some in HV as (V2 & HV2 & HV).
  assert (has_shape n m V1) as HV1s.
  { eapply (repeat_step_shape n m); [|exact HVs|exact HV1].
    intros U' R'' ??. by apply (euler_step_shape n m U' dx dt ls rs p). }
  pose proof (euler_step_shape _ _ _ _ _ _ _ _ _ HV1s HV2) as HV2s.
  pose proof (has_shape_extrapolate n m V1 V2 dt Dt K HV1s HV2s) as HEs.
  destruct (impose_bcs_corners _ _ _ _ _ _ _ HEs HV) as (_ & _ & _ & _ & ? & ?).
  split; [done|]. exists W, ls, rs. split_and!; [done..|].
  intros Hm Hx k Hk.
  destruct (spline_slopes_length _ _ _ _ Hs) as [Hls Hrs].
  apply (impose_bcs_inner_edges n m _ dx ls rs R' k HEs); (done || lia).
Qed.

Lemma spline_slopes_grid n m U x (x' : list (list F)) :
  has_shape n m U →
  Forall2 (λ xs xs', head xs = head xs' ∧ last xs = last xs') x x' →
  spline_slopes U x = spline_slopes U x'.
Proof.
  intros HU Hx. unfold spline_slopes.
  rewrite <- (Forall2_length _ _ _ Hx).
  rewrite (mapM_ext_Forall (end_points U x) (end_points U x')); [done|].
  apply Forall_forall. intros k _. by apply (end_points_ends n m).
Qed.

Lemma patch_steps_grid n m dx dt Dt (K : Z) p x (x' : list (list F)) n_PI :
  Forall2 (λ xs xs', head xs = head xs' ∧ last xs = last xs') x x' →
  ∀ i U log, has_shape n m U →
    patch_steps dx dt Dt K p x i n_PI U log
    = patch_steps dx dt Dt K p x' i n_PI U log.
Proof.
  intros Hx. induction i as [|i IH]; intros U log HU; simpl; [done|].
  rewrite (spline_slopes_grid n m U x x') by done.
  destruct (spline_slopes U x') as [[ls rs]|]; simpl; [|done].
  destruct (pi_cycles dx dt Dt K p n_PI U ls rs (log ++ [CallSlopes U]))
    as [[V l]|] eqn:HV; simpl; [|done].
  apply IH. by eapply pi_cycles_shape.
Qed.

(** X25. The driver reads the grids at their end points only: two
    lists of grids with the same first and last point in every grid give
    the same result (or both raise). *)
Theorem driver_reads_grid_ends_only u0_patch x (x' : list (list F)) dx dt Dt
    (K : Z) T_patch T p :
  Forall2 (λ xs xs', head xs = head xs' ∧ last xs = last xs') x x' →
  gaptooth_PI_vectorised u0_patch x dx dt Dt K T_patch T p
  = gaptooth_PI_vectorised u0_patch x' dx dt Dt K T_patch T p.
Proof.
  intros Hx. unfold gaptooth_PI_vectorised, gaptooth_run.
  destruct (np_stack u0_patch) as [U|] eqn:HU; simpl; [|done].
  apply np_stack_Some in HU as (-> & m & HUs & _).
  destruct (f_pydiv T T_patch) as [q1|]; simpl; [|done].
  destruct (f_round_int q1) as [n1|]; simpl; [|done].
  destruct (f_pydiv T_patch Dt) as [q2|]; simpl; [|done].
  destruct (f_round_int q2) as [n2|]; simpl; [|done].
  by rewrite (patch_steps_grid (length u0_patch) m dx dt Dt K p x x').
Qed.
End DriverEdges.

(** * The decorator, the objects of the stepper and the domain of the experiments *)

Section CounterFacts.
Context {F : Type} `{Float64 F} `{Interpolant F}.

Lemma eval_counter_calls {A B : Type} (func : A → B) (l : list A) : ∀ c,
  attr_count c = closure_count c →
  let out := calls (eval_counter func) c l in
  attr_count out.1 = (attr_count c + Z.of_nat (length l))%Z ∧
  closure_count out.1 = attr_count out.1 ∧
  out.2 = func <$> l.
Proof.
  induction l as [|a l IH]; intros c Hc; simpl.
  - split_and!; [lia|done|done].
  - specialize (IH (Counter (closure_count c + 1) (closure_count c + 1)) eq_refl).
    simpl in IH.
    destruct (calls (eval_counter func)
                (Counter (closure_count c + 1) (closure_count c + 1)) l)
      as [c2 bs]. simpl in *.
    destruct IH as (-> & -> & ->). split_and!; [lia|done|done].
Qed.

(** X19. [psiPatch.count] is [0] after the decoration and, after any
    sequence of calls, the number of calls made, those that raised
    included; each call returns what the body of [psiPatch] returns. *)
Theorem psiPatch_count_is_number_of_calls (x : list (list F)) dx dt Dt (K : Z)
    T_patch T_psi p (inputs : list (list F)) :
  let out := calls (λ c u0_numpy, psiPatch c u0_numpy x dx dt Dt K T_patch T_psi p)
               counter_init inputs in
  attr_count counter_init = 0%Z ∧
  attr_count out.1 = Z.of_nat (length inputs) ∧
  out.2 = (λ u0_numpy, psiPatch_body u0_numpy x dx dt Dt K T_patch T_psi p)
            <$> inputs.
Proof.
  pose proof (eval_counter_calls
                (λ u0_numpy, psiPatch_body u0_numpy x dx dt Dt K T_patch T_psi p)
                inputs counter_init eq_refl) as (H1 & _ & H2).
  split; [done|]. split; [exact H1|exact H2].
Qed.
End CounterFacts.

Section StepperObjects.
Context {F : Type} `{Float64 F} `{Interpolant F}.

(** X20. [euler_step] and [projective_microcycle] do not write to the
    arrays they are given: after a call that returns, every object of the
    store, the state [U] and the two slope arrays among them, is as it
    was, and the array returned is a new object, which holds the value
    the value layer computes. *)
Theorem stepper_leaves_its_arguments (U : loc) dx dt Dt (K : Z) (ls rs : loc) p
    (h : store F) Uv lsv rsv :
  h !! U = Some (Mat Uv) → h !! ls = Some (Vec lsv) → h !! rs = Some (Vec rsv) →
  (∀ R h', euler_step_st U dx dt ls rs p h = Some (R, h') →
     h `prefix_of` h' ∧ length h ≤ R ∧
     h' !! U = Some (Mat Uv) ∧ h' !! ls = Some (Vec lsv) ∧
     h' !! rs = Some (Vec rsv) ∧
     ∃ Rv, euler_step Uv dx dt lsv rsv p = Some Rv ∧ h' !! R = Some (Mat Rv)) ∧
  (∀ R h', projective_microcycle_st U dx dt Dt K ls rs p h = Some (R, h') →
     h `prefix_of` h' ∧ length h ≤ R ∧
     h' !! U = Some (Mat Uv) ∧ h' !! ls = Some (Vec lsv) ∧
     h' !! rs = Some (Vec rsv) ∧
     ∃ Rv, projective_microcycle Uv dx dt Dt K lsv rsv p = Some Rv ∧
           h' !! R = Some (Mat Rv)).
Proof.
  intros HU Hls Hrs. split; intros R h' Hst.
  - apply euler_step_st_Some in Hst
      as (Uv' & lsv' & rsv' & Rv & HU' & Hls' & Hrs' & HR & -> & ->).
    rewrite HU in HU'. rewrite Hls in Hls'. rewrite Hrs in Hrs'.
    injection HU' as <-. injection Hls' as <-. injection Hrs' as <-.
    split_and!; [by apply prefix_app_r|done|..].
    + by rewrite lookup_app_l by (by eapply lookup_lt_Some).
    + by rewrite lookup_app_l by (by eapply lookup_lt_Some).
    + by rewrite lookup_app_l by (by eapply lookup_lt_Some).
    + exists Rv. split; [done|]. by rewrite list_lookup_middle.
  - destruct (projective_microcycle_st_Some _ _ _ _ _ _ _ _ _ _ _ _ _ _
                HU Hls Hrs Hst) as (Rv & HR & Hpre & Hge & HRl).
    split_and!; [done|done|..].
    + by apply (prefix_lookup_Some h h').
    + by apply (prefix_lookup_Some h h').
    + by apply (prefix_lookup_Some h h').
    + by exists Rv.
Qed.
End StepperObjects.

Section DomainFacts.
Context {F : Type} `{Float64 F}.

Lemma slice_bound_inside (n : nat) (i : Z) :
  (0 ≤ i ≤ Z.of_nat n)%Z → slice_bound n i = Z.to_nat i.
Proof.
  intros Hi. unfold slice_bound. rewrite decide_False by lia. f_equal. lia.
Qed.

(** X21. The patches that the experiments cut out of an array on the
    full grid: for a domain with at least one tooth, at least one point
    per tooth and no negative gap, and an array of [N] entries, the
    result has [n_teeth] rows of [n_points_per_tooth] entries, row [i]
    holds the entries from [i * (n_points_per_gap + n_points_per_tooth)]
    on, the last entry of the last row is the last entry of the array,
    and [toNumpyArray] turns the patches into a vector of
    [M = n_teeth * n_points_per_tooth] entries. *)
Theorem cut_patches_layout (d : domain) (u : list F) :
  (1 ≤ n_teeth d)%Z → (1 ≤ n_points_per_tooth d)%Z → (0 ≤ n_points_per_gap d)%Z →
  Z.of_nat (length u) = N d →
  has_shape (Z.to_nat (n_teeth d)) (Z.to_nat (n_points_per_tooth d))
    (cut_patches d u) ∧
  (∀ i j : nat,
     (Z.of_nat i < n_teeth d)%Z → (Z.of_nat j < n_points_per_tooth d)%Z →
     get (cut_patches d u) i j
     = u !! (i * Z.to_nat (n_points_per_gap d + n_points_per_tooth d) + j)) ∧
  get (cut_patches d u) (Z.to_nat (n_teeth d) - 1)
    (Z.to_nat (n_points_per_tooth d) - 1) = u !! (length u - 1) ∧
  ∃ flat, toNumpyArray (cut_patches d u) = Some flat ∧
          Z.of_nat (length flat) = M_points d.
Proof.
  intros Hn Ht Hg Hlen.
  set (g := n_points_per_gap d) in *. set (t := n_points_per_tooth d) in *.
  assert (N d = (n_teeth d - 1) * (g + t) + t)%Z as HN.
  { unfold N, n_gaps. fold g t. lia. }
  assert (∀ i : nat, (Z.of_nat i < n_teeth d)%Z →
            cut_patches d u !! i
            = Some (take (Z.to_nat t) (drop (i * Z.to_nat (g + t)) u))) as Hrow.
  { intros i Hi. unfold cut_patches. rewrite list_lookup_fmap.
    rewrite lookup_seqZ_lt by lia. simpl. f_equal. fold g t. unfold py_slice.
    rewrite !slice_bound_inside by nia.
    f_equal; [nia|]. f_equal. nia. }
  assert (has_shape (Z.to_nat (n_teeth d)) (Z.to_nat t) (cut_patches d u)) as Hs.
  { split.
    - unfold cut_patches. rewrite length_fmap, length_seqZ. lia.
    - apply Forall_forall. intros r Hr.
      apply list_elem_of_lookup in Hr as [i Hi].
      assert (Z.of_nat i < n_teeth d)%Z as Hin.
      { apply lookup_lt_Some in Hi. unfold cut_patches in Hi.
        rewrite length_fmap, length_seqZ in Hi. lia. }
      rewrite Hrow in Hi by done. injection Hi as <-.
      rewrite length_take, length_drop. nia. }
  assert (∀ i j : nat, (Z.of_nat i < n_teeth d)%Z → (Z.of_nat j < t)%Z →
            get (cut_patches d u) i j = u !! (i * Z.to_nat (g + t) + j)) as He.
  { intros i j Hi Hj. unfold get. rewrite Hrow by done. simpl.
    rewrite lookup_take, decide_True by lia. by rewrite lookup_drop. }
  split_and!; [done|done|..].
  - rewrite He by lia. f_equal. nia.
  - rewrite (toNumpyArray_uniform (Z.to_nat t)).
    + eexists. split; [done|].
      rewrite (length_concat_shape _ _ _ Hs). unfold M_points. fold t. nia.
    + destruct Hs as [Hl _]. destruct (cut_patches d u); [simpl in Hl; lia|done].
    + by destruct Hs.
Qed.
End DomainFacts.

(** * More on binary64 *)

Section Difference.
Open Scope Z_scope.
Variables prec emax : Z.
Hypothesis Hprec : 0 < prec.

(** On valid floats, [a > b] makes [a - b] positive. *)
Lemma SFsub_positive a b :
  valid_binary prec emax a = true → valid_binary prec emax b = true →
  SFcompare a b = Some Gt → B64.signed false (SFsub prec emax a b).
Proof.
  intros Ha Hb Hgt.
  destruct a as [sa|sa| |sa ma ea], b as [sb|sb| |sb mb eb];
    try discriminate Hgt;
    try (destruct sa; try discriminate Hgt; reflexivity);
    try (destruct sb; try discriminate Hgt; reflexivity);
    try (destruct sa, sb; try discriminate Hgt; reflexivity).
  simpl in Ha, Hb. unfold SFsub.
  destruct (bounded_inv prec emax _ _ Ha) as (Hea & _),
    (bounded_inv prec emax _ _ Hb) as (Heb & _).
  set (ez := Z.min ea eb).
  pose proof (shl_align_value ma ea ez ltac:(lia)) as HA.
  pose proof (shl_align_value mb eb ez ltac:(lia)) as HB.
  assert (0 < cond_Zopp sa (Z.pos (shl_align ma ea ez).1) -
              cond_Zopp sb (Z.pos (shl_align mb eb ez).1)) as Hpos.
  { unfold SFcompare in Hgt.
    destruct sa, sb; simpl cond_Zopp; try discriminate Hgt; [| lia |].
    - destruct (ea ?= eb) eqn:Hc; try discriminate Hgt.
      + apply Z.compare_eq in Hc. subst eb.
        destruct (Pos.compare_cont Eq ma mb) eqn:Hm; try discriminate Hgt.
        pose proof (aligned_lt prec emax Hprec ma ea mb ea Ha Hb) as Hal.
        subst ez. rewrite Z.min_id in Hal, HA, HB |- *.
        rewrite HA, HB. apply Pos.compare_lt_iff in Hm.
        specialize (Hal (or_intror (conj eq_refl Hm))). lia.
      + apply Z.compare_lt_iff in Hc.
        pose proof (aligned_lt prec emax Hprec ma ea mb eb Ha Hb (or_introl Hc))
          as Hal.
        fold ez in Hal. rewrite HA, HB. lia.
    - destruct (ea ?= eb) eqn:Hc; try discriminate Hgt.
      + apply Z.compare_eq in Hc. subst eb.
        destruct (Pos.compare_cont Eq ma mb) eqn:Hm; try discriminate Hgt.
        pose proof (aligned_lt prec emax Hprec mb ea ma ea Hb Ha) as Hal.
        subst ez. rewrite Z.min_id in Hal, HA, HB |- *.
        rewrite HA, HB. apply Pos.compare_gt_iff in Hm.
        specialize (Hal (or_intror (conj eq_refl Hm))). lia.
      + apply Z.compare_gt_iff in Hc.
        pose proof (aligned_lt prec emax Hprec mb eb ma ea Hb Ha (or_introl Hc))
          as Hal.
        rewrite Z.min_comm in Hal. fold ez in Hal. rewrite HA, HB. lia. }
  destruct (cond_Zopp sa (Z.pos (shl_align ma ea ez).1) -
            cond_Zopp sb (Z.pos (shl_align mb eb ez).1)) as [|d|d]; try lia.
  simpl. apply binary_round_signed; [done|]. lia.
Qed.

(** The difference of two valid floats is a zero exactly when they are
    the same finite float, or two zeros. *)
Lemma SFsub_zero_iff a b :
  valid_binary prec emax a = true → valid_binary prec emax b = true →
  B64.is_zero (SFsub prec emax a b) = true ↔
  (B64.is_finite a = true ∧ a = b) ∨
  (B64.is_zero a = true ∧ B64.is_zero b = true).
Proof.
  intros Ha Hb. split.
  - intros Hz. destruct (SFcompare a b) as [[| |]|] eqn:Hc.
    + destruct a as [sa|sa| |sa ma ea], b as [sb|sb| |sb mb eb];
        try discriminate Hc; try (by right);
        try (destruct sa, sb; discriminate).
      left. split; [done|]. unfold SFcompare in Hc.
      destruct sa, sb; try discriminate Hc.
      * destruct (ea ?= eb) eqn:He; try discriminate Hc.
        apply Z.compare_eq in He. subst eb.
        destruct (Pos.compare_cont Eq ma mb) eqn:Hm; try discriminate Hc.
        apply Pos.compare_eq in Hm. by subst.
      * destruct (ea ?= eb) eqn:He; try discriminate Hc.
        apply Z.compare_eq in He. subst eb.
        destruct (Pos.compare_cont Eq ma mb) eqn:Hm; try discriminate Hc.
        apply Pos.compare_eq in Hm. by subst.
    + assert (SFltb a b = true) as Hlt by (unfold SFltb; by rewrite Hc).
      pose proof (SFsub_negative prec emax Hprec a b Ha Hb Hlt) as Hn.
      by destruct (SFsub prec emax a b).
    + pose proof (SFsub_positive a b Ha Hb Hc) as Hp.
      by destruct (SFsub prec emax a b).
    + destruct a as [sa|sa| |sa ma ea], b as [sb|sb| |sb mb eb];
        try discriminate Hc; try discriminate Hz.
  - intros [[Hf <-]|[Hza Hzb]].
    + destruct a as [sa|sa| |sa ma ea]; try discriminate Hf.
      * by destruct sa.
      * unfold SFsub. rewrite Z.sub_diag. reflexivity.
    + destruct a as [sa| | |], b as [sb| | |]; try discriminate.
      by destruct sa, sb.
Qed.

Lemma SFcompare_swap a b : SFcompare b a = CompOpp <$> SFcompare a b.
Proof.
  destruct a as [sa|sa| |sa ma ea], b as [sb|sb| |sb mb eb];
    try reflexivity; try (by destruct sa); try (by destruct sb);
    try (by destruct sa, sb).
  unfold SFcompare.
  destruct sa, sb; try reflexivity; simpl; f_equal.
  - rewrite (Z.compare_antisym ea eb).
    destruct (ea ?= eb); simpl; try reflexivity.
    by rewrite (Pos.compare_cont_antisym ma mb Eq).
  - rewrite (Z.compare_antisym ea eb).
    destruct (ea ?= eb); simpl; try reflexivity.
    by rewrite (Pos.compare_cont_antisym ma mb Eq).
Qed.

Lemma signed_false_gt_zero r :
  B64.signed false r ↔ SFltb (S754_zero false) r = true.
Proof. destruct r as [| [|] | |[|] m e]; simpl; split; done. Qed.

Lemma signed_true_iff r :
  B64.signed true r ↔ SFltb r (S754_zero false) = true.
Proof. destruct r as [| [|] | |[|] m e]; simpl; split; done. Qed.

(** The sign of the difference of two valid floats is the outcome of
    their comparison. *)
Lemma SFsub_sign a b :
  valid_binary prec emax a = true → valid_binary prec emax b = true →
  (SFltb (SFsub prec emax a b) (S754_zero false) = true ↔ SFltb a b = true) ∧
  (SFltb (S754_zero false) (SFsub prec emax a b) = true ↔ SFltb b a = true).
Proof.
  intros Ha Hb.
  assert (SFltb b a = true ↔ SFcompare a b = Some Gt) as Hswap.
  { unfold SFltb. rewrite SFcompare_swap.
    destruct (SFcompare a b) as [[| |]|]; simpl; split; done. }
  rewrite Hswap, <- signed_false_gt_zero, <- signed_true_iff. clear Hswap.
  destruct (SFcompare a b) as [[| |]|] eqn:Hc.
  - assert (SFltb a b = false) as -> by (unfold SFltb; by rewrite Hc).
    assert (B64.is_zero (SFsub prec emax a b) = true
            ∨ SFsub prec emax a b = S754_nan) as [Hz| ->].
    { destruct a as [sa|sa| |sa ma ea], b as [sb|sb| |sb mb eb];
        try discriminate Hc; try (left; by destruct sa, sb);
        try (destruct sa, sb; discriminate Hc).
      - right. by destruct sa, sb.
      - left. apply SFsub_zero_iff; [done..|]. left. split; [done|].
        unfold SFcompare in Hc. destruct sa, sb; try discriminate Hc.
        + destruct (ea ?= eb) eqn:He; try discriminate Hc.
          apply Z.compare_eq in He. subst eb.
          destruct (Pos.compare_cont Eq ma mb) eqn:Hm; try discriminate Hc.
          apply Pos.compare_eq in Hm. by subst.
        + destruct (ea ?= eb) eqn:He; try discriminate Hc.
          apply Z.compare_eq in He. subst eb.
          destruct (Pos.compare_cont Eq ma mb) eqn:Hm; try discriminate Hc.
          apply Pos.compare_eq in Hm. by subst. }
    + destruct (SFsub prec emax a b); try discriminate Hz. simpl.
      split; split; done.
    + simpl. split; split; done.
  - assert (SFltb a b = true) as Hlt by (unfold SFltb; by rewrite Hc).
    pose proof (SFsub_negative prec emax Hprec a b Ha Hb Hlt) as Hn.
    apply signed_true_iff in Hn. rewrite Hlt.
    destruct (SFsub prec emax a b) as [| [|] | |[|] m e]; simpl in *;
      split; split; done.
  - assert (SFltb a b = false) as -> by (unfold SFltb; by rewrite Hc).
    pose proof (SFsub_positive a b Ha Hb Hc) as Hp.
    destruct (SFsub prec emax a b) as [| [|] | |[|] m e]; simpl in *;
      split; split; done.
  - assert (SFltb a b = false) as -> by (unfold SFltb; by rewrite Hc).
    assert (SFsub prec emax a b = S754_nan) as ->.
    { destruct a as [sa|sa| |sa ma ea], b as [sb|sb| |sb mb eb];
        try discriminate Hc; try reflexivity.
      all: destruct sa, sb; discriminate Hc. }
    simpl. split; split; done.
Qed.
End Difference.

Module B64Edges.
Import B64 B64Facts.

Section Edges.
Variables (fexp : float → float) (fsqr : float → option float).
Context {I : Interpolant float}.
Local Instance edge_ops : Float64 float := ops fexp fsqr.

Implicit Types (U V R : list (list float)) (ls rs : list float).
Implicit Types (x : list (list float)).

Lemma pydiv_zero a b : is_zero b = true → pydiv a b = None.
Proof. unfold pydiv. by intros ->. Qed.

Lemma pydiv_nonzero a b : is_zero b = false → pydiv a b = Some (div a b).
Proof. unfold pydiv. by intros ->. Qed.

(** X22. On binary64 the driver raises, whatever the other arguments
  are, on an empty [u0_patch], on patches of different lengths, when
  [T_patch] or [Dt] is a zero (ZeroDivisionError), when [T] or [T_patch]
  is an infinity or a NaN, and when [Dt] is a NaN. *)
Theorem driver_raises (u0_patch : list (list float)) x dx dt Dt (K : Z) T_patch T p :
u0_patch = [] ∨
(∃ q0 q, u0_patch !! 0 = Some q0 ∧ q ∈ u0_patch ∧ length q ≠ length q0) ∨
is_zero T_patch = true ∨ is_zero Dt = true ∨
is_finite T = false ∨ is_finite T_patch = false ∨ Dt = S754_nan →
gaptooth_PI_vectorised u0_patch x dx dt Dt K T_patch T p = None.
Proof.
intros Hbad. unfold gaptooth_PI_vectorised, gaptooth_run.
destruct (np_stack u0_patch) as [U|] eqn:HU; simpl; [|done].
apply np_stack_Some in HU as (-> & m & HUs & Hpos).
change (f_pydiv T T_patch) with (pydiv T T_patch).
change (f_pydiv T_patch Dt) with (pydiv T_patch Dt).
change (@f_round_int float edge_ops) with round_int.
destruct Hbad as [->|[(q0 & q & Hq0 & Hq & Hne)|[Hz|[Hz|[Hf|[Hf| ->]]]]]].
- simpl in Hpos. lia.
- exfalso. apply Hne.
  apply list_elem_of_lookup in Hq as [i Hi].
  rewrite (has_shape_row _ _ _ _ _ HUs Hi).
  by rewrite (has_shape_row _ _ _ _ _ HUs Hq0).
- by rewrite (pydiv_zero T T_patch).
- destruct (pydiv T T_patch) as [q1|]; simpl; [|done].
  destruct (round_int q1) as [n1|]; simpl; [|done].
  by rewrite (pydiv_zero T_patch Dt).
- destruct (is_zero T_patch) eqn:Hz; [by rewrite (pydiv_zero T T_patch)|].
  rewrite (pydiv_nonzero T T_patch Hz). simpl.
  assert (round_int (div T T_patch) = None) as ->; [|done].
  destruct T as [| | |]; try discriminate Hf;
    destruct T_patch as [| | |]; try discriminate Hz; done.
- rewrite (pydiv_nonzero T T_patch) by (by destruct T_patch).
  simpl.
  destruct (round_int (div T T_patch)) as [n1|]; simpl; [|done].
  destruct (is_zero Dt) eqn:Hz; [by rewrite (pydiv_zero T_patch Dt)|].
  rewrite (pydiv_nonzero T_patch Dt Hz). simpl.
  assert (round_int (div T_patch Dt) = None) as ->; [|done].
  destruct T_patch as [| | |]; try discriminate Hf;
    destruct Dt as [| | |]; try discriminate Hz; done.
- destruct (pydiv T T_patch) as [q1|]; simpl; [|done].
  destruct (round_int q1) as [n1|]; simpl; [|done].
  by destruct T_patch as [| | |].
Qed.

(** The core of a cycle whose coefficient is a zero: the extrapolated
  array is the last micro state up to the sign of zeros, and so is what
  the boundary conditions make of it. *)
Lemma zero_coefficient_bcs n m U dx dt Dt (K : Z) ls rs p R :
has_shape n m U → 3 ≤ m ∨ (m = 2 ∧ n ≤ 2) → length ls = n → length rs = n →
is_zero (sub Dt (mul (of_Z K) dt)) = true →
euler_step U dx dt ls rs p = Some R →
all_finite (mmap (λ v, div v dt) (mzip sub R U)) = true →
∃ R', impose_bcs (extrapolate U R dt Dt K) dx ls rs = Some R' ∧
      has_shape n m R' ∧
      ∀ k j, k < n → j < m →
        ∃ a b, get R k j = Some a ∧ get R' k j = Some b ∧ same_value a b.
Proof.
intros HU Hm Hls Hrs Hc HR Hfin.
pose proof (euler_step_shape _ _ _ _ _ _ _ _ _ HU HR) as HRs.
pose proof HR as HR0. unfold euler_step in HR0.
apply bind_Some in HR0 as (V & HV & HbV).
pose proof (euler_update_shape _ _ _ _ _ _ _ HU HV) as HVs.
destruct (impose_bcs_corners _ _ _ _ _ _ _ HVs HbV) as (_ & Hn & _ & _ & Hc00 & Hcnm).
pose proof (impose_bcs_entries _ _ _ _ _ _ _ HVs Hls Hrs HbV) as HentV.
set (E := extrapolate U R dt Dt K).
assert (has_shape n m E) as HE by (by apply has_shape_extrapolate).
destruct Hm as [Hm|[-> Hn2]].
2:{ exists R. split_and!; [|done|].
    - by rewrite (impose_bcs_small n E V).
    - intros k j Hk Hj. destruct (get_is_Some n 2 R k j HRs Hk Hj) as [a Ha].
      exists a, a. split_and!; [done..|]. apply same_value_refl. }
assert (∀ k j, k < n → j < m →
          ∃ a e, get R k j = Some a ∧ get E k j = Some e ∧ same_value a e) as HER.
{ intros k j Hk Hj.
  destruct (get_is_Some n m R k j HRs Hk Hj) as [a Ha].
  destruct (get_is_Some n m U k j HU Hk Hj) as [b Hb].
  exists a. unfold E. rewrite get_extrapolate, Ha, Hb. simpl.
  eexists. split_and!; [done..|]. apply add_zero_same_value.
  apply mul_zero_finite; [done|].
  apply (all_finite_get _ k j _ Hfin).
  by rewrite get_mmap, get_mzip, Ha, Hb. }
destruct (impose_bcs_is_Some n m E dx ls rs) as [R' HR']; [done|lia..|done|done|].
destruct (impose_bcs_corners _ _ _ _ _ _ _ HE HR') as (HRs' & _).
pose proof (impose_bcs_entries _ _ _ _ _ _ _ HE Hls Hrs HR') as HentE.
exists R'. split_and!; [done|done|].
assert (∀ k c, k < n → 0 < c < m - 1 → get R k c = get V k c) as Hin.
{ intros k c Hk Hc'. rewrite HentV by lia. unfold right_edges, left_edges, corners.
  destruct (decide (1 < n)); by rewrite !decide_False by lia. }
assert (∀ k c, k < n → 0 < c < m - 1 →
          ∃ a e, get V k c = Some a ∧ get E k c = Some e ∧ same_value a e) as HEV.
{ intros k c Hk Hc'. rewrite <- Hin by done. apply HER; lia. }
intros k c Hk Hcm.
rewrite HentV, HentE by done.
destruct (decide (1 < n)) as [Hn1|Hn1].
- unfold right_edges, left_edges.
  rewrite !(decide_False (P := 1 ≤ k ∧ m - 2 = 0)) by lia.
  destruct (decide (k < n - 1 ∧ c = m - 1)) as [[? ->]|Hnr].
  + destruct (HEV k (m - 2)) as (a & e & Ha & He & Hae); [lia..|].
    destruct (lookup_lt_is_Some_2 rs k) as [s Hs]; [lia|].
    unfold corners. rewrite !decide_False by lia. rewrite Ha, He, Hs. simpl.
    eexists _, _. split_and!; [done..|]. by apply add_same_value.
  + destruct (decide (1 ≤ k ∧ c = 0)) as [[? ->]|Hnl].
    * destruct (HEV k 1) as (a & e & Ha & He & Hae); [lia..|].
      destruct (lookup_lt_is_Some_2 ls k) as [s Hs]; [lia|].
      unfold corners. rewrite !decide_False by lia. rewrite Ha, He, Hs. simpl.
      eexists _, _. split_and!; [done..|]. by apply sub_same_value.
    * unfold corners. repeat case_decide; try (eexists _, _; split_and!; [done|done|by left]).
      apply HEV; lia.
- unfold corners. repeat case_decide; try (eexists _, _; split_and!; [done|done|by left]).
  apply HEV; lia.
Qed.

(** X23. On binary64, when [Dt - K*dt] evaluates to a zero the cycle
  does not extrapolate: for patches of at least three points (or of two
  points on at most two patches), one slope per patch and finite
  quotients of the last micro step, [projective_microcycle] returns the
  state after [K] micro steps (one micro step when [K <= 1]), up to the
  sign of entries that are zero. *)
Theorem cycle_without_extrapolation n m U U_prev dx dt Dt (K : Z) ls rs p R :
has_shape n m U → 3 ≤ m ∨ (m = 2 ∧ n ≤ 2) → length ls = n → length rs = n →
is_zero (sub Dt (mul (of_Z K) dt)) = true →
micro_steps dx dt ls rs p (Z.to_nat (K - 1)) U U_prev →
euler_step U_prev dx dt ls rs p = Some R →
all_finite (mmap (λ v, div v dt) (mzip sub R U_prev)) = true →
∃ R', projective_microcycle U dx dt Dt K ls rs p = Some R' ∧
      has_shape n m R' ∧
      ∀ k j, k < n → j < m →
        ∃ a b, get R k j = Some a ∧ get R' k j = Some b ∧ same_value a b.
Proof.
intros HU Hm Hls Hrs Hc Hsteps HR Hfin.
apply repeat_step_micro_steps in Hsteps.
assert (has_shape n m U_prev) as HUp.
{ eapply (repeat_step_shape n m); [|exact HU|exact Hsteps].
  intros U' R'' ??. by apply (euler_step_shape n m U' dx dt ls rs p). }
destruct (zero_coefficient_bcs n m U_prev dx dt Dt K ls rs p R)
  as (R' & HR' & HRs' & Hsame); [done..|].
exists R'. split_and!; [|done|done].
unfold projective_microcycle. rewrite Hsteps. simpl. rewrite HR. simpl. exact HR'.
Qed.

Lemma psiPatch_body_Some (u0_numpy : list float) x (x0 : list float) dx dt Dt
  (K : Z) T_patch T_psi p r :
x !! 0 = Some x0 → length u0_numpy = length x * length x0 →
psiPatch_body u0_numpy x dx dt Dt K T_patch T_psi p = Some r →
∃ u0_patch rows,
  toPatch x u0_numpy = Some u0_patch ∧
  gaptooth_PI_vectorised u0_patch x dx dt Dt K T_patch T_psi p = Some rows ∧
  length (concat rows) = length u0_numpy ∧
  r = zip_with sub u0_numpy (concat rows).
Proof.
intros Hx0 Hlen. unfold psiPatch_body. intros Hb.
apply bind_Some in Hb as (P & HP & Hb).
apply bind_Some in Hb as (rows & Hrows & Hb).
apply bind_Some in Hb as (flat & Hflat & Hb).
pose proof (toPatch_shape _ _ _ _ Hx0 Hlen HP) as HPs.
pose proof (gaptooth_shape _ _ _ _ _ _ _ _ _ _ _ _ HPs Hrows) as Hrs.
assert (0 < length x) as Hpos by (by eapply lookup_lt_Some).
rewrite (toNumpyArray_uniform (length x0)) in Hflat.
2:{ destruct Hrs as [Hn _]. destruct rows; [simpl in Hn; lia|done]. }
2:{ by destruct Hrs. }
injection Hflat as <-.
pose proof (length_concat_shape _ _ _ Hrs) as Hcat.
rewrite broadcast2_same in Hb by lia. injection Hb as <-.
exists P, rows. split_and!; [done|done|lia|done].
Qed.

Lemma sub_zero_iff a b :
valid a = true → valid b = true →
is_zero (sub a b) = true ↔ same_value a b ∧ is_finite a = true.
Proof.
intros Ha Hb. unfold sub, valid in *.
rewrite (SFsub_zero_iff prec emax) by (done || reflexivity).
unfold same_value. split.
- intros [[Hf <-]|[Hza Hzb]].
  + split; [by left|done].
  + split; [by right|]. by destruct a.
- intros [[<-|[Hza Hzb]] Hf]; [by left|by right].
Qed.

(** X24. On binary64, a zero of [psiPatch] is a fixed point of the
  driver: when [psiPatch] returns [r] on valid floats, every entry of
  [r] is a zero exactly when every entry of [u0_numpy] is finite and
  equal to the entry of the flattened result of
  [gaptooth_PI_vectorised], up to the sign of a zero. *)
Theorem psiPatch_zero_is_fixed_point c (u0_numpy : list float) x (x0 : list float)
  dx dt Dt (K : Z) T_patch T_psi p r :
x !! 0 = Some x0 → length u0_numpy = length x * length x0 →
(psiPatch c u0_numpy x dx dt Dt K T_patch T_psi p).2 = Some r →
∃ u0_patch rows,
  toPatch x u0_numpy = Some u0_patch ∧
  gaptooth_PI_vectorised u0_patch x dx dt Dt K T_patch T_psi p = Some rows ∧
  (Forall (λ v, valid v = true) u0_numpy →
   Forall (λ v, valid v = true) (concat rows) →
   (Forall (λ z, is_zero z = true) r ↔
    Forall2 (λ a b, same_value a b ∧ is_finite a = true)
      u0_numpy (concat rows))).
Proof.
intros Hx0 Hlen Hr. simpl in Hr.
destruct (psiPatch_body_Some _ _ _ _ _ _ _ _ _ _ _ Hx0 Hlen Hr)
  as (P & rows & HP & Hrows & Hcat & ->).
exists P, rows. split_and!; [done..|].
revert Hcat. generalize (concat rows). clear.
induction u0_numpy as [|a u IH]; intros [|b v] Hl Hu Hv; simpl in *; try lia.
- split; constructor.
- apply Forall_cons in Hu as [Ha Hu], Hv as [Hb Hv].
  rewrite Forall_cons, Forall2_cons, (sub_zero_iff a b Ha Hb).
  rewrite (IH v) by (done || lia). done.
Qed.

(** X26. On binary64, the direction of the extrapolation is the
  outcome of the comparison of [Dt] with [K*dt]: for valid floats the
  coefficient [Dt - K*dt] of line 74 is negative exactly when
  [Dt < K*dt], positive exactly when [K*dt < Dt], and a zero exactly
  when the two are the same finite value; rounding does not change the
  sign. *)
Theorem extrapolation_direction dt Dt (K : Z) :
valid Dt = true → valid (mul (of_Z K) dt) = true →
let c := sub Dt (mul (of_Z K) dt) in
(∀ U_prev U,
   extrapolate U_prev U dt Dt K
   = mzip add U (mmap (mul c) (mmap (λ v, div v dt) (mzip sub U U_prev)))) ∧
(lt c zero = true ↔ lt Dt (mul (of_Z K) dt) = true) ∧
(lt zero c = true ↔ lt (mul (of_Z K) dt) Dt = true) ∧
(is_zero c = true ↔ same_value Dt (mul (of_Z K) dt) ∧ is_finite Dt = true).
Proof.
intros HDt HKdt c. split; [done|].
destruct (SFsub_sign prec emax eq_refl Dt (mul (of_Z K) dt) HDt HKdt)
  as [Hneg Hpos].
split; [exact Hneg|]. split; [exact Hpos|].
by apply sub_zero_iff.
Qed.
End Edges.
End B64Edges.

(** ** Closed examples on binary64 *)

Module Examples.
Import B64 B64Facts Inputs.
#[local] Existing Instance ref_ops.
#[local] Existing Instance zero_data.

Lemma euler_step_U32 : euler_step U32 one one slopes3_mid slopes3 lam0 = Some R32.
Proof. vm_compute. reflexivity. Qed.

(** C1, at [K = 2] on two patches of three points. *)
Lemma projective_microcycle_extrapolates_K2 :
  projective_microcycle U23 one one two 2 slopes2 slopes2 lam0 = Some U23 ↔
  ∃ (i : nat) U_prev U_last E,
    Z.of_nat i = (2 - 1)%Z ∧
    micro_steps one one slopes2 slopes2 lam0 i U23 U_prev ∧
    euler_step U_prev one one slopes2 slopes2 lam0 = Some U_last ∧
    E = mzip f_add U_last
          (mmap (f_mul (f_sub two (f_mul (f_of_int 2) one)))
                (mmap (λ x, f_div x one) (mzip f_sub U_last U_prev))) ∧
    impose_bcs E one slopes2 slopes2 = Some U23 ∧
    (2%Z = 1%Z → U_prev = U23).
Proof. apply projective_microcycle_extrapolates. lia. Defined.

(** C2, on two patches of three points. *)
Lemma outer_edges_after_step_2x3 :
  (∀ R, euler_step U23 one one slopes2 slopes2 lam0 = Some R →
        outer_edges_zero 2 3 R) ∧
  (∀ R, projective_microcycle U23 one one two 2 slopes2 slopes2 lam0 = Some R →
        outer_edges_zero 2 3 R).
Proof. apply outer_edges_after_step. apply has_shapeb_true. reflexivity. Defined.

(** C3 as stated fails on patches of two points: after the step the left
    value of the middle patch is -1.0 and the value next to it is -1.0 as
    well, not -1.0 + 1.0 * 1.0. *)
Lemma inner_edges_two_points :
  euler_step U32 one one slopes3_mid slopes3 lam0 = Some R32 ∧
  ¬ inner_edges_tied 2 one slopes3_mid slopes3 1 R32.
Proof.
  split; [exact euler_step_U32|].
  intros (a & b & sl & sr & Ha & _ & Hsl & _ & H0 & _).
  vm_compute in Ha, Hsl. injection Ha as <-. injection Hsl as <-.
  vm_compute in H0. discriminate.
Qed.

(** C3, on the middle one of three patches of three points. *)
Lemma inner_edges_after_step_3x3 :
  (∀ R, euler_step U33 one one slopes3_mid slopes3 lam0 = Some R →
        inner_edges_tied 3 one slopes3_mid slopes3 1 R) ∧
  (∀ R, projective_microcycle U33 one one two 2 slopes3_mid slopes3 lam0 = Some R →
        inner_edges_tied 3 one slopes3_mid slopes3 1 R).
Proof.
  apply (inner_edges_after_step 3 3);
    [apply has_shapeb_true; reflexivity|lia|reflexivity|reflexivity|lia].
Defined.

Lemma gaptooth_run_U23 :
  gaptooth_run U23 grid2 one one one 1 two (of_Z 4) lam0 = Some (U23, log22).
Proof. vm_compute. reflexivity. Qed.

(** C4, on a run of two outer iterations of two cycles each. *)
Lemma driver_schedule_2x2 :
  ∃ (n_patch_steps n_PI_steps : Z) q1 q2 U0 blks,
    f_pydiv (of_Z 4) two = Some q1 ∧ f_round_int q1 = Some n_patch_steps ∧
    f_pydiv two one = Some q2 ∧ f_round_int q2 = Some n_PI_steps ∧
    np_stack U23 = Some U0 ∧
    log22 = concat blks ∧ length blks = Z.to_nat n_patch_steps ∧
    blocks_from one one one 1 lam0 grid2 (Z.to_nat n_PI_steps) U0 blks U23.
Proof. apply (driver_schedule U23 grid2). exact gaptooth_run_U23. Defined.

(** C5 as stated fails on three patches of two points: the wrapped
    neighbour of the last cell of the middle patch reaches the result. *)
Lemma wraparound_observed_two_points :
  euler_step U32_bump one one slopes3 slopes3 lam0 ≠
  euler_step_nonperiodic (truncated_edge one zero) U32_bump one one
    slopes3 slopes3 lam0.
Proof. vm_compute. discriminate. Qed.

(** C5, on two patches of three points. *)
Lemma wraparound_not_observed_2x3 :
  euler_step U23 one one slopes2 slopes2 lam0 =
  euler_step_nonperiodic (truncated_edge one zero) U23 one one
    slopes2 slopes2 lam0.
Proof.
  apply (wraparound_not_observed 2 3); [apply has_shapeb_true; reflexivity|lia].
Defined.

(** C6 as stated fails in two ways: with [dt = 0.0] the quotient 0/0 is
    NaN, which the product with zero keeps; and on patches of two points
    the second pass of the boundary conditions moves the edges again. *)
Lemma cycle_K1_differs :
  projective_microcycle U13 one zero zero 1 [zero] [zero] lam0 ≠
    euler_step U13 one zero [zero] [zero] lam0 ∧
  projective_microcycle U32 one one one 1 slopes3_mid slopes3 lam0 ≠
    euler_step U32 one one slopes3_mid slopes3 lam0.
Proof. split; vm_compute; discriminate. Qed.

(** C6, on two patches of three points with [dt = 1.0]. *)
Lemma cycle_K1_is_euler_step_2x3 :
  ∃ R', projective_microcycle U23 one one one 1 slopes2 slopes2 lam0 = Some R' ∧
        has_shape 2 3 R' ∧
        ∀ k j, k < 2 → j < 3 →
          ∃ a b, get U23 k j = Some a ∧ get R' k j = Some b ∧ same_value a b.
Proof.
  apply (cycle_K1_is_euler_step exp_ref sqr_ref 2 3 U23 one one slopes2 slopes2 lam0);
    [apply has_shapeb_true; reflexivity|lia|reflexivity|reflexivity|reflexivity
    |vm_compute; reflexivity|reflexivity].
Defined.

(** C7, on the first call, with a flat vector of six zeros. *)
Lemma psiPatch_residual_first_call :
  let u0 := [zero; zero; zero; zero; zero; zero] in
  let out := psiPatch counter_init u0 grid2 one one one 1 two (of_Z 4) lam0 in
  (∀ r, out.2 = Some r →
     length r = length u0 ∧
     ∃ u0_patch rows,
       toPatch grid2 u0 = Some u0_patch ∧
       gaptooth_PI_vectorised u0_patch grid2 one one one 1 two (of_Z 4) lam0
         = Some rows ∧
       r = zip_with f_sub u0 (concat rows)) ∧
  attr_count out.1 = closure_count out.1 ∧
  (attr_count counter_init = closure_count counter_init →
   attr_count out.1 = (attr_count counter_init + 1)%Z).
Proof.
  apply (psiPatch_residual counter_init _ grid2 [zero; one; two]);
    reflexivity.
Defined.

(** C8, with [Dt = 1.0] below [K * dt = 2.0]: the coefficient is -1.0. *)
Lemma backward_extrapolation_unchecked_K2 :
  sub one (mul (of_Z 2) one) = minus_one ∧
  is_finite (of_Z 2) = true ∧
  lt (sub one (mul (of_Z 2) one)) zero = true ∧
  (∃ U_prev U_last R,
     projective_microcycle U23 one one one 2 slopes2 slopes2 lam0 = Some R ∧
     euler_step U_prev one one slopes2 slopes2 lam0 = Some U_last ∧
     impose_bcs
       (mzip add U_last
          (mmap (mul (sub one (mul (of_Z 2) one)))
             (mmap (λ v, div v one) (mzip sub U_last U_prev))))
       one slopes2 slopes2 = Some R) ∧
  is_Some (gaptooth_PI_vectorised U23 grid2 one one one 2 two (of_Z 4) lam0).
Proof.
  split; [reflexivity|].
  apply (backward_extrapolation_unchecked exp_ref sqr_ref 2 3 U23 grid2
           one one one 2 two (of_Z 4) slopes2 slopes2 lam0 two two 2 2);
    [by vm_compute|reflexivity|reflexivity|reflexivity
    |apply has_shapeb_true; reflexivity
    |unfold steppable; lia
    |reflexivity|reflexivity
    |vm_compute; eexists; reflexivity
    |reflexivity
    |repeat constructor
    |reflexivity..].
Defined.

(** C9 as stated fails on the empty list: [toNumpyArray] raises at
    [u_patch[0]]. *)
Lemma roundtrip_empty :
  toNumpyArray (F := float) [] = None ∧
  toNumpyArray (F := float) [] ≫= toPatch [] ≠ Some [].
Proof. split; [reflexivity|discriminate]. Qed.

(** C9, on two patches of two points. *)
Lemma toPatch_toNumpyArray_2x2 :
  toNumpyArray [[one; two]; [of_Z 3; of_Z 4]] ≫= toPatch [[zero; one]; [two; of_Z 3]]
  = Some [[one; two]; [of_Z 3; of_Z 4]].
Proof.
  apply (toPatch_toNumpyArray 2); [discriminate|repeat constructor|reflexivity
                                   |repeat constructor].
Defined.

Lemma gaptooth_st_store0 :
  gaptooth_PI_vectorised_st [Whole 0; Whole 1] grid2 one one one 2 two two lam0 store0
  = Some ([Whole 13; Whole 14], store1).
Proof. vm_compute. reflexivity. Qed.

(** C10, on a run with two arrays of the caller. *)
Lemma driver_returns_fresh_copies_two_patches :
  store0 `prefix_of` store1 ∧
  (∀ a v, a ∈ [Whole 0; Whole 1] → read a store0 = Some (v, store0) →
          read a store1 = Some (v, store1)) ∧
  ∃ U n_teeth h1 rows Rv,
    gaptooth_body_st [Whole 0; Whole 1] grid2 one one one 2 two two lam0 store0
      = Some ((U, n_teeth), h1) ∧
    store0 `prefix_of` h1 ∧ h1 `prefix_of` store1 ∧
    Forall (λ a, ∃ l, a = Whole l ∧ length h1 ≤ l < length store1)
      [Whole 13; Whole 14] ∧
    NoDup [Whole 13; Whole 14] ∧
    Forall2 (λ a v, read a store0 = Some (v, store0)) [Whole 0; Whole 1] rows ∧
    gaptooth_PI_vectorised rows grid2 one one one 2 two two lam0 = Some Rv ∧
    Forall2 (λ a v, read a store1 = Some (v, store1)) [Whole 13; Whole 14] Rv.
Proof. apply driver_returns_fresh_copies. exact gaptooth_st_store0. Defined.

(** X2, on a vector of six values and two patches of three points. *)
Lemma toNumpyArray_toPatch_2x3 : toPatch grid2 u6 ≫= toNumpyArray = Some u6.
Proof. apply (toNumpyArray_toPatch grid2 [zero; one; two]); reflexivity. Defined.

(** X4, on two patches of three points. *)
Lemma rhs_vectorised_stencil_2x3 :
  (rhs_vectorised U23 one lam0 = None ↔ f_sqr one = None) ∧
  ∀ V, rhs_vectorised U23 one lam0 = Some V →
    has_shape 2 3 V ∧
    ∃ dx2, f_sqr one = Some dx2 ∧
      ∀ k j u, get U23 k j = Some u →
        ∃ u_next u_prev,
          get U23 k ((j + 1) mod 3) = Some u_next ∧
          get U23 k ((j + 3 - 1) mod 3) = Some u_prev ∧
          get V k j = Some (rhs_cell dx2 (lambda lam0) u u_next u_prev).
Proof. apply rhs_vectorised_stencil. apply has_shapeb_true. reflexivity. Defined.

Lemma euler_step_U23 : euler_step U23 one one slopes2 slopes2 lam0 = Some U23.
Proof. vm_compute. reflexivity. Qed.

Lemma euler_step_U23_bump :
  euler_step U23_bump one one slopes2_last slopes2_last lam0 = Some R23_bump.
Proof. vm_compute. reflexivity. Qed.

(** X5: the first patch does not see the change of the second one. *)
Lemma euler_step_patchwise_first_patch : U23 !! 0 = R23_bump !! 0.
Proof.
  apply (euler_step_patchwise 2 3 U23 U23_bump one one slopes2 slopes2
           slopes2_last slopes2_last lam0 U23 R23_bump 0);
    [apply has_shapeb_true; reflexivity|apply has_shapeb_true; reflexivity
    |reflexivity..|exact euler_step_U23|exact euler_step_U23_bump].
Defined.

(** X6, on one patch of three points. *)
Lemma single_patch_ignores_slopes_1x3 :
  euler_step U13 one one [one] [two] lam0 = euler_step U13 one one [] [] lam0 ∧
  projective_microcycle U13 one one two 2 [one] [two] lam0
  = projective_microcycle U13 one one two 2 [] [] lam0.
Proof. apply (single_patch_ignores_slopes 3). apply has_shapeb_true. reflexivity. Defined.

(** X8, on two patches of three points. *)
Lemma stepper_returns_2x3 :
  (is_Some (euler_step U23 one one slopes2 slopes2 lam0)
     ↔ steppable 2 3 ∧ is_Some (f_sqr one)) ∧
  (int_converts 2 →
   (is_Some (projective_microcycle U23 one one two 2 slopes2 slopes2 lam0)
      ↔ steppable 2 3 ∧ is_Some (f_sqr one))) ∧
  (∀ R, euler_step U23 one one slopes2 slopes2 lam0 = Some R → has_shape 2 3 R) ∧
  (∀ R, projective_microcycle U23 one one two 2 slopes2 slopes2 lam0 = Some R →
        has_shape 2 3 R).
Proof.
  apply stepper_returns; [apply has_shapeb_true; reflexivity|reflexivity..].
Defined.

(** X9, at the middle cell of the second patch. *)
Lemma euler_step_interior_middle :
  ∃ dx2 u u_next u_prev,
    f_sqr one = Some dx2 ∧ get U23 1 1 = Some u ∧
    get U23 1 (1 + 1) = Some u_next ∧ get U23 1 (1 - 1) = Some u_prev ∧
    get U23 1 1
    = Some (f_add u (f_mul one (rhs_cell dx2 (lambda lam0) u u_next u_prev))).
Proof.
  apply (euler_step_interior 2 3 U23 one one slopes2 slopes2 lam0 U23 1 1);
    [apply has_shapeb_true; reflexivity|reflexivity|reflexivity|lia|lia
    |exact euler_step_U23].
Defined.

(** X10, on two patches of three points. *)
Lemma boundary_conditions_idempotent_2x3 :
  impose_bcs R23_inside one slopes2_last slopes2_last = Some R23_inside.
Proof.
  apply (boundary_conditions_idempotent 2 3 U23_inside);
    [apply has_shapeb_true; reflexivity|lia|reflexivity|reflexivity
    |vm_compute; reflexivity].
Defined.

(** X11, at [K = 0], at the middle cell of the second patch. *)
Lemma single_step_for_K0 :
  ∃ U_last R,
    euler_step U23 one one slopes2 slopes2 lam0 = Some U_last ∧
    projective_microcycle U23 one one two 0 slopes2 slopes2 lam0 = Some R ∧
    has_shape 2 3 R ∧
    ∀ k j, k < 2 → 0 < j < 3 - 1 →
      ∃ a b, get U_last k j = Some a ∧ get U23 k j = Some b ∧
             get R k j
             = Some (f_add a (f_mul (f_sub two (f_mul (f_of_int 0) one))
                                    (f_div (f_sub a b) one))).
Proof.
  apply (single_step_for_small_K 2 3 U23 one one two 0 slopes2 slopes2 lam0);
    [lia|by vm_compute|apply has_shapeb_true; reflexivity|unfold steppable; lia
    |reflexivity|reflexivity|vm_compute; eexists; reflexivity].
Defined.

(** X12: other values inside the patches and grids without inner points. *)
Lemma slopes_read_end_points_only_2x3 :
  spline_slopes U23 grid2 = spline_slopes U23_inside grid2_ends.
Proof.
  apply (slopes_read_end_points_only 2 3);
    [apply has_shapeb_true; reflexivity|apply has_shapeb_true; reflexivity
    | |repeat constructor].
  intros [|[|k]] Hk; [split; reflexivity..|lia].
Defined.

(** X13, on two patches of three points. *)
Lemma spline_slopes_indexing_2x3 :
  (2 < length grid2 ∨ [] ∈ grid2 ∨ (grid2 ≠ [] ∧ 3 = 0) →
   spline_slopes U23 grid2 = None) ∧
  ∀ ls rs, spline_slopes U23 grid2 = Some (ls, rs) →
           length ls = length grid2 ∧ length rs = length grid2.
Proof. apply spline_slopes_indexing. apply has_shapeb_true. reflexivity. Defined.

(** X14, with [T = 1.0] and [T_patch = 4.0], and no grid at all. *)
Lemma no_patch_steps_quarter :
  gaptooth_run U23 [] one one one 1 (of_Z 4) one lam0 = Some (U23, []).
Proof.
  apply (no_patch_steps_returns_input U23 [] one one one 1 (of_Z 4) one lam0
           U23 (div one (of_Z 4)) (div (of_Z 4) one) 0 4);
    [reflexivity|reflexivity|vm_compute; reflexivity|reflexivity
    |vm_compute; reflexivity|lia].
Defined.

(** X15, with [T_patch = 2.0] and [Dt = 8.0]. *)
Lemma no_cycles_quarter :
  gaptooth_run U23 grid2 one one (of_Z 8) 1 two (of_Z 4) lam0
  = spline_slopes U23 grid2 ≫= λ _,
      Some (U23, replicate (Z.to_nat 2) (CallSlopes U23)).
Proof.
  apply (no_cycles_returns_input U23 grid2 one one (of_Z 8) 1 two (of_Z 4) lam0
           U23 (div (of_Z 4) two) (div two (of_Z 8)) 2 0);
    [reflexivity|reflexivity|vm_compute; reflexivity|reflexivity
    |vm_compute; reflexivity|lia|lia].
Defined.

(** X16: a run over [T = 4.0] is two runs over [T = 2.0]. *)
Lemma driver_restarts_4_is_2_2 :
  gaptooth_PI_vectorised U23 grid2 one one one 1 two (of_Z 4) lam0 =
    u1_patch ← gaptooth_PI_vectorised U23 grid2 one one one 1 two two lam0;
    gaptooth_PI_vectorised u1_patch grid2 one one one 1 two two lam0.
Proof.
  apply (driver_restarts U23 grid2 one one one 1 two two two (of_Z 4) lam0
           (div two two) (div two two) (div (of_Z 4) two) 1 1);
    [reflexivity|vm_compute; reflexivity|reflexivity|vm_compute; reflexivity
    |reflexivity|vm_compute; reflexivity|lia|lia].
Defined.

Lemma gaptooth_U23 :
  gaptooth_PI_vectorised U23 grid2 one one one 1 two (of_Z 4) lam0 = Some U23.
Proof. vm_compute. reflexivity. Qed.

(** X17, on the run of two outer iterations. *)
Lemma driver_keeps_shape_2x3 :
  U23 ≠ [] ∧ ∃ m, has_shape (length U23) m U23 ∧ has_shape (length U23) m U23.
Proof.
  apply (driver_keeps_shape U23 grid2 one one one 1 two (of_Z 4) lam0 U23).
  exact gaptooth_U23.
Defined.

(** X18, on the run of two outer iterations of two cycles. *)
Lemma driver_result_boundary_2x3 :
  outer_edges_zero 2 3 U23 ∧
  ∃ W ls rs,
    fst <$> patch_steps one one one 1 lam0 grid2 (Z.to_nat 2 - 1) (Z.to_nat 2)
              U23 [] = Some W ∧
    spline_slopes W grid2 = Some (ls, rs) ∧
    (3 ≤ 3 → length grid2 = 2 →
     ∀ k, 0 < k < 2 - 1 → inner_edges_tied 3 one ls rs k U23).
Proof.
  apply (driver_result_boundary 2 3 U23 grid2 one one one 1 two (of_Z 4) lam0 U23
           (div (of_Z 4) two) (div two one) 2 2);
    [apply has_shapeb_true; reflexivity|exact gaptooth_U23
    |reflexivity|vm_compute; reflexivity|reflexivity|vm_compute; reflexivity
    |lia|lia].
Defined.

(** X25: the run on the grids without their inner points. *)
Lemma driver_reads_grid_ends_only_2x3 :
  gaptooth_PI_vectorised U23 grid2 one one one 1 two (of_Z 4) lam0
  = gaptooth_PI_vectorised U23 grid2_ends one one one 1 two (of_Z 4) lam0.
Proof. apply driver_reads_grid_ends_only. repeat constructor. Defined.

(** X20, on a store with a state and two slope arrays. *)
Lemma stepper_leaves_its_arguments_store2 :
  (∀ R h', euler_step_st 0 one one 1 2 lam0 store2 = Some (R, h') →
     store2 `prefix_of` h' ∧ length store2 ≤ R ∧
     h' !! 0 = Some (Mat U23) ∧ h' !! 1 = Some (Vec slopes2) ∧
     h' !! 2 = Some (Vec slopes2) ∧
     ∃ Rv, euler_step U23 one one slopes2 slopes2 lam0 = Some Rv ∧
           h' !! R = Some (Mat Rv)) ∧
  (∀ R h', projective_microcycle_st 0 one one two 2 1 2 lam0 store2 = Some (R, h') →
     store2 `prefix_of` h' ∧ length store2 ≤ R ∧
     h' !! 0 = Some (Mat U23) ∧ h' !! 1 = Some (Vec slopes2) ∧
     h' !! 2 = Some (Vec slopes2) ∧
     ∃ Rv, projective_microcycle U23 one one two 2 slopes2 slopes2 lam0 = Some Rv ∧
           h' !! R = Some (Mat Rv)).
Proof. apply stepper_leaves_its_arguments; reflexivity. Defined.

(** X21, on the domain of the experiments: 21 patches of 15 points out
    of 575 grid points, 315 values in the flat vector. *)
Lemma cut_patches_layout_experiments :
  let u := replicate 575 zero in
  has_shape (Z.to_nat (n_teeth experiment_domain))
    (Z.to_nat (n_points_per_tooth experiment_domain))
    (cut_patches experiment_domain u) ∧
  (∀ i j : nat,
     (Z.of_nat i < n_teeth experiment_domain)%Z →
     (Z.of_nat j < n_points_per_tooth experiment_domain)%Z →
     get (cut_patches experiment_domain u) i j
     = u !! (i * Z.to_nat (n_points_per_gap experiment_domain
                           + n_points_per_tooth experiment_domain) + j)) ∧
  get (cut_patches experiment_domain u)
    (Z.to_nat (n_teeth experiment_domain) - 1)
    (Z.to_nat (n_points_per_tooth experiment_domain) - 1) = u !! (length u - 1) ∧
  ∃ flat, toNumpyArray (cut_patches experiment_domain u) = Some flat ∧
          Z.of_nat (length flat) = M_points experiment_domain.
Proof.
  apply (cut_patches_layout experiment_domain (replicate 575 zero));
    [by vm_compute..|reflexivity].
Defined.

(** X22, with [T_patch = 0.0]. *)
Lemma driver_raises_zero_T_patch :
  gaptooth_PI_vectorised U23 grid2 one one one 1 zero one lam0 = None.
Proof.
  apply (B64Edges.driver_raises exp_ref sqr_ref U23 grid2 one one one 1 zero one lam0).
  right. right. left. reflexivity.
Defined.

(** X23, with [Dt = 2.0 = K * dt] for [K = 2] and [dt = 1.0]. *)
Lemma cycle_without_extrapolation_K2 :
  ∃ R', projective_microcycle U23 one one two 2 slopes2 slopes2 lam0 = Some R' ∧
        has_shape 2 3 R' ∧
        ∀ k j, k < 2 → j < 3 →
          ∃ a b, get U23 k j = Some a ∧ get R' k j = Some b ∧ same_value a b.
Proof.
  apply (B64Edges.cycle_without_extrapolation exp_ref sqr_ref 2 3 U23 U23 one one two 2
           slopes2 slopes2 lam0 U23);
    [apply has_shapeb_true; reflexivity|lia|reflexivity|reflexivity|reflexivity
    | |exact euler_step_U23|reflexivity].
  apply (micro_steps_S _ _ _ _ _ 0 U23 U23 U23); [exact euler_step_U23|].
  apply micro_steps_O.
Defined.

(** X24, on the flat vector of six zeros, which the flow leaves as it is. *)
Lemma psiPatch_zero_is_fixed_point_zeros :
  ∃ u0_patch rows,
    toPatch grid2 zeros6 = Some u0_patch ∧
    gaptooth_PI_vectorised u0_patch grid2 one one one 1 two (of_Z 4) lam0
      = Some rows ∧
    (Forall (λ v, valid v = true) zeros6 →
     Forall (λ v, valid v = true) (concat rows) →
     (Forall (λ z, is_zero z = true) zeros6 ↔
      Forall2 (λ a b, same_value a b ∧ is_finite a = true) zeros6 (concat rows))).
Proof.
  apply (B64Edges.psiPatch_zero_is_fixed_point exp_ref sqr_ref counter_init zeros6 grid2
           [zero; one; two] one one one 1 two (of_Z 4) lam0 zeros6);
    [reflexivity|reflexivity|vm_compute; reflexivity].
Defined.

(** X26, with [Dt = 2.0] above [K * dt = 1.0]: the coefficient is 1.0. *)
Lemma extrapolation_direction_forward :
  let c := sub two (mul (of_Z 1) one) in
  (∀ U_prev U,
     extrapolate U_prev U one two 1
     = mzip add U (mmap (mul c) (mmap (λ v, div v one) (mzip sub U U_prev)))) ∧
  (lt c zero = true ↔ lt two (mul (of_Z 1) one) = true) ∧
  (lt zero c = true ↔ lt (mul (of_Z 1) one) two = true) ∧
  (is_zero c = true ↔ same_value two (mul (of_Z 1) one) ∧ is_finite two = true).
Proof.
  apply (B64Edges.extrapolation_direction exp_ref sqr_ref one two 1); reflexivity.
Defined.
End Examples.
